(** * QuantNexus shared-memory OHLCV writer

    A shallow embedding of [data-source-nexus/native/include/shm_protocol.h]
    and [data-source-nexus/native/src/shm_writer.{h,cpp}] (the POSIX branch
    of the platform layer), followed by the verification of the writer's
    transaction protocol, symbol index and block allocator.

    The mapped shared-memory object is modelled at the byte level: every
    field of the packed structures is read and written at its byte offset
    with a little-endian fixed-width encoding, so that aliasing between
    the header, the symbol index and the data blocks is part of the model
    and not assumed away. *)

From Stdlib Require Import ZArith List String Ascii Lia Bool.
From stdpp Require Import base gmap strings.
Import ListNotations.
Open Scope Z_scope.

(** ** Constants of [shm_protocol.h] *)

Definition MAGIC : Z := 0x514E5853.
Definition VERSION : Z := 1.
Definition REGION_SIZE : Z := 128 * 1024 * 1024.
Definition MAX_SYMBOLS : Z := 256.
Definition MAX_CANDLES_PER_SYMBOL : Z := 100000.
Definition SYMBOL_NAME_SIZE : Z := 16.
Definition INTERVAL_SIZE : Z := 8.

Definition HEADER_OFFSET : Z := 0.
Definition SYMBOL_INDEX_OFFSET : Z := 256.
Definition SYMBOL_INDEX_SIZE : Z := 16384.
Definition DATA_SECTIONS_OFFSET : Z := 16640.

(** ** Layout of the packed structures

    Every structure is declared [__attribute__((packed))]: a field sits at
    the sum of the sizes of the fields before it. *)

Module Header.
Definition magic : Z := 0.
Definition version : Z := 4.
Definition writer_pid : Z := 8.
Definition reader_pid : Z := 12.
Definition last_update_us : Z := 16.
Definition sequence : Z := 24.
Definition symbol_count : Z := 32.
Definition flags : Z := 36.
Definition crc32 : Z := 40.
Definition reserved : Z := 44.
Definition sizeof : Z := 256.
End Header.

Module SymbolIndexEntry.
Definition symbol : Z := 0.
Definition data_offset : Z := 16.
Definition data_size : Z := 24.
Definition candle_count : Z := 28.
Definition last_update_us : Z := 32.
Definition sizeof : Z := 40.
End SymbolIndexEntry.

Module SymbolIndex.
Definition count : Z := 0.
Definition padding : Z := 4.
Definition entries : Z := 8.
Definition sizeof : Z := 8 + SymbolIndexEntry.sizeof * MAX_SYMBOLS.
End SymbolIndex.

Module Candle.
Definition timestamp : Z := 0.
Definition open : Z := 8.
Definition high : Z := 16.
Definition low : Z := 24.
Definition close : Z := 32.
Definition volume : Z := 40.
Definition sizeof : Z := 48.
End Candle.

Module OHLCVDataBlock.
Definition symbol : Z := 0.
Definition interval : Z := 16.
Definition count : Z := 24.
Definition capacity : Z := 28.
Definition start_timestamp : Z := 32.
Definition end_timestamp : Z := 40.
Definition padding : Z := 48.
Definition candles : Z := 56.
(** The flexible array member contributes nothing to [sizeof]. *)
Definition sizeof : Z := 56.
End OHLCVDataBlock.

(** ** Machine integers *)

Definition uint32 (x : Z) : Z := x mod 2 ^ 32.
Definition uint64 (x : Z) : Z := x mod 2 ^ 64.

(** Little-endian encoding of an [n]-byte unsigned integer. *)
Fixpoint encode_le (n : nat) (v : Z) : list Z :=
  match n with
  | O => []
  | S k => v mod 256 :: encode_le k (v / 256)
  end.

Fixpoint decode_le (bs : list Z) : Z :=
  match bs with
  | [] => 0
  | b :: r => b + 256 * decode_le r
  end.

(** ** Strings and character arrays *)

Definition char_code (c : ascii) : Z := Z.of_N (N_of_ascii c).
Definition code_char (b : Z) : ascii := ascii_of_N (Z.to_N b).

(** [strncpy(dest, src.c_str(), n)] writes exactly [n] bytes: the
    characters of [src] up to its first NUL (embedded or terminating),
    then NUL padding. *)
Fixpoint strncpy_bytes (n : nat) (src : string) : list Z :=
  match n with
  | O => []
  | S k =>
      match src with
      | EmptyString => 0 :: strncpy_bytes k EmptyString
      | String c r =>
          if char_code c =? 0 then 0 :: strncpy_bytes k EmptyString
          else char_code c :: strncpy_bytes k r
      end
  end.

(** [std::string(arr, strnlen(arr, n))] for the [n]-byte array [arr]: the
    characters before the first NUL, all [n] of them when there is none. *)
Fixpoint string_of_array (arr : list Z) : string :=
  match arr with
  | [] => EmptyString
  | b :: r => if b =? 0 then EmptyString else String (code_char b) (string_of_array r)
  end.

(** ** The writer and its mapping *)

Inductive WriterError :=
| OK
| INVALID_NAME
| INVALID_SIZE
| CREATE_FAILED
| MAPPING_FAILED
| WRITE_FAILED
| SYMBOL_NOT_FOUND
| SYMBOL_LIMIT_EXCEEDED
| CANDLE_LIMIT_EXCEEDED
| NOT_INITIALIZED.

(** [CandleData]: the five prices are IEEE doubles; the writer only copies
    them, so each is carried as its 64-bit pattern. *)
Record CandleData := {
  timestamp : Z;
  open : Z;
  high : Z;
  low : Z;
  close : Z;
  volume : Z
}.

Record WriterStats := {
  total_symbols : Z;
  total_candles : Z;
  memory_used : Z;
  last_write_us : Z;
  write_count : Z
}.

(** The mapped object. [bytes] is its content, addressed from the start of
    the mapping (an absent key reads as zero); [written] records the range
    (address, length) of every store made through the mapping, most recent
    first, so that the footprint of an operation can be compared with the
    size the object was created with. *)
Record Mapping := {
  bytes : gmap Z Z;
  written : list (Z * Z)
}.

(** A pointer of the writer is either null or the base of the mapping
    ([region_] is [base_ptr_] after a cast). *)
Inductive pointer := nullptr | mapping_base.

Record SharedMemoryWriter := {
  name_ : string;
  size_ : Z;
  handle_ : Z;
  base_ptr_ : pointer;
  region_ : pointer;
  next_data_offset_ : Z;
  shm : Mapping
}.

Definition set_shm (w : SharedMemoryWriter) (s : Mapping) : SharedMemoryWriter :=
  {| name_ := name_ w; size_ := size_ w; handle_ := handle_ w;
     base_ptr_ := base_ptr_ w; region_ := region_ w;
     next_data_offset_ := next_data_offset_ w; shm := s |}.

Definition set_next_data_offset (w : SharedMemoryWriter) (o : Z) : SharedMemoryWriter :=
  {| name_ := name_ w; size_ := size_ w; handle_ := handle_ w;
     base_ptr_ := base_ptr_ w; region_ := region_ w;
     next_data_offset_ := o; shm := shm w |}.

(** *** Byte access through the mapping *)

Fixpoint store_bytes (m : gmap Z Z) (a : Z) (bs : list Z) : gmap Z Z :=
  match bs with
  | [] => m
  | b :: r => store_bytes (<[a := b]> m) (a + 1) r
  end.

Definition peek (w : SharedMemoryWriter) (a : Z) : Z :=
  default 0 (bytes (shm w) !! a) mod 256.

Definition poke (w : SharedMemoryWriter) (a : Z) (bs : list Z) : SharedMemoryWriter :=
  set_shm w {| bytes := store_bytes (bytes (shm w)) a bs;
               written := (a, Z.of_nat (length bs)) :: written (shm w) |}.

Fixpoint load_bytes (n : nat) (w : SharedMemoryWriter) (a : Z) : list Z :=
  match n with
  | O => []
  | S k => peek w a :: load_bytes k w (a + 1)
  end.

Definition load_le (n : nat) (w : SharedMemoryWriter) (a : Z) : Z :=
  decode_le (load_bytes n w a).
Definition store_le (n : nat) (w : SharedMemoryWriter) (a v : Z) : SharedMemoryWriter :=
  poke w a (encode_le n v).

Abbreviation load_u32 := (load_le 4).
Abbreviation load_u64 := (load_le 8).
Abbreviation store_u32 := (store_le 4).
Abbreviation store_u64 := (store_le 8).

(** [std::memset(base + a, c, n)]. *)
Definition memset (w : SharedMemoryWriter) (a c n : Z) : SharedMemoryWriter :=
  poke w a (replicate (Z.to_nat n) c).

Definition set_name (w : SharedMemoryWriter) (n : string) : SharedMemoryWriter :=
  {| name_ := n; size_ := size_ w; handle_ := handle_ w;
     base_ptr_ := base_ptr_ w; region_ := region_ w;
     next_data_offset_ := next_data_offset_ w; shm := shm w |}.

Definition set_size (w : SharedMemoryWriter) (n : Z) : SharedMemoryWriter :=
  {| name_ := name_ w; size_ := n; handle_ := handle_ w;
     base_ptr_ := base_ptr_ w; region_ := region_ w;
     next_data_offset_ := next_data_offset_ w; shm := shm w |}.

Definition set_handle (w : SharedMemoryWriter) (h : Z) : SharedMemoryWriter :=
  {| name_ := name_ w; size_ := size_ w; handle_ := h;
     base_ptr_ := base_ptr_ w; region_ := region_ w;
     next_data_offset_ := next_data_offset_ w; shm := shm w |}.

Definition set_base_ptr (w : SharedMemoryWriter) (p : pointer) : SharedMemoryWriter :=
  {| name_ := name_ w; size_ := size_ w; handle_ := handle_ w;
     base_ptr_ := p; region_ := region_ w;
     next_data_offset_ := next_data_offset_ w; shm := shm w |}.

Definition set_region (w : SharedMemoryWriter) (p : pointer) : SharedMemoryWriter :=
  {| name_ := name_ w; size_ := size_ w; handle_ := handle_ w;
     base_ptr_ := base_ptr_ w; region_ := p;
     next_data_offset_ := next_data_offset_ w; shm := shm w |}.

(** ** Typed views of the region: [region_->header], [region_->symbol_index] *)

Definition sequence_addr : Z := HEADER_OFFSET + Header.sequence.
Definition last_update_addr : Z := HEADER_OFFSET + Header.last_update_us.
Definition symbol_count_addr : Z := HEADER_OFFSET + Header.symbol_count.
Definition count_addr : Z := SYMBOL_INDEX_OFFSET + SymbolIndex.count.

Definition header_sequence (w : SharedMemoryWriter) : Z := load_u64 w sequence_addr.
Definition header_last_update_us (w : SharedMemoryWriter) : Z := load_u64 w last_update_addr.
Definition header_symbol_count (w : SharedMemoryWriter) : Z := load_u32 w symbol_count_addr.
Definition index_count (w : SharedMemoryWriter) : Z := load_u32 w count_addr.

(** [&region_->symbol_index.entries[i]], as an offset from the base. *)
Definition entry_at (i : Z) : Z :=
  SYMBOL_INDEX_OFFSET + SymbolIndex.entries + i * SymbolIndexEntry.sizeof.

Definition entry_data_offset (w : SharedMemoryWriter) (entry : Z) : Z :=
  load_u64 w (entry + SymbolIndexEntry.data_offset).
Definition entry_data_size (w : SharedMemoryWriter) (entry : Z) : Z :=
  load_u32 w (entry + SymbolIndexEntry.data_size).
Definition entry_candle_count (w : SharedMemoryWriter) (entry : Z) : Z :=
  load_u32 w (entry + SymbolIndexEntry.candle_count).
Definition entry_last_update_us (w : SharedMemoryWriter) (entry : Z) : Z :=
  load_u64 w (entry + SymbolIndexEntry.last_update_us).

Definition block_count (w : SharedMemoryWriter) (block : Z) : Z :=
  load_u32 w (block + OHLCVDataBlock.count).
Definition block_capacity (w : SharedMemoryWriter) (block : Z) : Z :=
  load_u32 w (block + OHLCVDataBlock.capacity).

(** ** [shm_protocol.h]: methods of the structures *)

(** [SymbolIndexEntry::SetSymbol] and [OHLCVDataBlock::SetSymbol] (the same
    code; [symbol] is the first field of both structures). *)
Definition SetSymbol (w : SharedMemoryWriter) (obj : Z) (sym : string) : SharedMemoryWriter :=
  let w := poke w obj (strncpy_bytes (Z.to_nat (SYMBOL_NAME_SIZE - 1)) sym) in
  poke w (obj + (SYMBOL_NAME_SIZE - 1)) [0].

(** [SymbolIndexEntry::GetSymbol]. *)
Definition GetSymbol (w : SharedMemoryWriter) (obj : Z) : string :=
  string_of_array (load_bytes (Z.to_nat SYMBOL_NAME_SIZE) w obj).

(** [OHLCVDataBlock::SetInterval]. *)
Definition SetInterval (w : SharedMemoryWriter) (block : Z) (intvl : string) : SharedMemoryWriter :=
  let w := poke w (block + OHLCVDataBlock.interval)
                (strncpy_bytes (Z.to_nat (INTERVAL_SIZE - 1)) intvl) in
  poke w (block + OHLCVDataBlock.interval + (INTERVAL_SIZE - 1)) [0].

Definition GetInterval (w : SharedMemoryWriter) (block : Z) : string :=
  string_of_array (load_bytes (Z.to_nat INTERVAL_SIZE) w (block + OHLCVDataBlock.interval)).

(** [OHLCVDataBlock::RequiredSize(uint32_t n)]. *)
Definition RequiredSize (n : Z) : Z :=
  uint64 (OHLCVDataBlock.sizeof + uint32 n * Candle.sizeof).

(** [SymbolIndex::Find]: the loop runs over [i < count && i < MAX_SYMBOLS]
    and returns the first entry whose stored name equals [symbol]. *)
Definition Find (w : SharedMemoryWriter) (symbol : string) : option Z :=
  entry_at <$>
    List.find (fun i => String.eqb (GetSymbol w (entry_at i)) symbol)
              (seqZ 0 (Z.min (index_count w) MAX_SYMBOLS)).

(** [SymbolIndex::Add]. *)
Definition Add (w : SharedMemoryWriter) (symbol : string) : option Z * SharedMemoryWriter :=
  let count := index_count w in
  if MAX_SYMBOLS <=? count then (None, w)
  else
    let entry := entry_at count in
    let w := store_u32 w count_addr (uint32 (count + 1)) in
    let w := SetSymbol w entry symbol in
    (Some entry, w).

(** ** [shm_writer.cpp] *)

Definition IsInitialized (w : SharedMemoryWriter) : bool :=
  match region_ w with nullptr => false | mapping_base => true end.

Definition begin_write (w : SharedMemoryWriter) : SharedMemoryWriter :=
  store_u64 w sequence_addr (uint64 (header_sequence w + 1)).

Definition end_write (now : Z) (w : SharedMemoryWriter) : SharedMemoryWriter :=
  let w := store_u64 w sequence_addr (uint64 (header_sequence w + 1)) in
  store_u64 w last_update_addr now.

Definition find_or_add_symbol (symbol : string) (w : SharedMemoryWriter)
  : option Z * SharedMemoryWriter :=
  match Find w symbol with
  | Some entry => (Some entry, w)
  | None =>
      if MAX_SYMBOLS <=? index_count w then (None, w)
      else
        match Add w symbol with
        | (Some entry, w) => (Some entry, store_u32 w symbol_count_addr (index_count w))
        | (None, w) => (None, w)
        end
  end.

(** Returns the offset of the block, or 0 when the region is full. *)
Definition allocate_data_block (size : Z) (w : SharedMemoryWriter) : Z * SharedMemoryWriter :=
  if size_ w <? uint64 (next_data_offset_ w + size) then (0, w)
  else
    let offset := next_data_offset_ w in
    let w := set_next_data_offset w (uint64 (next_data_offset_ w + size)) in
    let w := memset w offset 0 size in
    (offset, w).

(** The copy loop of [WriteCandles]: [block->candles[i] = candles[i]]. *)
Fixpoint copy_candles (w : SharedMemoryWriter) (block : Z) (i : Z) (candles : list CandleData)
  : SharedMemoryWriter :=
  match candles with
  | [] => w
  | src :: rest =>
      let dst := block + OHLCVDataBlock.candles + i * Candle.sizeof in
      let w := store_u64 w (dst + Candle.timestamp) (timestamp src) in
      let w := store_u64 w (dst + Candle.open) (open src) in
      let w := store_u64 w (dst + Candle.high) (high src) in
      let w := store_u64 w (dst + Candle.low) (low src) in
      let w := store_u64 w (dst + Candle.close) (close src) in
      let w := store_u64 w (dst + Candle.volume) (volume src) in
      copy_candles w block (i + 1) rest
  end.

Definition no_candle : CandleData :=
  {| timestamp := 0; open := 0; high := 0; low := 0; close := 0; volume := 0 |}.

(** The "allocate or reuse data block" part of [WriteCandles]: the offset
    of the block the candles go to, or [None] on the two paths that leave
    with [WRITE_FAILED]. *)
Definition allocate_or_reuse (entry required_size : Z) (w : SharedMemoryWriter)
  : option Z * SharedMemoryWriter :=
  if entry_data_offset w entry =? 0 then
    (* first write for this symbol, allocate new block *)
    match allocate_data_block required_size w with
    | (data_offset, w) =>
        if data_offset =? 0 then (None, w)
        else
          let w := store_u64 w (entry + SymbolIndexEntry.data_offset) data_offset in
          let w := store_u32 w (entry + SymbolIndexEntry.data_size) required_size in
          (Some data_offset, w)
    end
  else if entry_data_size w entry <? required_size then
    (* need larger block, reallocate *)
    match allocate_data_block required_size w with
    | (data_offset, w) =>
        if data_offset =? 0 then (None, w)
        else
          let w := store_u64 w (entry + SymbolIndexEntry.data_offset) data_offset in
          let w := store_u32 w (entry + SymbolIndexEntry.data_size) required_size in
          (Some data_offset, w)
    end
  else (Some (entry_data_offset w entry), w).

(** The "populate block header" and "copy candles" parts of [WriteCandles]. *)
Definition populate_block (symbol interval : string) (candles : list CandleData)
    (block : Z) (w : SharedMemoryWriter) : SharedMemoryWriter :=
  let n := Z.of_nat (length candles) in
  let w := SetSymbol w block symbol in
  let w := SetInterval w block interval in
  let w := store_u32 w (block + OHLCVDataBlock.count) (uint32 n) in
  let w := store_u32 w (block + OHLCVDataBlock.capacity) (uint32 n) in
  let w := store_u64 w (block + OHLCVDataBlock.start_timestamp)
                     (timestamp (hd no_candle candles)) in
  let w := store_u64 w (block + OHLCVDataBlock.end_timestamp)
                     (timestamp (List.last candles no_candle)) in
  copy_candles w block 0 candles.

(** [SharedMemoryWriter::WriteCandles]. [clock k] is the value of the
    [k]-th call of [GetTimestampMicros] made during this call. *)
Definition WriteCandles (clock : nat -> Z) (symbol interval : string)
    (candles : list CandleData) (w : SharedMemoryWriter)
  : WriterError * SharedMemoryWriter :=
  if negb (IsInitialized w) then (NOT_INITIALIZED, w)
  else if Z.of_nat (length candles) =? 0 then (OK, w)
  else if MAX_CANDLES_PER_SYMBOL <? Z.of_nat (length candles) then (CANDLE_LIMIT_EXCEEDED, w)
  else
    let w := begin_write w in
    match find_or_add_symbol symbol w with
    | (None, w) => (SYMBOL_LIMIT_EXCEEDED, end_write (clock 0%nat) w)
    | (Some entry, w) =>
        let required_size := RequiredSize (Z.of_nat (length candles)) in
        match allocate_or_reuse entry required_size w with
        | (None, w) => (WRITE_FAILED, end_write (clock 0%nat) w)
        | (Some data_offset, w) =>
            let w := populate_block symbol interval candles data_offset w in
            let w := store_u32 w (entry + SymbolIndexEntry.candle_count)
                               (uint32 (Z.of_nat (length candles))) in
            let w := store_u64 w (entry + SymbolIndexEntry.last_update_us)
                               (clock 0%nat) in
            (OK, end_write (clock 1%nat) w)
        end
    end.

Definition no_stats : WriterStats :=
  {| total_symbols := 0; total_candles := 0; memory_used := 0;
     last_write_us := 0; write_count := 0 |}.

(** [SharedMemoryWriter::GetStats]. *)
Definition GetStats (w : SharedMemoryWriter) : WriterStats :=
  if negb (IsInitialized w) then no_stats
  else
    {| total_symbols := index_count w;
       total_candles :=
         fold_left (fun acc i => uint64 (acc + entry_candle_count w (entry_at i)))
                   (seqZ 0 (index_count w)) 0;
       memory_used := next_data_offset_ w;
       last_write_us := header_last_update_us w;
       write_count := header_sequence w / 2 |}.

(** *** Platform layer (POSIX) *)

(** What the operating system answers to the three calls of
    [platform_create]: [shm_open] and [ftruncate] return -1 on failure;
    [mmap] returns [MAP_FAILED] ([None]) or a mapping of the object, whose
    content is whatever the object holds (it is not new when an object of
    that name was left behind). *)
Record os_calls := {
  shm_open_result : Z;
  ftruncate_result : Z;
  mmap_result : option (gmap Z Z)
}.

Definition platform_create (os : os_calls) (name : string) (size : Z)
    (w : SharedMemoryWriter) : WriterError * SharedMemoryWriter :=
  let w := set_handle w (shm_open_result os) in
  if handle_ w =? -1 then (CREATE_FAILED, w)
  else if ftruncate_result os =? -1 then (CREATE_FAILED, set_handle w (-1))
  else
    match mmap_result os with
    | None => (MAPPING_FAILED, set_base_ptr (set_handle w (-1)) nullptr)
    | Some content =>
        (OK, set_shm (set_base_ptr w mapping_base) {| bytes := content; written := [] |})
    end.

Definition platform_close (w : SharedMemoryWriter) : SharedMemoryWriter :=
  let w := match base_ptr_ w with
           | nullptr => w
           | mapping_base => set_base_ptr w nullptr
           end in
  if handle_ w =? -1 then w else set_handle w (-1).

(** [SharedMemoryWriter::SharedMemoryWriter()]. *)
Definition new_writer : SharedMemoryWriter :=
  {| name_ := EmptyString; size_ := 0; handle_ := -1;
     base_ptr_ := nullptr; region_ := nullptr;
     next_data_offset_ := DATA_SECTIONS_OFFSET;
     shm := {| bytes := ∅; written := [] |} |}.

Definition Close (w : SharedMemoryWriter) : SharedMemoryWriter :=
  let w := platform_close w in
  let w := set_name w EmptyString in
  let w := set_size w 0 in
  let w := set_region w nullptr in
  let w := set_base_ptr w nullptr in
  set_next_data_offset w DATA_SECTIONS_OFFSET.

(** [pid] is the value of [::getpid()], [now] of [GetTimestampMicros()]. *)
Definition initialize_region (pid now : Z) (w : SharedMemoryWriter) : SharedMemoryWriter :=
  let w := set_region w (base_ptr_ w) in
  let w := store_u32 w (HEADER_OFFSET + Header.magic) MAGIC in
  let w := store_u32 w (HEADER_OFFSET + Header.version) VERSION in
  let w := store_u32 w (HEADER_OFFSET + Header.writer_pid) pid in
  let w := store_u32 w (HEADER_OFFSET + Header.reader_pid) 0 in
  let w := store_u64 w last_update_addr now in
  let w := store_u64 w sequence_addr 0 in
  let w := store_u32 w symbol_count_addr 0 in
  let w := store_u32 w (HEADER_OFFSET + Header.flags) 0 in
  let w := store_u32 w (HEADER_OFFSET + Header.crc32) 0 in
  let w := store_u32 w count_addr 0 in
  let w := memset w (SYMBOL_INDEX_OFFSET + SymbolIndex.entries) 0
                  (SymbolIndexEntry.sizeof * MAX_SYMBOLS) in
  set_next_data_offset w DATA_SECTIONS_OFFSET.

(** [SharedMemoryWriter::Create]. *)
Definition Create (os : os_calls) (pid now : Z) (name : string) (size : Z)
    (w : SharedMemoryWriter) : WriterError * SharedMemoryWriter :=
  if String.eqb name EmptyString then (INVALID_NAME, w)
  else if (size <? 4352) || (1024 * 1024 * 1024 <? size) then (INVALID_SIZE, w)
  else
    let w := if IsInitialized w then Close w else w in
    let w := set_name w name in
    let w := set_size w size in
    match platform_create os name size w with
    | (OK, w) => (OK, initialize_region pid now w)
    | (err, w) => (err, w)
    end.

(** ** The rest of [shm_protocol.h]: what a reader of the region calls *)

Definition header_magic (w : SharedMemoryWriter) : Z :=
  load_u32 w (HEADER_OFFSET + Header.magic).
Definition header_version (w : SharedMemoryWriter) : Z :=
  load_u32 w (HEADER_OFFSET + Header.version).
Definition header_writer_pid (w : SharedMemoryWriter) : Z :=
  load_u32 w (HEADER_OFFSET + Header.writer_pid).
Definition header_reader_pid (w : SharedMemoryWriter) : Z :=
  load_u32 w (HEADER_OFFSET + Header.reader_pid).
Definition header_flags (w : SharedMemoryWriter) : Z :=
  load_u32 w (HEADER_OFFSET + Header.flags).
Definition header_crc32 (w : SharedMemoryWriter) : Z :=
  load_u32 w (HEADER_OFFSET + Header.crc32).

(** [Header::IsValid] (and [SharedMemoryRegion::IsValid], which calls it). *)
Definition Header_IsValid (w : SharedMemoryWriter) : bool :=
  (header_magic w =? MAGIC) && (header_version w =? VERSION).

(** [Header::IsWriting]. *)
Definition Header_IsWriting (w : SharedMemoryWriter) : bool :=
  negb (Z.land (header_sequence w) 1 =? 0).


Definition block_start_timestamp (w : SharedMemoryWriter) (block : Z) : Z :=
  load_u64 w (block + OHLCVDataBlock.start_timestamp).
Definition block_end_timestamp (w : SharedMemoryWriter) (block : Z) : Z :=
  load_u64 w (block + OHLCVDataBlock.end_timestamp).

(** [block->candles[i]], read field by field. *)
Definition load_candle (w : SharedMemoryWriter) (block i : Z) : CandleData :=
  let src := block + OHLCVDataBlock.candles + i * Candle.sizeof in
  {| timestamp := load_u64 w (src + Candle.timestamp);
     open := load_u64 w (src + Candle.open);
     high := load_u64 w (src + Candle.high);
     low := load_u64 w (src + Candle.low);
     close := load_u64 w (src + Candle.close);
     volume := load_u64 w (src + Candle.volume) |}.

(** [OHLCVDataBlock::TotalSize]. *)
Definition TotalSize (w : SharedMemoryWriter) (block : Z) : Z :=
  uint64 (OHLCVDataBlock.sizeof + block_count w block * Candle.sizeof).

(** [SharedMemoryRegion::GetDataBlock]: the offset of the block of
    [symbol], or [None] for [nullptr]. *)
Definition GetDataBlock (w : SharedMemoryWriter) (symbol : string) : option Z :=
  match Find w symbol with
  | None => None
  | Some entry =>
      if entry_data_offset w entry =? 0 then None
      else Some (entry_data_offset w entry)
  end.

(** [SharedMemoryWriter::GetName] and [SharedMemoryWriter::GetSize]. *)
Definition GetName (w : SharedMemoryWriter) : string := name_ w.
Definition GetSize (w : SharedMemoryWriter) : Z := size_ w.

(** [CalculateCRC32]: the reflected CRC-32 with polynomial 0xEDB88320,
    bit by bit. [crc] is a [uint32_t], so that [-(crc & 1)] is 0 or
    0xFFFFFFFF; [data] is the list of the bytes read. *)
Definition CRC32_POLYNOMIAL : Z := 3988292384.

Definition crc_bit (crc : Z) : Z :=
  Z.lxor (Z.shiftr crc 1) (Z.land CRC32_POLYNOMIAL (uint32 (- Z.land crc 1))).

Definition crc_byte (crc byte : Z) : Z := Nat.iter 8 crc_bit (Z.lxor crc byte).

Definition CalculateCRC32 (data : list Z) : Z :=
  uint32 (Z.lnot (fold_left crc_byte data 4294967295)).

(** * Invariants, transaction paths, runs and scenarios

    The vocabulary of the verification: what the stored names are, the
    invariant of an initialized writer, the states the paths of a write
    transaction leave, reachability, and the concrete regions the
    statements are evaluated on. *)

(** The name as the index keeps it: the characters before the first NUL,
    at most [n] of them. *)
Fixpoint truncate_name (n : nat) (s : string) : string :=
  match n with
  | O => EmptyString
  | S k =>
      match s with
      | EmptyString => EmptyString
      | String c r =>
          if char_code c =? 0 then EmptyString else String c (truncate_name k r)
      end
  end.

Definition stored_name (s : string) : string :=
  truncate_name (Z.to_nat (SYMBOL_NAME_SIZE - 1)) s.

(** A name that fits: at most [n] characters, none of them NUL. *)
Fixpoint plain_name (n : nat) (s : string) : bool :=
  match s with
  | EmptyString => true
  | String c r =>
      match n with
      | O => false
      | S k => negb (char_code c =? 0) && plain_name k r
      end
  end.

Definition same_object (w w' : SharedMemoryWriter) : Prop :=
  name_ w' = name_ w /\ size_ w' = size_ w /\ handle_ w' = handle_ w /\
  base_ptr_ w' = base_ptr_ w /\ region_ w' = region_ w /\
  next_data_offset_ w' = next_data_offset_ w.

(** Entry [i] of the directory: its name is NUL-terminated, and its block,
    when it has one, is not empty and lies in the data section below the
    allocation cursor. *)
Definition entry_ok (w : SharedMemoryWriter) (i : Z) : Prop :=
  peek w (entry_at i + 15) = 0 /\
  (entry_data_offset w (entry_at i) = 0 \/
   (DATA_SECTIONS_OFFSET <= entry_data_offset w (entry_at i) /\
    0 < entry_data_size w (entry_at i) /\
    entry_data_offset w (entry_at i) + entry_data_size w (entry_at i)
      <= next_data_offset_ w)).

Record index_ok (w : SharedMemoryWriter) : Prop := {
  ok_size : 4352 <= size_ w <= 2 ^ 30;
  ok_cursor :
    DATA_SECTIONS_OFFSET <= next_data_offset_ w <= Z.max (size_ w) DATA_SECTIONS_OFFSET;
  ok_count : index_count w <= MAX_SYMBOLS;
  ok_symbol_count : header_symbol_count w = index_count w;
  ok_entries : forall i, 0 <= i < MAX_SYMBOLS -> entry_ok w i
}.

(** The region is quiescent: no transaction is in flight. *)
Definition quiescent (w : SharedMemoryWriter) : Prop :=
  Z.even (header_sequence w) = true.

Definition consistent (w : SharedMemoryWriter) : Prop :=
  IsInitialized w = true -> index_ok w /\ quiescent w.

(** The bytes [index_ok] reads. *)
Definition index_byte (a : Z) : Prop :=
  32 <= a < 36 \/ 256 <= a < 260 \/
  exists i, 0 <= i < MAX_SYMBOLS /\ entry_at i + 15 <= a < entry_at i + 28.

(** The state [find_or_add_symbol] leaves when it appends an entry. *)
Definition appended (symbol : string) (w : SharedMemoryWriter) : SharedMemoryWriter :=
  let w1 := SetSymbol (store_u32 w count_addr (uint32 (index_count w + 1)))
                      (entry_at (index_count w)) symbol in
  store_u32 w1 symbol_count_addr (index_count w1).

(** The state after a successful allocation for [entry]: cursor advanced,
    block zeroed, entry repointed. *)
Definition allocated (entry required : Z) (w : SharedMemoryWriter) : SharedMemoryWriter :=
  let off := next_data_offset_ w in
  let w := memset (set_next_data_offset w (off + required)) off 0 required in
  let w := store_u64 w (entry + SymbolIndexEntry.data_offset) off in
  store_u32 w (entry + SymbolIndexEntry.data_size) required.

Definition is_entry (e : Z) : Prop := exists i, 0 <= i < MAX_SYMBOLS /\ e = entry_at i.

(** The state a successful [WriteCandles] leaves, from the state [w] in
    which the block at [off] was settled for [entry]. *)
Definition committed (clock : nat -> Z) (symbol interval : string)
    (candles : list CandleData) (entry off : Z) (w : SharedMemoryWriter)
  : SharedMemoryWriter :=
  let w := populate_block symbol interval candles off w in
  let w := store_u32 w (entry + SymbolIndexEntry.candle_count)
                     (uint32 (Z.of_nat (length candles))) in
  let w := store_u64 w (entry + SymbolIndexEntry.last_update_us) (clock 0%nat) in
  end_write (clock 1%nat) w.

(** How the index entry of a write is obtained. *)
Inductive resolved (symbol : string) (w : SharedMemoryWriter)
  : Z -> SharedMemoryWriter -> Prop :=
| resolved_found i :
    0 <= i < index_count w -> i < MAX_SYMBOLS ->
    Find w symbol = Some (entry_at i) ->
    resolved symbol w (entry_at i) w
| resolved_added :
    Find w symbol = None -> index_count w < MAX_SYMBOLS ->
    resolved symbol w (entry_at (index_count w)) (appended symbol w).

Definition needs_block (required entry : Z) (w : SharedMemoryWriter) : Prop :=
  entry_data_offset w entry = 0 \/ entry_data_size w entry < required.

(** The four ways through a transaction of [WriteCandles], from the state
    [w1] reached by [begin_write]. *)
Inductive transaction (clock : nat -> Z) (symbol interval : string)
    (candles : list CandleData) (w1 : SharedMemoryWriter)
  : WriterError -> SharedMemoryWriter -> Prop :=
| txn_symbol_limit :
    Find w1 symbol = None -> MAX_SYMBOLS <= index_count w1 ->
    transaction clock symbol interval candles w1
      SYMBOL_LIMIT_EXCEEDED (end_write (clock 0%nat) w1)
| txn_write_failed e w2 :
    resolved symbol w1 e w2 ->
    needs_block (RequiredSize (Z.of_nat (length candles))) e w2 ->
    size_ w2 < next_data_offset_ w2 + RequiredSize (Z.of_nat (length candles)) ->
    transaction clock symbol interval candles w1
      WRITE_FAILED (end_write (clock 0%nat) w2)
| txn_allocated e w2 :
    resolved symbol w1 e w2 ->
    needs_block (RequiredSize (Z.of_nat (length candles))) e w2 ->
    next_data_offset_ w2 + RequiredSize (Z.of_nat (length candles)) <= size_ w2 ->
    transaction clock symbol interval candles w1
      OK (committed clock symbol interval candles e (next_data_offset_ w2)
            (allocated e (RequiredSize (Z.of_nat (length candles))) w2))
| txn_reused e w2 :
    resolved symbol w1 e w2 ->
    entry_data_offset w2 e <> 0 ->
    RequiredSize (Z.of_nat (length candles)) <= entry_data_size w2 e ->
    transaction clock symbol interval candles w1
      OK (committed clock symbol interval candles e (entry_data_offset w2 e) w2).

(** The state in which [Create] calls [platform_create]. *)
Definition prepared (name : string) (size : Z) (w : SharedMemoryWriter) : SharedMemoryWriter :=
  set_size (set_name (if IsInitialized w then Close w else w) name) size.

(** The states a writer object goes through: constructed, then any
    sequence of calls of its public methods ([GetStats] and
    [IsInitialized] are [const]). *)
Inductive reachable : SharedMemoryWriter -> Prop :=
| reach_new : reachable new_writer
| reach_Create os pid now name size w :
    reachable w -> reachable (snd (Create os pid now name size w))
| reach_Close w :
    reachable w -> reachable (Close w)
| reach_WriteCandles clock symbol interval candles w :
    reachable w -> reachable (snd (WriteCandles clock symbol interval candles w)).

Record write_call := {
  call_clock : nat -> Z;
  call_symbol : string;
  call_interval : string;
  call_candles : list CandleData
}.

Fixpoint run (calls : list write_call) (w : SharedMemoryWriter)
  : list WriterError * SharedMemoryWriter :=
  match calls with
  | [] => ([], w)
  | c :: rest =>
      let rw := WriteCandles (call_clock c) (call_symbol c) (call_interval c)
                             (call_candles c) w in
      let rest' := run rest (snd rw) in
      (fst rw :: fst rest', snd rest')
  end.

(** The calls that carry at least one candle. *)
Definition writing_calls (calls : list write_call) : Z :=
  Z.of_nat (length (List.filter (fun c => negb (Z.of_nat (length (call_candles c)) =? 0)) calls)).

(** The operating system grants every call and hands out a zeroed object. *)
Definition os_fresh : os_calls :=
  {| shm_open_result := 3; ftruncate_result := 0; mmap_result := Some ∅ |}.

Definition tick (k : nat) : Z := 1700000000000000 + Z.of_nat k.

Definition candle_at (t : Z) : CandleData :=
  {| timestamp := t; open := 1; high := 2; low := 3; close := 4; volume := 5 |}.

Definition candles_upto (n : Z) : list CandleData := map candle_at (seqZ 0 n).

(** [create("test", 1 << 20)] on a new writer. *)
Definition created : SharedMemoryWriter :=
  snd (Create os_fresh 4242 (tick 0) "test" (2 ^ 20) new_writer).

(** A region whose directory is full: 256 distinct two-letter symbols. *)
Definition symbol_no (k : nat) : string :=
  String (ascii_of_nat (65 + k / 16))
         (String (ascii_of_nat (65 + k mod 16)) EmptyString).

Definition filling_calls : list write_call :=
  map (fun k => {| call_clock := tick; call_symbol := symbol_no k;
                   call_interval := "1m"; call_candles := candles_upto 1 |})
      (seq 0 256).

Definition full_index : SharedMemoryWriter := snd (run filling_calls created).

(** A region with room for the index and 360 bytes of data. *)
Definition cramped : SharedMemoryWriter :=
  snd (Create os_fresh 4242 (tick 0) "tiny" 17000 new_writer).

(** Every store made through the mapping fell inside the first [size_]
    bytes. *)
Definition in_bounds (w : SharedMemoryWriter) : Prop :=
  Forall (fun r => 0 <= fst r /\ fst r + snd r <= size_ w) (written (shm w)).

(** [create("test", 4352)]: the smallest size [Create] accepts. *)
Definition minimal : SharedMemoryWriter :=
  snd (Create os_fresh 4242 (tick 0) "test" 4352 new_writer).

(** A 16-byte symbol. *)
Definition long_symbol : string := "ABCDEFGHIJKLMNOP".

Definition long_once : SharedMemoryWriter :=
  snd (WriteCandles tick long_symbol "1h" (candles_upto 5) created).
Definition long_twice : SharedMemoryWriter :=
  snd (WriteCandles tick long_symbol "1h" (candles_upto 5) long_once).

Definition long_fifty : SharedMemoryWriter :=
  snd (WriteCandles tick long_symbol "1h" (candles_upto 50) created).
Definition long_fifty_ten : SharedMemoryWriter :=
  snd (WriteCandles tick long_symbol "1h" (candles_upto 10) long_fifty).

(** A candle as 48 bytes hold it: every field is 64 bits wide. *)
Definition wrap_candle (c : CandleData) : CandleData :=
  {| timestamp := uint64 (timestamp c); open := uint64 (open c);
     high := uint64 (high c); low := uint64 (low c);
     close := uint64 (close c); volume := uint64 (volume c) |}.

(** What a committed write of [candles] leaves in the entry [e] and in the
    block at [off]. *)
Record block_written (clock : nat -> Z) (symbol interval : string)
    (candles : list CandleData) (w' : SharedMemoryWriter) (e off : Z) : Prop := {
  bw_candle_count : entry_candle_count w' e = Z.of_nat (length candles);
  bw_last_update : entry_last_update_us w' e = uint64 (clock 0%nat);
  bw_count : block_count w' off = Z.of_nat (length candles);
  bw_capacity : block_capacity w' off = Z.of_nat (length candles);
  bw_symbol : GetSymbol w' off = stored_name symbol;
  bw_interval : GetInterval w' off = truncate_name 7 interval;
  bw_start : block_start_timestamp w' off = uint64 (timestamp (hd no_candle candles));
  bw_end : block_end_timestamp w' off
           = uint64 (timestamp (List.last candles no_candle));
  bw_candles : forall i, (i < length candles)%nat ->
      load_candle w' off (Z.of_nat i) = wrap_candle (nth i candles no_candle)
}.

(** How a write obtained entry [k]: it was there and keeps its name, or
    it was appended at the end of the directory. *)
Definition entry_effect (symbol : string) (w w' : SharedMemoryWriter) (k : Z) : Prop :=
  (Find w symbol = Some (entry_at k) /\ k < index_count w /\
   index_count w' = index_count w /\
   header_symbol_count w' = header_symbol_count w /\
   forall a, entry_at k <= a < entry_at k + 16 -> peek w' a = peek w a)
  \/
  (Find w symbol = None /\ k = index_count w /\
   index_count w' = index_count w + 1 /\
   header_symbol_count w' = index_count w + 1 /\
   GetSymbol w' (entry_at k) = stored_name symbol /\
   peek w' (entry_at k + 15) = 0).

(** The bytes a write for entry [k] with data range [lo, hi) leaves as
    they were: all but the timestamp, sequence and symbol count of the
    header, the index count, entry [k] and the data range. *)
Definition frame_except (w w' : SharedMemoryWriter) (k lo hi : Z) : Prop :=
  forall a, (a < 16 \/ 36 <= a) -> (a < 256 \/ 260 <= a) ->
            (a < entry_at k \/ entry_at k + 40 <= a) ->
            (a < lo \/ hi <= a) ->
            peek w' a = peek w a.

(** The effect of a call of [WriteCandles] that opens a transaction, path
    by path, as seen from outside: from the state [w] before the call to
    the state [w'] after it. *)
Inductive write_effect (clock : nat -> Z) (symbol interval : string)
    (candles : list CandleData) (w w' : SharedMemoryWriter)
  : WriterError -> Prop :=
| eff_symbol_limit :
    Find w symbol = None -> MAX_SYMBOLS <= index_count w ->
    w' = end_write (clock 0%nat) (begin_write w) ->
    write_effect clock symbol interval candles w w' SYMBOL_LIMIT_EXCEEDED
| eff_write_failed k :
    0 <= k < MAX_SYMBOLS -> entry_effect symbol w w' k ->
    needs_block (RequiredSize (Z.of_nat (length candles))) (entry_at k) w ->
    size_ w < next_data_offset_ w + RequiredSize (Z.of_nat (length candles)) ->
    next_data_offset_ w' = next_data_offset_ w ->
    (forall a, entry_at k + 16 <= a < entry_at k + 40 -> peek w' a = peek w a) ->
    frame_except w w' k 0 0 ->
    write_effect clock symbol interval candles w w' WRITE_FAILED
| eff_allocated k :
    0 <= k < MAX_SYMBOLS -> entry_effect symbol w w' k ->
    needs_block (RequiredSize (Z.of_nat (length candles))) (entry_at k) w ->
    next_data_offset_ w + RequiredSize (Z.of_nat (length candles)) <= size_ w ->
    next_data_offset_ w'
      = next_data_offset_ w + RequiredSize (Z.of_nat (length candles)) ->
    entry_data_offset w' (entry_at k) = next_data_offset_ w ->
    entry_data_size w' (entry_at k) = RequiredSize (Z.of_nat (length candles)) ->
    block_written clock symbol interval candles w' (entry_at k) (next_data_offset_ w) ->
    frame_except w w' k (next_data_offset_ w)
      (next_data_offset_ w + RequiredSize (Z.of_nat (length candles))) ->
    write_effect clock symbol interval candles w w' OK
| eff_reused k :
    0 <= k < MAX_SYMBOLS -> entry_effect symbol w w' k ->
    entry_data_offset w (entry_at k) <> 0 ->
    RequiredSize (Z.of_nat (length candles)) <= entry_data_size w (entry_at k) ->
    next_data_offset_ w' = next_data_offset_ w ->
    entry_data_offset w' (entry_at k) = entry_data_offset w (entry_at k) ->
    entry_data_size w' (entry_at k) = entry_data_size w (entry_at k) ->
    block_written clock symbol interval candles w' (entry_at k)
      (entry_data_offset w (entry_at k)) ->
    frame_except w w' k (entry_data_offset w (entry_at k))
      (entry_data_offset w (entry_at k) + RequiredSize (Z.of_nat (length candles))) ->
    write_effect clock symbol interval candles w w' OK.

(** The identity fields of the header are those [initialize_region]
    wrote: the region is valid, no reader is registered, the flags and the
    checksum are zero. *)
Definition header_sound (w : SharedMemoryWriter) : Prop :=
  Header_IsValid w = true /\ header_reader_pid w = 0 /\
  header_flags w = 0 /\ header_crc32 w = 0.

(** The entries behind the index count are as [initialize_region] left
    them. *)
Definition unused_clear (w : SharedMemoryWriter) : Prop :=
  forall i a, index_count w <= i < MAX_SYMBOLS ->
              entry_at i <= a < entry_at i + 40 -> peek w a = 0.

(** The blocks of two entries do not overlap. *)
Definition blocks_disjoint (w : SharedMemoryWriter) : Prop :=
  forall i j, 0 <= i < MAX_SYMBOLS -> 0 <= j < MAX_SYMBOLS -> i <> j ->
    entry_data_offset w (entry_at i) <> 0 ->
    entry_data_offset w (entry_at j) <> 0 ->
    entry_data_offset w (entry_at i) + entry_data_size w (entry_at i)
      <= entry_data_offset w (entry_at j) \/
    entry_data_offset w (entry_at j) + entry_data_size w (entry_at j)
      <= entry_data_offset w (entry_at i).

(** Entry [i] and its block tell the same story: without a block the
    entry counts no candles; with one, the block holds the entry's number
    of candles (between 1 and 100,000), carries the entry's name, and with
    its candles fits in the size the entry records. *)
Definition entry_agrees (w : SharedMemoryWriter) (i : Z) : Prop :=
  let e := entry_at i in
  let b := entry_data_offset w e in
  (b = 0 -> entry_candle_count w e = 0) /\
  (b <> 0 ->
     block_count w b = entry_candle_count w e /\
     block_capacity w b = entry_candle_count w e /\
     0 < entry_candle_count w e <= MAX_CANDLES_PER_SYMBOL /\
     TotalSize w b <= entry_data_size w e /\
     GetSymbol w b = GetSymbol w e).

Record region_sound (w : SharedMemoryWriter) : Prop := {
  sound_header : header_sound w;
  sound_unused : unused_clear w;
  sound_disjoint : blocks_disjoint w;
  sound_agree : forall i, 0 <= i < MAX_SYMBOLS -> entry_agrees w i
}.

(** The fields of the object a write never assigns. *)
Definition same_mapping (w w' : SharedMemoryWriter) : Prop :=
  name_ w' = name_ w /\ size_ w' = size_ w /\ handle_ w' = handle_ w /\
  base_ptr_ w' = base_ptr_ w /\ region_ w' = region_ w.

(** The resources an object holds go together: it has a region exactly
    when it has a mapping and an open handle. *)
Definition paired (w : SharedMemoryWriter) : Prop :=
  region_ w = base_ptr_ w /\
  (IsInitialized w = true -> handle_ w <> -1 /\ name_ w <> EmptyString) /\
  (IsInitialized w = false ->
     handle_ w = -1 /\ base_ptr_ w = nullptr /\
     next_data_offset_ w = DATA_SECTIONS_OFFSET).

(** The candles the first [m] entries count, without the wrap-around of
    the accumulator of [GetStats]. *)
Fixpoint candle_sum (f : Z -> Z) (m : nat) : Z :=
  match m with
  | O => 0
  | S k => candle_sum f k + f (Z.of_nat k)
  end.

(** The candles the entry of [symbol] counts, 0 when the symbol has no
    entry. *)
Definition candles_of (w : SharedMemoryWriter) (symbol : string) : Z :=
  match Find w symbol with
  | Some e => entry_candle_count w e
  | None => 0
  end.

(** From [w] to [w'] the mapping was only stored to at offsets from 32
    on: neither the sequence number nor the timestamp of the header was
    touched. *)
Definition payload_stores (w w' : SharedMemoryWriter) : Prop :=
  exists l, written (shm w') = l ++ written (shm w) /\
            Forall (fun r => Header.symbol_count <= fst r) l.

(** One step of the checksum as the definition of CRC-32 has it: shift
    right, and add the polynomial when the bit shifted out is 1. *)
Definition crc_bit_textbook (crc : Z) : Z :=
  if Z.odd crc then Z.lxor (crc / 2) CRC32_POLYNOMIAL else crc / 2.

Definition is_byte (b : Z) : Prop := 0 <= b < 256.

(** The region [created] after one write of five candles for "BTCUSDT". *)
Definition btc_written : SharedMemoryWriter :=
  snd (WriteCandles tick "BTCUSDT" "1h" (candles_upto 5) created).

(** The operating system refuses [mmap]. *)
Definition os_refusing : os_calls :=
  {| shm_open_result := 3; ftruncate_result := 0; mmap_result := None |}.

(** The region [btc_written] after a write of three candles for "ETHUSDT". *)
Definition eth_written : SharedMemoryWriter :=
  snd (WriteCandles tick "ETHUSDT" "1h" (candles_upto 3) btc_written).

(** * Verification *)

(** ** Fixed-width little-endian integers *)

Lemma encode_le_length n v : length (encode_le n v) = n.
Proof. revert v; induction n as [|n IH]; intros v; simpl; [reflexivity | now rewrite IH]. Qed.

Lemma encode_le_byte n : forall v j, 0 <= nth j (encode_le n v) 0 < 256.
Proof.
  induction n as [|n IH]; intros v j; simpl.
  - destruct j; lia.
  - destruct j as [|j]; [apply Z.mod_pos_bound; lia | apply IH].
Qed.

Lemma decode_encode_le n : forall v, decode_le (encode_le n v) = v mod 256 ^ Z.of_nat n.
Proof.
  induction n as [|n IH]; intros v.
  - simpl. now rewrite Z.mod_1_r.
  - cbn [encode_le decode_le]. rewrite IH.
    rewrite Nat2Z.inj_succ, Z.pow_succ_r by lia.
    rewrite Z.rem_mul_r by lia. lia.
Qed.

Lemma decode_le_bound bs :
  Forall (fun b => 0 <= b < 256) bs -> 0 <= decode_le bs < 256 ^ Z.of_nat (length bs).
Proof.
  induction 1 as [|b r Hb _ IH].
  - simpl. lia.
  - cbn [decode_le length]. rewrite Nat2Z.inj_succ, Z.pow_succ_r by lia. lia.
Qed.

Lemma uint64_range x : 0 <= uint64 x < 2 ^ 64.
Proof. apply Z.mod_pos_bound. lia. Qed.

Lemma uint32_range x : 0 <= uint32 x < 2 ^ 32.
Proof. apply Z.mod_pos_bound. lia. Qed.

Lemma uint64_small x : 0 <= x < 2 ^ 64 -> uint64 x = x.
Proof. apply Z.mod_small. Qed.

Lemma uint32_small x : 0 <= x < 2 ^ 32 -> uint32 x = x.
Proof. apply Z.mod_small. Qed.

(** ** The byte store *)

Lemma store_bytes_lookup bs : forall (m : gmap Z Z) a i,
  store_bytes m a bs !! i =
    if decide (a <= i < a + Z.of_nat (length bs))
    then bs !! Z.to_nat (i - a) else m !! i.
Proof.
  induction bs as [|b bs IH]; intros m a i; cbn [store_bytes length].
  - case_decide; [lia | reflexivity].
  - rewrite IH. repeat case_decide; try lia.
    + replace (Z.to_nat (i - a)) with (S (Z.to_nat (i - (a + 1)))) by lia.
      reflexivity.
    + assert (i = a) as -> by lia.
      rewrite lookup_insert_eq, Z.sub_diag. reflexivity.
    + apply lookup_insert_ne. lia.
Qed.

Lemma peek_range w a : 0 <= peek w a < 256.
Proof. apply Z.mod_pos_bound. lia. Qed.

Lemma peek_poke_ne w a bs i :
  i < a \/ a + Z.of_nat (length bs) <= i -> peek (poke w a bs) i = peek w i.
Proof.
  intros H. unfold peek, poke; simpl. rewrite store_bytes_lookup.
  case_decide; [lia | reflexivity].
Qed.

Lemma peek_poke_in w a bs i :
  a <= i < a + Z.of_nat (length bs) ->
  peek (poke w a bs) i = nth (Z.to_nat (i - a)) bs 0 mod 256.
Proof.
  intros H. unfold peek, poke; simpl. rewrite store_bytes_lookup.
  case_decide; [| lia].
  destruct (bs !! Z.to_nat (i - a)) as [b|] eqn:E.
  - now rewrite (nth_lookup_Some _ _ _ _ E).
  - apply lookup_ge_None in E. lia.
Qed.

Lemma load_bytes_length n : forall w a, length (load_bytes n w a) = n.
Proof. induction n as [|n IH]; intros; simpl; [reflexivity | now rewrite IH]. Qed.

Lemma load_bytes_byte n : forall w a, Forall (fun b => 0 <= b < 256) (load_bytes n w a).
Proof.
  induction n as [|n IH]; intros; simpl; constructor; [apply peek_range | apply IH].
Qed.

Lemma load_bytes_spec n : forall w a l,
  length l = n ->
  (forall j, 0 <= j < Z.of_nat n -> peek w (a + j) = nth (Z.to_nat j) l 0) ->
  load_bytes n w a = l.
Proof.
  induction n as [|n IH]; intros w a l Hlen H.
  - destruct l; [reflexivity | discriminate].
  - destruct l as [|b l]; [discriminate|]. cbn [load_bytes]. f_equal.
    + specialize (H 0). rewrite Z.add_0_r in H. apply H. lia.
    + apply IH; [simpl in Hlen; lia|].
      intros j Hj. specialize (H (j + 1)).
      replace (a + (j + 1)) with (a + 1 + j) in H by lia.
      rewrite H by lia.
      replace (Z.to_nat (j + 1)) with (S (Z.to_nat j)) by lia. reflexivity.
Qed.

Lemma load_bytes_ext n : forall w w' a,
  (forall i, a <= i < a + Z.of_nat n -> peek w' i = peek w i) ->
  load_bytes n w' a = load_bytes n w a.
Proof.
  induction n as [|n IH]; intros w w' a H; cbn [load_bytes]; [reflexivity|].
  f_equal; [apply H; lia | apply IH; intros; apply H; lia].
Qed.

Lemma load_le_ext n w w' a :
  (forall i, a <= i < a + Z.of_nat n -> peek w' i = peek w i) ->
  load_le n w' a = load_le n w a.
Proof. intros H. unfold load_le. now rewrite (load_bytes_ext n w w' a H). Qed.

Lemma load_le_range n w a : 0 <= load_le n w a < 256 ^ Z.of_nat n.
Proof.
  unfold load_le.
  pose proof (decode_le_bound _ (load_bytes_byte n w a)) as H.
  now rewrite load_bytes_length in H.
Qed.

Lemma load_le_poke_ne n w a bs b :
  b + Z.of_nat n <= a \/ a + Z.of_nat (length bs) <= b ->
  load_le n (poke w a bs) b = load_le n w b.
Proof. intros H. apply load_le_ext. intros i Hi. apply peek_poke_ne. lia. Qed.

Lemma load_le_store_le n w a v :
  load_le n (store_le n w a v) a = v mod 256 ^ Z.of_nat n.
Proof.
  unfold load_le, store_le.
  rewrite (load_bytes_spec n _ a (encode_le n v)).
  - apply decode_encode_le.
  - apply encode_le_length.
  - intros j Hj. rewrite peek_poke_in by (rewrite encode_le_length; lia).
    replace (a + j - a) with j by lia.
    apply Z.mod_small, encode_le_byte.
Qed.

Lemma load_le_store_le_ne n m w a v b :
  b + Z.of_nat n <= a \/ a + Z.of_nat m <= b ->
  load_le n (store_le m w a v) b = load_le n w b.
Proof.
  intros H. unfold store_le. apply load_le_poke_ne. rewrite encode_le_length. lia.
Qed.

Lemma peek_store_le_ne m w a v i :
  i < a \/ a + Z.of_nat m <= i -> peek (store_le m w a v) i = peek w i.
Proof. intros H. unfold store_le. apply peek_poke_ne. rewrite encode_le_length. lia. Qed.

Lemma peek_memset_ne w a c n i :
  i < a \/ a + Z.max 0 n <= i -> peek (memset w a c n) i = peek w i.
Proof.
  intros H. unfold memset. apply peek_poke_ne. rewrite length_replicate. lia.
Qed.

Lemma peek_memset_in w a c n i :
  a <= i < a + n -> peek (memset w a c n) i = c mod 256.
Proof.
  intros H. unfold memset. rewrite peek_poke_in by (rewrite length_replicate; lia).
  rewrite (nth_lookup_Some _ _ _ c); [reflexivity|].
  apply lookup_replicate_2. lia.
Qed.

(** ** Names: what [SetSymbol] stores and what [GetSymbol] reads back *)

Lemma char_code_range c : 0 <= char_code c < 256.
Proof. unfold char_code. pose proof (N_ascii_bounded c). lia. Qed.

Lemma code_char_code c : code_char (char_code c) = c.
Proof. unfold code_char, char_code. rewrite N2Z.id. apply ascii_N_embedding. Qed.

Lemma char_code_char b : 0 <= b < 256 -> char_code (code_char b) = b.
Proof.
  intros H. unfold code_char, char_code.
  rewrite N_ascii_embedding by lia. lia.
Qed.

Lemma strncpy_bytes_length n : forall s, length (strncpy_bytes n s) = n.
Proof.
  induction n as [|n IH]; intros s; [reflexivity|].
  destruct s as [|c r]; cbn [strncpy_bytes].
  - simpl. now rewrite IH.
  - destruct (char_code c =? 0); simpl; now rewrite IH.
Qed.

Lemma strncpy_bytes_byte n : forall s, Forall (fun b => 0 <= b < 256) (strncpy_bytes n s).
Proof.
  induction n as [|n IH]; intros s; [constructor|].
  destruct s as [|c r]; cbn [strncpy_bytes].
  - constructor; [lia | apply IH].
  - destruct (char_code c =? 0); constructor;
      solve [lia | apply IH | apply char_code_range].
Qed.

Lemma string_of_array_strncpy n : forall s,
  string_of_array (strncpy_bytes n s ++ [0]) = truncate_name n s.
Proof.
  induction n as [|n IH]; intros s; [reflexivity|].
  destruct s as [|c r]; cbn [strncpy_bytes truncate_name]; [reflexivity|].
  destruct (char_code c =? 0) eqn:E; cbn [app string_of_array]; [reflexivity|].
  rewrite E, code_char_code, IH. reflexivity.
Qed.

Lemma string_of_array_snoc0 l : string_of_array (l ++ [0]) = string_of_array l.
Proof.
  induction l as [|b l IH]; [reflexivity|].
  cbn [app string_of_array]. now rewrite IH.
Qed.

Lemma truncate_string_of_array l :
  Forall (fun b => 0 <= b < 256) l ->
  truncate_name (length l) (string_of_array l) = string_of_array l.
Proof.
  induction 1 as [|b l Hb _ IH]; [reflexivity|].
  cbn [length string_of_array].
  destruct (b =? 0) eqn:E; [reflexivity|].
  cbn [truncate_name]. rewrite char_code_char, E, IH by exact Hb. reflexivity.
Qed.

Lemma truncate_plain n : forall s, plain_name n s = true -> truncate_name n s = s.
Proof.
  induction n as [|n IH]; intros [|c r] H; simpl in *; try reflexivity; try discriminate.
  apply andb_true_iff in H as [H1 H2].
  destruct (char_code c =? 0); [discriminate|]. now rewrite IH.
Qed.

Lemma plain_truncate n : forall s, truncate_name n s = s -> plain_name n s = true.
Proof.
  induction n as [|n IH]; intros [|c r] H; simpl in *; try reflexivity; try discriminate.
  destruct (char_code c =? 0); [discriminate|].
  injection H as H. now rewrite IH.
Qed.

Lemma truncate_truncate n : forall s, truncate_name n (truncate_name n s) = truncate_name n s.
Proof.
  induction n as [|n IH]; intros [|c r]; simpl; try reflexivity.
  destruct (char_code c =? 0) eqn:E; [reflexivity|].
  simpl. now rewrite E, IH.
Qed.

Lemma truncate_length n : forall s, (String.length (truncate_name n s) <= n)%nat.
Proof.
  induction n as [|n IH]; intros [|c r]; cbn [truncate_name String.length]; try lia.
  destruct (char_code c =? 0); cbn [String.length]; [lia|]. specialize (IH r). lia.
Qed.

Lemma load_bytes_snoc n : forall w a,
  load_bytes (S n) w a = load_bytes n w a ++ [peek w (a + Z.of_nat n)].
Proof.
  induction n as [|n IH]; intros w a.
  - simpl. now rewrite Z.add_0_r.
  - change (load_bytes (S (S n)) w a) with (peek w a :: load_bytes (S n) w (a + 1)).
    rewrite IH. cbn [load_bytes app]. do 2 f_equal.
    replace (a + 1 + Z.of_nat n) with (a + Z.of_nat (S n)) by lia. reflexivity.
Qed.

(** ** Frame properties of the operations

    Which bytes of the mapping an operation may change, and that no
    operation on the mapping changes the fields of the writer object. *)

Ltac layout :=
  unfold entry_at, sequence_addr, last_update_addr, symbol_count_addr, count_addr,
    HEADER_OFFSET, SYMBOL_INDEX_OFFSET, DATA_SECTIONS_OFFSET, MAX_SYMBOLS,
    MAX_CANDLES_PER_SYMBOL, SYMBOL_NAME_SIZE, INTERVAL_SIZE,
    Header.magic, Header.version, Header.writer_pid, Header.reader_pid,
    Header.last_update_us, Header.sequence, Header.symbol_count, Header.flags,
    Header.crc32,
    SymbolIndex.count, SymbolIndex.entries,
    SymbolIndexEntry.symbol, SymbolIndexEntry.data_offset, SymbolIndexEntry.data_size,
    SymbolIndexEntry.candle_count, SymbolIndexEntry.last_update_us,
    SymbolIndexEntry.sizeof,
    OHLCVDataBlock.symbol, OHLCVDataBlock.interval, OHLCVDataBlock.count,
    OHLCVDataBlock.capacity, OHLCVDataBlock.start_timestamp,
    OHLCVDataBlock.end_timestamp, OHLCVDataBlock.candles, OHLCVDataBlock.sizeof,
    Candle.timestamp, Candle.open, Candle.high, Candle.low, Candle.close,
    Candle.volume, Candle.sizeof in *.

Ltac addr := layout; lia.

Lemma peek_set_next_data_offset w o i : peek (set_next_data_offset w o) i = peek w i.
Proof. reflexivity. Qed.

Lemma peek_SetSymbol_ne w obj s i :
  i < obj \/ obj + 16 <= i -> peek (SetSymbol w obj s) i = peek w i.
Proof.
  intros H. unfold SetSymbol.
  rewrite !peek_poke_ne; [reflexivity | | ];
    rewrite ?strncpy_bytes_length; cbn [length]; addr.
Qed.

Lemma peek_SetInterval_ne w block s i :
  i < block + 16 \/ block + 24 <= i -> peek (SetInterval w block s) i = peek w i.
Proof.
  intros H. unfold SetInterval.
  rewrite !peek_poke_ne; [reflexivity | | ];
    rewrite ?strncpy_bytes_length; cbn [length]; addr.
Qed.

Lemma peek_copy_candles_ne cs : forall w block k i,
  i < block + 56 + 48 * k \/ block + 56 + 48 * (k + Z.of_nat (length cs)) <= i ->
  peek (copy_candles w block k cs) i = peek w i.
Proof.
  induction cs as [|c cs IH]; intros w block k i H; cbn [copy_candles]; [reflexivity|].
  rewrite IH by (cbn [length] in H; lia).
  cbn [length] in H.
  rewrite !peek_store_le_ne by addr. reflexivity.
Qed.

Lemma peek_begin_write_ne w i : i < 24 \/ 32 <= i -> peek (begin_write w) i = peek w i.
Proof. intros H. unfold begin_write. apply peek_store_le_ne. addr. Qed.

Lemma peek_end_write_ne now w i : i < 16 \/ 32 <= i -> peek (end_write now w) i = peek w i.
Proof. intros H. unfold end_write. rewrite !peek_store_le_ne by addr. reflexivity. Qed.

Lemma peek_populate_block_ne symbol interval candles off w i :
  i < off \/ off + 56 + 48 * Z.of_nat (length candles) <= i ->
  peek (populate_block symbol interval candles off w) i = peek w i.
Proof.
  intros H. unfold populate_block.
  rewrite peek_copy_candles_ne by lia.
  rewrite !peek_store_le_ne by addr.
  rewrite peek_SetInterval_ne by lia.
  rewrite peek_SetSymbol_ne by lia.
  reflexivity.
Qed.

(** The operations on the mapping leave the fields of the writer alone. *)

Lemma same_object_refl w : same_object w w.
Proof. repeat split. Qed.

Lemma same_object_trans w1 w2 w3 :
  same_object w1 w2 -> same_object w2 w3 -> same_object w1 w3.
Proof. unfold same_object. intuition congruence. Qed.

Lemma same_object_poke w a bs : same_object w (poke w a bs).
Proof. repeat split. Qed.

Lemma same_object_store_le n w a v : same_object w (store_le n w a v).
Proof. repeat split. Qed.

Lemma same_object_memset w a c n : same_object w (memset w a c n).
Proof. repeat split. Qed.

Lemma same_object_SetSymbol w obj s : same_object w (SetSymbol w obj s).
Proof. repeat split. Qed.

Lemma same_object_SetInterval w obj s : same_object w (SetInterval w obj s).
Proof. repeat split. Qed.

Lemma same_object_begin_write w : same_object w (begin_write w).
Proof. repeat split. Qed.

Lemma same_object_end_write now w : same_object w (end_write now w).
Proof. repeat split. Qed.

Lemma same_object_copy_candles cs : forall w block k,
  same_object w (copy_candles w block k cs).
Proof.
  induction cs as [|c cs IH]; intros w block k; cbn [copy_candles].
  - apply same_object_refl.
  - eapply same_object_trans; [|apply IH]. repeat split.
Qed.

Lemma same_object_populate_block symbol interval candles off w :
  same_object w (populate_block symbol interval candles off w).
Proof.
  unfold populate_block.
  eapply same_object_trans; [|apply same_object_copy_candles].
  repeat split.
Qed.

(** ** Looking a symbol up *)

Lemma index_count_nonneg w : 0 <= index_count w.
Proof.
  unfold index_count, load_le.
  pose proof (decode_le_bound _ (load_bytes_byte 4 w count_addr)). lia.
Qed.

Lemma Find_Some w s e :
  Find w s = Some e ->
  exists i, 0 <= i < index_count w /\ i < MAX_SYMBOLS /\ e = entry_at i /\
            GetSymbol w (entry_at i) = s /\
            forall j, 0 <= j < i -> GetSymbol w (entry_at j) <> s.
Proof.
  unfold Find. intros H.
  destruct (List.find _ _) as [i|] eqn:E; [|discriminate].
  injection H as <-. exists i.
  assert (forall n, 0 <= n ->
    forall b, List.find (fun i => String.eqb (GetSymbol w (entry_at i)) s) (seqZ b n) = Some i ->
    b <= i < b + n /\ GetSymbol w (entry_at i) = s /\
    forall j, b <= j < i -> GetSymbol w (entry_at j) <> s) as G.
  { intros n Hn. pattern n. apply natlike_ind; [| |exact Hn].
    - intros b Hb. rewrite seqZ_nil in Hb by lia. discriminate.
    - clear. intros n Hn IH b Hb.
      rewrite seqZ_cons in Hb by lia. cbn [List.find] in Hb.
      destruct (String.eqb (GetSymbol w (entry_at b)) s) eqn:Eb.
      + injection Hb as <-. apply String.eqb_eq in Eb. repeat split; try lia. exact Eb.
      + replace (Z.pred (Z.succ n)) with n in Hb by lia.
        apply IH in Hb as (H1 & H2 & H3). repeat split; try lia; [exact H2|].
        intros j Hj. destruct (Z.eq_dec j b) as [->|Hne].
        * now apply String.eqb_neq.
        * apply H3. lia. }
  destruct (Z.le_gt_cases 0 (Z.min (index_count w) MAX_SYMBOLS)) as [Hm|Hm].
  - apply G in E as (H1 & H2 & H3); [|exact Hm].
    repeat split; try lia; [exact H2|]. intros j Hj. apply H3. lia.
  - rewrite seqZ_nil in E by lia. discriminate.
Qed.

Lemma Find_None w s :
  Find w s = None <->
  forall i, 0 <= i < index_count w -> i < MAX_SYMBOLS -> GetSymbol w (entry_at i) <> s.
Proof.
  unfold Find. split.
  - intros H i Hi Hi' Heq.
    destruct (List.find _ _) as [k|] eqn:E; [discriminate|].
    assert (In i (seqZ 0 (Z.min (index_count w) MAX_SYMBOLS))) as Hin
      by (apply list_elem_of_In, elem_of_seqZ; lia).
    pose proof (find_none _ _ E i Hin) as Hf. cbv beta in Hf.
    apply String.eqb_neq in Hf. contradiction.
  - intros H. destruct (List.find _ _) as [k|] eqn:E; [|reflexivity].
    apply find_some in E as [Hin Heq].
    apply list_elem_of_In, elem_of_seqZ in Hin. apply String.eqb_eq in Heq.
    exfalso. apply (H k); [lia | lia | exact Heq].
Qed.

Lemma GetSymbol_ext w w' e :
  (forall i, e <= i < e + 16 -> peek w' i = peek w i) ->
  GetSymbol w' e = GetSymbol w e.
Proof.
  intros H. unfold GetSymbol. f_equal. apply load_bytes_ext. exact H.
Qed.

Lemma Find_ext w w' s :
  index_count w' = index_count w ->
  (forall i a, 0 <= i < MAX_SYMBOLS -> entry_at i <= a < entry_at i + 16 ->
               peek w' a = peek w a) ->
  Find w' s = Find w s.
Proof.
  intros Hc H. unfold Find. rewrite Hc. f_equal.
  assert (forall l, Forall (fun i => 0 <= i < MAX_SYMBOLS) l ->
            List.find (fun i => String.eqb (GetSymbol w' (entry_at i)) s) l =
            List.find (fun i => String.eqb (GetSymbol w (entry_at i)) s) l) as G.
  { induction 1 as [|i l Hi _ IH]; [reflexivity|]. cbn [List.find].
    rewrite IH, (GetSymbol_ext w w'); [reflexivity|].
    intros k Hk. now apply (H i). }
  apply G. apply Forall_forall. intros i Hi.
  apply elem_of_seqZ in Hi. pose proof (index_count_nonneg w). lia.
Qed.

Lemma GetSymbol_SetSymbol w e s : GetSymbol (SetSymbol w e s) e = stored_name s.
Proof.
  unfold GetSymbol, stored_name, SetSymbol.
  change (Z.to_nat SYMBOL_NAME_SIZE) with 16%nat.
  change (Z.to_nat (SYMBOL_NAME_SIZE - 1)) with 15%nat.
  change (SYMBOL_NAME_SIZE - 1) with 15.
  rewrite <- string_of_array_strncpy. f_equal.
  apply load_bytes_spec.
  - rewrite length_app, strncpy_bytes_length. reflexivity.
  - intros j Hj.
    pose proof (strncpy_bytes_length 15 s) as Hl.
    pose proof (strncpy_bytes_byte 15 s) as Hb.
    destruct (Z.eq_dec j 15) as [->|Hne].
    + replace (e + 15 - 0) with (e + 15) by lia.
      rewrite peek_poke_in by (cbn [length]; lia).
      replace (e + 15 - (e + 15)) with 0 by lia.
      rewrite app_nth2 by lia. rewrite Hl. reflexivity.
    + rewrite peek_poke_ne by (cbn [length]; lia).
      rewrite peek_poke_in by lia.
      replace (e + j - e) with j by lia.
      rewrite app_nth1 by lia.
      apply Z.mod_small.
      rewrite Forall_forall in Hb. apply Hb. apply list_elem_of_In, nth_In. lia.
Qed.

Lemma peek_SetSymbol_last w e s : peek (SetSymbol w e s) (e + 15) = 0.
Proof.
  unfold SetSymbol. change (SYMBOL_NAME_SIZE - 1) with 15.
  rewrite peek_poke_in by (cbn [length]; lia).
  replace (e + 15 - (e + 15)) with 0 by lia. reflexivity.
Qed.

(** A name read back from a NUL-terminated entry is its own stored form. *)
Lemma GetSymbol_stored w e :
  peek w (e + 15) = 0 -> stored_name (GetSymbol w e) = GetSymbol w e.
Proof.
  intros H. unfold GetSymbol, stored_name.
  change (Z.to_nat SYMBOL_NAME_SIZE) with 16%nat.
  change (Z.to_nat (SYMBOL_NAME_SIZE - 1)) with 15%nat.
  rewrite load_bytes_snoc. change (Z.of_nat 15) with 15. rewrite H.
  rewrite string_of_array_snoc0.
  rewrite <- (load_bytes_length 15 w e) at 1.
  apply truncate_string_of_array, load_bytes_byte.
Qed.

(** ** Loads after stores, at the widths the structures use *)

Lemma load_u64_store_u64 w a v : load_u64 (store_u64 w a v) a = uint64 v.
Proof. rewrite load_le_store_le. reflexivity. Qed.

Lemma load_u32_store_u32 w a v : load_u32 (store_u32 w a v) a = uint32 v.
Proof. rewrite load_le_store_le. reflexivity. Qed.

Lemma load_u64_range w a : 0 <= load_u64 w a < 2 ^ 64.
Proof. apply (load_le_range 8). Qed.

Lemma load_u32_range w a : 0 <= load_u32 w a < 2 ^ 32.
Proof. apply (load_le_range 4). Qed.

Lemma uint64_even x : Z.even (uint64 x) = Z.even x.
Proof.
  unfold uint64. rewrite !Zeven_mod. f_equal.
  apply Z.mod_mod_divide. exists (2 ^ 63). reflexivity.
Qed.

Lemma uint64_succ_succ x : uint64 (uint64 (x + 1) + 1) = uint64 (x + 2).
Proof.
  unfold uint64. rewrite Zplus_mod_idemp_l. f_equal. lia.
Qed.

Lemma RequiredSize_eq n :
  0 <= n <= MAX_CANDLES_PER_SYMBOL -> RequiredSize n = 56 + 48 * n.
Proof.
  intros H. unfold RequiredSize, MAX_CANDLES_PER_SYMBOL in *.
  rewrite uint32_small by lia. rewrite uint64_small by addr. addr.
Qed.

(** ** The transaction steps on the sequence counter *)

Lemma header_sequence_begin_write w :
  header_sequence (begin_write w) = uint64 (header_sequence w + 1).
Proof.
  unfold begin_write, header_sequence. rewrite load_u64_store_u64.
  apply uint64_small, uint64_range.
Qed.

Lemma header_sequence_end_write now w :
  header_sequence (end_write now w) = uint64 (header_sequence w + 1).
Proof.
  unfold end_write, header_sequence.
  rewrite load_le_store_le_ne by addr. rewrite load_u64_store_u64.
  apply uint64_small, uint64_range.
Qed.

Lemma header_sequence_ext w w' :
  (forall i, 24 <= i < 32 -> peek w' i = peek w i) ->
  header_sequence w' = header_sequence w.
Proof. intros H. apply load_le_ext. intros i Hi. apply H. addr. Qed.

(** ** The invariant of an initialized writer *)

Lemma index_ok_frame w w' :
  size_ w' = size_ w ->
  next_data_offset_ w <= next_data_offset_ w' <= Z.max (size_ w) DATA_SECTIONS_OFFSET ->
  (forall a, index_byte a -> peek w' a = peek w a) ->
  index_ok w -> index_ok w'.
Proof.
  intros Hs Hc Hf [H1 H2 H3 H4 H5].
  assert (index_count w' = index_count w) as Ec.
  { apply load_le_ext. intros a Ha. apply Hf. right; left. addr. }
  assert (header_symbol_count w' = header_symbol_count w) as Esc.
  { apply load_le_ext. intros a Ha. apply Hf. left. addr. }
  constructor.
  - now rewrite Hs.
  - rewrite Hs. lia.
  - now rewrite Ec.
  - now rewrite Esc, Ec.
  - intros i Hi. destruct (H5 i Hi) as [Hn Hd].
    assert (entry_data_offset w' (entry_at i) = entry_data_offset w (entry_at i)) as Eo.
    { apply load_le_ext. intros a Ha. apply Hf. right; right. exists i. addr. }
    assert (entry_data_size w' (entry_at i) = entry_data_size w (entry_at i)) as Ez.
    { apply load_le_ext. intros a Ha. apply Hf. right; right. exists i. addr. }
    split.
    + rewrite Hf; [exact Hn|]. right; right. exists i. addr.
    + rewrite Eo, Ez. destruct Hd as [Hd|Hd]; [now left | right; lia].
Qed.

Lemma index_ok_begin_write w : index_ok w -> index_ok (begin_write w).
Proof.
  intros H. apply (index_ok_frame w); [reflexivity | | | exact H].
  - destruct H. unfold begin_write; cbn. lia.
  - intros a Ha. apply peek_begin_write_ne.
    destruct Ha as [Ha|[Ha|(i & Hi & Ha)]]; addr.
Qed.

Lemma index_ok_end_write now w : index_ok w -> index_ok (end_write now w).
Proof.
  intros H. apply (index_ok_frame w); [reflexivity | | | exact H].
  - destruct H. unfold end_write; cbn. lia.
  - intros a Ha. apply peek_end_write_ne.
    destruct Ha as [Ha|[Ha|(i & Hi & Ha)]]; addr.
Qed.

(** ** Resolving or creating the index entry *)

Lemma find_or_add_symbol_cases symbol w :
  (exists i, 0 <= i < index_count w /\ i < MAX_SYMBOLS /\
     Find w symbol = Some (entry_at i) /\
     find_or_add_symbol symbol w = (Some (entry_at i), w))
  \/ (Find w symbol = None /\ MAX_SYMBOLS <= index_count w /\
      find_or_add_symbol symbol w = (None, w))
  \/ (Find w symbol = None /\ index_count w < MAX_SYMBOLS /\
      find_or_add_symbol symbol w = (Some (entry_at (index_count w)), appended symbol w)).
Proof.
  unfold find_or_add_symbol.
  destruct (Find w symbol) as [e|] eqn:EF.
  - left. destruct (Find_Some _ _ _ EF) as (i & H1 & H2 & -> & _).
    exists i. repeat split; try lia; reflexivity.
  - right. unfold Add.
    destruct (MAX_SYMBOLS <=? index_count w) eqn:E.
    + left. apply Z.leb_le in E. auto.
    + right. apply Z.leb_gt in E. auto.
Qed.

Lemma index_count_range w : 0 <= index_count w < 2 ^ 32.
Proof. apply load_u32_range. Qed.

Lemma peek_appended_ne symbol w a :
  index_count w < MAX_SYMBOLS ->
  (a < 32 \/ 36 <= a) -> (a < 256 \/ 260 <= a) ->
  (a < entry_at (index_count w) \/ entry_at (index_count w) + 16 <= a) ->
  peek (appended symbol w) a = peek w a.
Proof.
  intros Hc H1 H2 H3. unfold appended.
  rewrite peek_store_le_ne by addr.
  rewrite peek_SetSymbol_ne by lia.
  rewrite peek_store_le_ne by addr. reflexivity.
Qed.

Lemma same_object_appended symbol w : same_object w (appended symbol w).
Proof. repeat split. Qed.

Lemma index_count_appended symbol w :
  index_count w < MAX_SYMBOLS ->
  index_count (appended symbol w) = index_count w + 1.
Proof.
  intros Hc. pose proof (index_count_range w) as Hr.
  unfold appended, index_count at 1.
  rewrite load_le_store_le_ne by addr.
  rewrite (load_le_ext 4 (store_u32 w count_addr (uint32 (index_count w + 1)))).
  - rewrite load_u32_store_u32.
    rewrite (uint32_small (index_count w + 1)) by addr.
    apply uint32_small. addr.
  - intros i Hi. apply peek_SetSymbol_ne. addr.
Qed.

Lemma header_symbol_count_appended symbol w :
  index_count w < MAX_SYMBOLS ->
  header_symbol_count (appended symbol w) = index_count w + 1.
Proof.
  intros Hc. pose proof (index_count_range w) as Hr.
  unfold appended, header_symbol_count.
  rewrite load_u32_store_u32.
  unfold index_count at 1.
  rewrite (load_le_ext 4 (store_u32 w count_addr (uint32 (index_count w + 1)))).
  - rewrite load_u32_store_u32.
    rewrite (uint32_small (index_count w + 1)) by addr.
    rewrite (uint32_small (index_count w + 1)) by addr.
    apply uint32_small. addr.
  - intros i Hi. apply peek_SetSymbol_ne. addr.
Qed.

Lemma GetSymbol_appended symbol w :
  GetSymbol (appended symbol w) (entry_at (index_count w)) = stored_name symbol.
Proof.
  pose proof (index_count_range w) as Hr.
  unfold appended.
  rewrite (GetSymbol_ext
             (SetSymbol (store_u32 w count_addr (uint32 (index_count w + 1)))
                        (entry_at (index_count w)) symbol)).
  - apply GetSymbol_SetSymbol.
  - intros i Hi. apply peek_store_le_ne. addr.
Qed.

Lemma peek_appended_last symbol w :
  peek (appended symbol w) (entry_at (index_count w) + 15) = 0.
Proof.
  pose proof (index_count_range w) as Hr.
  unfold appended. rewrite peek_store_le_ne by addr.
  apply peek_SetSymbol_last.
Qed.

Lemma index_ok_appended symbol w :
  index_count w < MAX_SYMBOLS -> index_ok w -> index_ok (appended symbol w).
Proof.
  intros Hc [H1 H2 H3 H4 H5]. pose proof (index_count_range w) as Hr.
  constructor.
  - exact H1.
  - exact H2.
  - rewrite index_count_appended by exact Hc. lia.
  - rewrite index_count_appended, header_symbol_count_appended by exact Hc. reflexivity.
  - intros i Hi. destruct (H5 i Hi) as [Hn Hd].
    assert (entry_data_offset (appended symbol w) (entry_at i)
            = entry_data_offset w (entry_at i)) as Eo.
    { apply load_le_ext. intros a Ha. apply peek_appended_ne; addr. }
    assert (entry_data_size (appended symbol w) (entry_at i)
            = entry_data_size w (entry_at i)) as Ez.
    { apply load_le_ext. intros a Ha. apply peek_appended_ne; addr. }
    split.
    + destruct (Z.eq_dec i (index_count w)) as [->|Hne].
      * apply peek_appended_last.
      * rewrite peek_appended_ne by addr. exact Hn.
    + rewrite Eo, Ez. exact Hd.
Qed.

(** ** The block allocator *)

Lemma allocate_data_block_full size w :
  0 <= next_data_offset_ w + size < 2 ^ 64 ->
  size_ w < next_data_offset_ w + size ->
  allocate_data_block size w = (0, w).
Proof.
  intros Hr H. unfold allocate_data_block.
  rewrite uint64_small by exact Hr.
  destruct (size_ w <? next_data_offset_ w + size) eqn:E; [reflexivity|].
  apply Z.ltb_ge in E. lia.
Qed.

Lemma allocate_data_block_fits size w :
  0 <= next_data_offset_ w + size < 2 ^ 64 ->
  next_data_offset_ w + size <= size_ w ->
  allocate_data_block size w =
    (next_data_offset_ w,
     memset (set_next_data_offset w (next_data_offset_ w + size))
            (next_data_offset_ w) 0 size).
Proof.
  intros Hr H. unfold allocate_data_block.
  rewrite uint64_small by exact Hr.
  destruct (size_ w <? next_data_offset_ w + size) eqn:E; [|reflexivity].
  apply Z.ltb_lt in E. lia.
Qed.

Lemma allocate_or_reuse_cases e req w :
  index_ok w -> 0 < req < 2 ^ 32 ->
  ((entry_data_offset w e = 0 \/ entry_data_size w e < req) /\
   ((size_ w < next_data_offset_ w + req /\ allocate_or_reuse e req w = (None, w)) \/
    (next_data_offset_ w + req <= size_ w /\
     allocate_or_reuse e req w = (Some (next_data_offset_ w), allocated e req w))))
  \/
  (entry_data_offset w e <> 0 /\ req <= entry_data_size w e /\
   allocate_or_reuse e req w = (Some (entry_data_offset w e), w)).
Proof.
  intros [H1 H2 _ _ _] Hreq.
  assert (0 <= next_data_offset_ w + req < 2 ^ 64) as Hr by addr.
  assert ((next_data_offset_ w =? 0) = false) as Hnz by (apply Z.eqb_neq; addr).
  unfold allocate_or_reuse.
  destruct (entry_data_offset w e =? 0) eqn:E0.
  - apply Z.eqb_eq in E0. left. split; [now left|].
    destruct (Z.lt_ge_cases (size_ w) (next_data_offset_ w + req)) as [Hf|Hf].
    + left. rewrite allocate_data_block_full by assumption. auto.
    + right. rewrite allocate_data_block_fits by assumption.
      rewrite Hnz. auto.
  - apply Z.eqb_neq in E0.
    destruct (entry_data_size w e <? req) eqn:E1.
    + apply Z.ltb_lt in E1. left. split; [now right|].
      destruct (Z.lt_ge_cases (size_ w) (next_data_offset_ w + req)) as [Hf|Hf].
      * left. rewrite allocate_data_block_full by assumption. auto.
      * right. rewrite allocate_data_block_fits by assumption.
        rewrite Hnz. auto.
    + apply Z.ltb_ge in E1. right. auto.
Qed.

Lemma peek_allocated_ne e req w a :
  (a < next_data_offset_ w \/ next_data_offset_ w + req <= a) ->
  (a < e + 16 \/ e + 28 <= a) ->
  peek (allocated e req w) a = peek w a.
Proof.
  intros H1 H2. unfold allocated.
  rewrite !peek_store_le_ne by addr.
  rewrite peek_memset_ne by lia. reflexivity.
Qed.

Lemma peek_allocated_zero e req w a :
  e + 28 <= next_data_offset_ w ->
  next_data_offset_ w <= a < next_data_offset_ w + req ->
  peek (allocated e req w) a = 0.
Proof.
  intros H1 H2. unfold allocated.
  rewrite !peek_store_le_ne by addr.
  rewrite peek_memset_in by lia. reflexivity.
Qed.

Lemma next_data_offset_allocated e req w :
  next_data_offset_ (allocated e req w) = next_data_offset_ w + req.
Proof. reflexivity. Qed.

Lemma entry_data_offset_allocated e req w :
  0 <= next_data_offset_ w < 2 ^ 64 ->
  entry_data_offset (allocated e req w) e = next_data_offset_ w.
Proof.
  intros H. unfold allocated, entry_data_offset.
  rewrite load_le_store_le_ne by addr.
  rewrite load_u64_store_u64. now apply uint64_small.
Qed.

Lemma entry_data_size_allocated e req w :
  0 <= req < 2 ^ 32 ->
  entry_data_size (allocated e req w) e = req.
Proof.
  intros H. unfold allocated, entry_data_size.
  rewrite load_u32_store_u32. now apply uint32_small.
Qed.

Lemma index_ok_allocated e req w :
  is_entry e -> 0 < req < 2 ^ 32 ->
  next_data_offset_ w + req <= size_ w ->
  index_ok w -> index_ok (allocated e req w).
Proof.
  intros (k & Hk & ->) Hreq Hfit Hok.
  pose proof Hok as [H1 H2 H3 H4 H5].
  assert (forall a, a < DATA_SECTIONS_OFFSET ->
            (a < entry_at k + 16 \/ entry_at k + 28 <= a) ->
            peek (allocated (entry_at k) req w) a = peek w a) as Hf.
  { intros a Ha Hb. apply peek_allocated_ne; addr. }
  constructor.
  - exact H1.
  - rewrite next_data_offset_allocated.
    change (size_ (allocated (entry_at k) req w)) with (size_ w). addr.
  - unfold index_count. rewrite (load_le_ext 4 w); [exact H3|].
    intros a Ha. apply Hf; addr.
  - unfold header_symbol_count, index_count.
    rewrite (load_le_ext 4 w _ symbol_count_addr), (load_le_ext 4 w _ count_addr);
      [exact H4 | |]; intros a Ha; apply Hf; addr.
  - intros i Hi. destruct (H5 i Hi) as [Hn Hd]. split.
    + rewrite Hf by addr. exact Hn.
    + destruct (Z.eq_dec i k) as [->|Hne].
      * right. rewrite entry_data_offset_allocated, entry_data_size_allocated by addr.
        rewrite next_data_offset_allocated. addr.
      * unfold entry_data_offset, entry_data_size in *.
        rewrite !(load_le_ext _ w (allocated (entry_at k) req w));
          [| intros a Ha; apply Hf; addr ..].
        rewrite next_data_offset_allocated.
        destruct Hd as [Hd|Hd]; [now left | right; lia].
Qed.

Lemma header_sequence_allocated e req w :
  is_entry e -> DATA_SECTIONS_OFFSET <= next_data_offset_ w ->
  header_sequence (allocated e req w) = header_sequence w.
Proof.
  intros (k & Hk & ->) H. apply header_sequence_ext.
  intros i Hi. apply peek_allocated_ne; addr.
Qed.

(** ** The paths of a write transaction *)

Lemma peek_committed_ne clock symbol interval candles e off w a :
  (a < off \/ off + 56 + 48 * Z.of_nat (length candles) <= a) ->
  (a < e + 28 \/ e + 40 <= a) ->
  (a < 16 \/ 32 <= a) ->
  peek (committed clock symbol interval candles e off w) a = peek w a.
Proof.
  intros H1 H2 H3. unfold committed.
  rewrite peek_end_write_ne by lia.
  rewrite !peek_store_le_ne by addr.
  apply peek_populate_block_ne. lia.
Qed.

Lemma same_object_committed clock symbol interval candles e off w :
  same_object w (committed clock symbol interval candles e off w).
Proof.
  unfold committed.
  eapply same_object_trans; [apply same_object_populate_block|].
  repeat split.
Qed.

Lemma header_sequence_committed clock symbol interval candles e off w :
  is_entry e -> DATA_SECTIONS_OFFSET <= off ->
  header_sequence (committed clock symbol interval candles e off w)
  = uint64 (header_sequence w + 1).
Proof.
  intros (k & Hk & ->) Hoff. unfold committed.
  rewrite header_sequence_end_write. do 2 f_equal.
  apply header_sequence_ext. intros i Hi.
  rewrite !peek_store_le_ne by addr.
  apply peek_populate_block_ne. addr.
Qed.

Lemma index_ok_committed clock symbol interval candles e off w :
  is_entry e -> DATA_SECTIONS_OFFSET <= off ->
  index_ok w -> index_ok (committed clock symbol interval candles e off w).
Proof.
  intros (k & Hk & ->) Hoff Hok.
  destruct (same_object_committed clock symbol interval candles (entry_at k) off w)
    as (_ & Hs & _ & _ & _ & Hn).
  apply (index_ok_frame w); [exact Hs | | | exact Hok].
  - rewrite Hn. destruct Hok. lia.
  - intros a Ha. apply peek_committed_ne;
      destruct Ha as [Ha|[Ha|(i & Hi & Ha)]]; addr.
Qed.

Lemma resolved_facts symbol w e w2 :
  index_ok w -> resolved symbol w e w2 ->
  index_ok w2 /\ is_entry e /\ same_object w w2 /\
  header_sequence w2 = header_sequence w.
Proof.
  intros Hok [i Hi Hi' HF | HF Hc].
  - split; [exact Hok|].
    split; [exists i; split; [addr | reflexivity]|].
    split; [apply same_object_refl | reflexivity].
  - pose proof (index_count_range w) as Hr.
    split; [now apply index_ok_appended|].
    split; [exists (index_count w); split; [addr | reflexivity]|].
    split; [apply same_object_appended|].
    apply header_sequence_ext. intros a Ha. apply peek_appended_ne; addr.
Qed.

Lemma WriteCandles_transaction clock symbol interval candles w :
  IsInitialized w = true -> index_ok w ->
  0 < Z.of_nat (length candles) <= MAX_CANDLES_PER_SYMBOL ->
  transaction clock symbol interval candles (begin_write w)
    (fst (WriteCandles clock symbol interval candles w))
    (snd (WriteCandles clock symbol interval candles w)).
Proof.
  intros Hinit Hok Hn. unfold WriteCandles.
  rewrite Hinit. cbn [negb].
  destruct (Z.of_nat (length candles) =? 0) eqn:E0; [apply Z.eqb_eq in E0; lia|].
  destruct (MAX_CANDLES_PER_SYMBOL <? Z.of_nat (length candles)) eqn:E1;
    [apply Z.ltb_lt in E1; lia|].
  cbv zeta.
  pose proof (index_ok_begin_write w Hok) as Hok1.
  set (w1 := begin_write w) in *.
  assert (0 < RequiredSize (Z.of_nat (length candles)) < 2 ^ 32) as Hreq.
  { rewrite RequiredSize_eq by lia. addr. }
  destruct (find_or_add_symbol_cases symbol w1)
    as [(i & Hi & Hi' & HF & ->) | [(HF & Hc & ->) | (HF & Hc & ->)]].
  - pose proof (resolved_found symbol w1 i Hi Hi' HF) as Hres.
    destruct (allocate_or_reuse_cases (entry_at i) _ w1 Hok1 Hreq)
      as [(Hneed & [(Hfull & ->) | (Hfit & ->)]) | (Hnz & Hle & ->)]; cbn [fst snd].
    + now apply (txn_write_failed _ _ _ _ _ _ _ Hres).
    + now apply (txn_allocated _ _ _ _ _ _ _ Hres).
    + now apply (txn_reused _ _ _ _ _ _ _ Hres).
  - cbn [fst snd]. now apply txn_symbol_limit.
  - pose proof (resolved_added symbol w1 HF Hc) as Hres.
    destruct (resolved_facts _ _ _ _ Hok1 Hres) as (Hok2 & _).
    destruct (allocate_or_reuse_cases (entry_at (index_count w1)) _ _ Hok2 Hreq)
      as [(Hneed & [(Hfull & ->) | (Hfit & ->)]) | (Hnz & Hle & ->)]; cbn [fst snd].
    + now apply (txn_write_failed _ _ _ _ _ _ _ Hres).
    + now apply (txn_allocated _ _ _ _ _ _ _ Hres).
    + now apply (txn_reused _ _ _ _ _ _ _ Hres).
Qed.

Lemma transaction_effect clock symbol interval candles w1 r w' :
  index_ok w1 ->
  0 < Z.of_nat (length candles) <= MAX_CANDLES_PER_SYMBOL ->
  transaction clock symbol interval candles w1 r w' ->
  index_ok w' /\
  header_sequence w' = uint64 (header_sequence w1 + 1) /\
  size_ w' = size_ w1 /\ region_ w' = region_ w1 /\
  (r = OK \/ r = SYMBOL_LIMIT_EXCEEDED \/ r = WRITE_FAILED).
Proof.
  intros Hok Hn Ht.
  assert (0 < RequiredSize (Z.of_nat (length candles)) < 2 ^ 32) as Hreq.
  { rewrite RequiredSize_eq by lia. addr. }
  destruct Ht as [HF Hc | e w2 Hres Hneed Hfull | e w2 Hres Hneed Hfit
                 | e w2 Hres Hnz Hle].
  - split; [now apply index_ok_end_write|].
    split; [apply header_sequence_end_write|]. auto.
  - destruct (resolved_facts _ _ _ _ Hok Hres) as (Hok2 & He & Hso & Hseq).
    destruct Hso as (_ & Hs & _ & _ & Hr & _).
    split; [now apply index_ok_end_write|].
    split; [rewrite header_sequence_end_write; now rewrite Hseq|]. auto.
  - destruct (resolved_facts _ _ _ _ Hok Hres) as (Hok2 & He & Hso & Hseq).
    destruct Hso as (_ & Hs & _ & _ & Hr & _).
    pose proof (ok_cursor _ Hok2) as Hcur.
    split; [apply index_ok_committed; [exact He | lia |];
            now apply index_ok_allocated|].
    split.
    { rewrite header_sequence_committed by (exact He || lia).
      rewrite header_sequence_allocated by (exact He || lia). now rewrite Hseq. }
    destruct (same_object_committed clock symbol interval candles e
                (next_data_offset_ w2)
                (allocated e (RequiredSize (Z.of_nat (length candles))) w2))
      as (_ & Hs' & _ & _ & Hr' & _).
    rewrite Hs', Hr'. cbn. auto.
  - destruct (resolved_facts _ _ _ _ Hok Hres) as (Hok2 & He & Hso & Hseq).
    destruct Hso as (_ & Hs & _ & _ & Hr & _).
    assert (DATA_SECTIONS_OFFSET <= entry_data_offset w2 e) as Hoff.
    { destruct He as (k & Hk & ->).
      destruct (ok_entries _ Hok2 k Hk) as [_ [H0|[H0 _]]]; [contradiction | exact H0]. }
    split; [now apply index_ok_committed|].
    split; [rewrite header_sequence_committed by assumption; now rewrite Hseq|].
    destruct (same_object_committed clock symbol interval candles e
                (entry_data_offset w2 e) w2) as (_ & Hs' & _ & _ & Hr' & _).
    rewrite Hs', Hr'. auto.
Qed.

(** ** Creation *)

Lemma load_le_zero n : forall w a,
  (forall i, a <= i < a + Z.of_nat n -> peek w i = 0) -> load_le n w a = 0.
Proof.
  unfold load_le. induction n as [|n IH]; intros w a H; [reflexivity|].
  cbn [load_bytes decode_le]. rewrite H by lia. rewrite IH; [reflexivity|].
  intros i Hi. apply H. lia.
Qed.

Lemma peek_initialize_region_entries pid now w a :
  264 <= a < 10504 -> peek (initialize_region pid now w) a = 0.
Proof.
  intros H. unfold initialize_region. rewrite peek_set_next_data_offset.
  rewrite peek_memset_in by addr. reflexivity.
Qed.

Lemma peek_memset_index_ne w a :
  a < 264 \/ 10504 <= a ->
  peek (memset w (SYMBOL_INDEX_OFFSET + SymbolIndex.entries) 0
               (SymbolIndexEntry.sizeof * MAX_SYMBOLS)) a = peek w a.
Proof. intros H. apply peek_memset_ne. addr. Qed.

Lemma header_sequence_initialize_region pid now w :
  header_sequence (initialize_region pid now w) = 0.
Proof.
  unfold initialize_region, header_sequence.
  rewrite (load_le_ext 8 (store_u64
    (store_u64 (store_u32 (store_u32 (store_u32 (store_u32
       (set_region w (base_ptr_ w)) (HEADER_OFFSET + Header.magic) MAGIC)
       (HEADER_OFFSET + Header.version) VERSION)
       (HEADER_OFFSET + Header.writer_pid) pid)
       (HEADER_OFFSET + Header.reader_pid) 0) last_update_addr now)
    sequence_addr 0)).
  - apply load_u64_store_u64.
  - intros i Hi. rewrite peek_set_next_data_offset.
    rewrite peek_memset_index_ne by addr.
    rewrite !peek_store_le_ne by addr. reflexivity.
Qed.

Lemma index_count_initialize_region pid now w :
  index_count (initialize_region pid now w) = 0.
Proof.
  unfold initialize_region, index_count.
  match goal with
  | |- load_le 4 (set_next_data_offset (memset (store_le 4 ?w0 _ _) _ _ _) _) _ = _ =>
      rewrite (load_le_ext 4 (store_u32 w0 count_addr 0))
  end.
  - apply load_u32_store_u32.
  - intros i Hi. rewrite peek_set_next_data_offset.
    rewrite peek_memset_index_ne by addr. reflexivity.
Qed.

Lemma header_symbol_count_initialize_region pid now w :
  header_symbol_count (initialize_region pid now w) = 0.
Proof.
  unfold initialize_region, header_symbol_count.
  match goal with
  | |- load_le 4 (set_next_data_offset (memset (store_le 4 (store_le 4 (store_le 4
         (store_le 4 ?w0 _ _) _ _) _ _) _ _) _ _ _) _) _ = _ =>
      rewrite (load_le_ext 4 (store_u32 w0 symbol_count_addr 0))
  end.
  - apply load_u32_store_u32.
  - intros i Hi. rewrite peek_set_next_data_offset.
    rewrite peek_memset_index_ne by addr.
    rewrite !peek_store_le_ne by addr. reflexivity.
Qed.

Lemma index_ok_initialize_region pid now w :
  4352 <= size_ w <= 2 ^ 30 -> index_ok (initialize_region pid now w).
Proof.
  intros Hs. constructor.
  - exact Hs.
  - cbn. addr.
  - rewrite index_count_initialize_region. addr.
  - now rewrite index_count_initialize_region, header_symbol_count_initialize_region.
  - intros i Hi. split.
    + apply peek_initialize_region_entries. addr.
    + left. apply load_le_zero. intros a Ha.
      apply peek_initialize_region_entries. addr.
Qed.

Lemma region_Close w : region_ (Close w) = nullptr.
Proof. reflexivity. Qed.

Lemma IsInitialized_Close w : IsInitialized (Close w) = false.
Proof. reflexivity. Qed.

Lemma region_prepared name size w : region_ (prepared name size w) = nullptr.
Proof.
  unfold prepared, IsInitialized. destruct (region_ w) eqn:E; cbn; [exact E | reflexivity].
Qed.

(** The outcomes of [Create]. *)
Lemma Create_cases os pid now name size w :
  (name = EmptyString /\ Create os pid now name size w = (INVALID_NAME, w))
  \/ (name <> EmptyString /\ (size < 4352 \/ 2 ^ 30 < size) /\
      Create os pid now name size w = (INVALID_SIZE, w))
  \/ (name <> EmptyString /\ 4352 <= size <= 2 ^ 30 /\
      exists err w',
        Create os pid now name size w = (err, w') /\
        (err = CREATE_FAILED \/ err = MAPPING_FAILED) /\
        region_ w' = nullptr /\
        (shm_open_result os = -1 \/ ftruncate_result os = -1 \/ mmap_result os = None))
  \/ (name <> EmptyString /\ 4352 <= size <= 2 ^ 30 /\
      exists content w0,
        mmap_result os = Some content /\
        Create os pid now name size w = (OK, initialize_region pid now w0) /\
        size_ w0 = size /\ base_ptr_ w0 = mapping_base /\
        shm w0 = {| bytes := content; written := [] |}).
Proof.
  unfold Create.
  destruct (String.eqb name EmptyString) eqn:En.
  { apply String.eqb_eq in En. auto. }
  apply String.eqb_neq in En. right.
  change (1024 * 1024 * 1024) with (2 ^ 30).
  destruct ((size <? 4352) || (2 ^ 30 <? size)) eqn:Es.
  { left. apply orb_true_iff in Es. rewrite Z.ltb_lt, Z.ltb_lt in Es. auto. }
  apply orb_false_iff in Es. rewrite Z.ltb_ge, Z.ltb_ge in Es.
  right. cbv zeta. fold (prepared name size w).
  pose proof (region_prepared name size w) as Hr.
  set (w0 := prepared name size w) in *.
  unfold platform_create. cbn [handle_ set_handle].
  destruct (shm_open_result os =? -1) eqn:E1.
  { left. apply Z.eqb_eq in E1.
    split; [exact En|]. split; [lia|]. eexists _, _. split; [reflexivity|]. auto. }
  destruct (ftruncate_result os =? -1) eqn:E2.
  { left. apply Z.eqb_eq in E2.
    split; [exact En|]. split; [lia|]. eexists _, _. split; [reflexivity|]. auto. }
  destruct (mmap_result os) as [content|] eqn:E3.
  - right. split; [exact En|]. split; [lia|].
    eexists content, _. split; [reflexivity|]. split; [reflexivity|]. auto.
  - left. split; [exact En|]. split; [lia|]. eexists _, _. split; [reflexivity|]. auto.
Qed.

(** ** Reachable writers are consistent *)

Lemma quiescent_transaction clock symbol interval candles w r w' :
  index_ok w -> quiescent w ->
  0 < Z.of_nat (length candles) <= MAX_CANDLES_PER_SYMBOL ->
  transaction clock symbol interval candles (begin_write w) r w' ->
  quiescent w'.
Proof.
  intros Hok Hq Hn Ht.
  destruct (transaction_effect _ _ _ _ _ _ _ (index_ok_begin_write w Hok) Hn Ht)
    as (_ & Hseq & _).
  unfold quiescent in *. rewrite Hseq, header_sequence_begin_write.
  rewrite uint64_succ_succ, uint64_even, Z.even_add, Hq. reflexivity.
Qed.

Lemma WriteCandles_untouched clock symbol interval candles w :
  IsInitialized w = false \/ Z.of_nat (length candles) = 0 \/
  MAX_CANDLES_PER_SYMBOL < Z.of_nat (length candles) ->
  snd (WriteCandles clock symbol interval candles w) = w.
Proof.
  intros H. unfold WriteCandles.
  destruct (IsInitialized w); cbn [negb]; [|reflexivity].
  destruct (Z.of_nat (length candles) =? 0) eqn:E0; [reflexivity|].
  destruct (MAX_CANDLES_PER_SYMBOL <? Z.of_nat (length candles)) eqn:E1; [reflexivity|].
  apply Z.eqb_neq in E0. apply Z.ltb_ge in E1.
  destruct H as [H|[H|H]]; [discriminate | lia | lia].
Qed.

Lemma consistent_WriteCandles clock symbol interval candles w :
  consistent w -> consistent (snd (WriteCandles clock symbol interval candles w)).
Proof.
  intros Hc.
  destruct (IsInitialized w) eqn:Hi;
    [|rewrite WriteCandles_untouched by auto; exact Hc].
  destruct (Z.eq_dec (Z.of_nat (length candles)) 0) as [H0|H0];
    [rewrite WriteCandles_untouched by auto; exact Hc|].
  destruct (Z.lt_ge_cases MAX_CANDLES_PER_SYMBOL (Z.of_nat (length candles))) as [H1|H1];
    [rewrite WriteCandles_untouched by auto; exact Hc|].
  destruct (Hc Hi) as [Hok Hq]. intros _.
  assert (0 < Z.of_nat (length candles) <= MAX_CANDLES_PER_SYMBOL) as Hn by lia.
  pose proof (WriteCandles_transaction clock symbol interval candles w Hi Hok Hn) as Ht.
  split.
  - now apply (transaction_effect _ _ _ _ _ _ _ (index_ok_begin_write w Hok) Hn Ht).
  - exact (quiescent_transaction _ _ _ _ _ _ _ Hok Hq Hn Ht).
Qed.

Lemma consistent_Create os pid now name size w :
  consistent w -> consistent (snd (Create os pid now name size w)).
Proof.
  intros Hc.
  destruct (Create_cases os pid now name size w)
    as [(_ & ->) | [(_ & _ & ->) | [(_ & _ & err & w' & -> & _ & Hr & _)
       | (_ & Hs & content & w0 & _ & -> & Hs0 & _)]]]; cbn [snd]; try exact Hc.
  - unfold consistent, IsInitialized. rewrite Hr. discriminate.
  - intros _. split.
    + apply index_ok_initialize_region. now rewrite Hs0.
    + unfold quiescent. now rewrite header_sequence_initialize_region.
Qed.

Theorem reachable_consistent w : reachable w -> consistent w.
Proof.
  induction 1 as [| os pid now name size w _ IH | w _ _
                 | clock symbol interval candles w _ IH].
  - intros H. discriminate.
  - now apply consistent_Create.
  - intros H. discriminate.
  - now apply consistent_WriteCandles.
Qed.

(** ** Sequence parity across [WriteCandles] *)

Lemma WriteCandles_effect clock symbol interval candles w :
  consistent w -> IsInitialized w = true ->
  0 < Z.of_nat (length candles) <= MAX_CANDLES_PER_SYMBOL ->
  let r := fst (WriteCandles clock symbol interval candles w) in
  let w' := snd (WriteCandles clock symbol interval candles w) in
  (r = OK \/ r = SYMBOL_LIMIT_EXCEEDED \/ r = WRITE_FAILED) /\
  header_sequence w' = uint64 (uint64 (header_sequence w + 1) + 1) /\
  IsInitialized w' = true.
Proof.
  intros Hc Hi Hn. destruct (Hc Hi) as [Hok Hq].
  pose proof (WriteCandles_transaction clock symbol interval candles w Hi Hok Hn) as Ht.
  destruct (transaction_effect _ _ _ _ _ _ _ (index_ok_begin_write w Hok) Hn Ht)
    as (_ & Hseq & _ & Hr & Hres).
  cbv zeta. split; [exact Hres|]. split.
  - now rewrite Hseq, header_sequence_begin_write.
  - unfold IsInitialized in *. now rewrite Hr.
Qed.

(** C1. Every [WriteCandles] call on an initialized writer with between 1
    and 100,000 candles leaves by one of three paths (success,
    [SYMBOL_LIMIT_EXCEEDED], [WRITE_FAILED]); on each of them the header's
    sequence counter has been incremented exactly twice, once by
    [begin_write] and once by [end_write], and is even when the call
    returns. *)
Theorem C1_sequence_closed_on_every_path clock symbol interval candles w :
  reachable w -> IsInitialized w = true ->
  0 < Z.of_nat (length candles) <= MAX_CANDLES_PER_SYMBOL ->
  let r := fst (WriteCandles clock symbol interval candles w) in
  let w' := snd (WriteCandles clock symbol interval candles w) in
  (r = OK \/ r = SYMBOL_LIMIT_EXCEEDED \/ r = WRITE_FAILED) /\
  header_sequence (begin_write w) = uint64 (header_sequence w + 1) /\
  header_sequence w' = uint64 (header_sequence (begin_write w) + 1) /\
  Z.even (header_sequence (begin_write w)) = false /\
  Z.even (header_sequence w') = true.
Proof.
  intros Hreach Hi Hn.
  pose proof (reachable_consistent w Hreach) as Hc.
  destruct (WriteCandles_effect clock symbol interval candles w Hc Hi Hn)
    as (Hres & Hseq & _).
  pose proof (consistent_WriteCandles clock symbol interval candles w Hc) as Hc'.
  destruct (Hc Hi) as [_ Hq]. unfold quiescent in Hq.
  cbv zeta. rewrite header_sequence_begin_write.
  split; [exact Hres|]. split; [reflexivity|]. split; [exact Hseq|].
  split.
  - rewrite uint64_even, Z.even_add, Hq. reflexivity.
  - rewrite Hseq, uint64_succ_succ, uint64_even, Z.even_add, Hq. reflexivity.
Qed.

(** ** A run of calls *)

Lemma reachable_run calls : forall w, reachable w -> reachable (snd (run calls w)).
Proof.
  induction calls as [|c rest IH]; intros w H; cbn [run snd]; [exact H|].
  apply IH. now apply reach_WriteCandles.
Qed.

Lemma WriteCandles_OK_cases clock symbol interval candles w :
  fst (WriteCandles clock symbol interval candles w) = OK ->
  IsInitialized w = true /\
  (Z.of_nat (length candles) = 0 \/
   0 < Z.of_nat (length candles) <= MAX_CANDLES_PER_SYMBOL).
Proof.
  unfold WriteCandles.
  destruct (IsInitialized w); cbn [negb fst]; [|discriminate].
  destruct (Z.of_nat (length candles) =? 0) eqn:E0.
  { apply Z.eqb_eq in E0. auto. }
  destruct (MAX_CANDLES_PER_SYMBOL <? Z.of_nat (length candles)) eqn:E1;
    [cbn [fst]; discriminate|].
  apply Z.eqb_neq in E0. apply Z.ltb_ge in E1. intros _. split; [reflexivity|]. lia.
Qed.

Lemma run_sequence calls : forall w,
  consistent w -> IsInitialized w = true ->
  Forall (eq OK) (fst (run calls w)) ->
  header_sequence (snd (run calls w))
  = uint64 (header_sequence w + 2 * writing_calls calls).
Proof.
  induction calls as [|c rest IH]; intros w Hc Hi Hall.
  - cbn [run snd]. unfold writing_calls. cbn [List.filter length Z.of_nat].
    rewrite Z.add_0_r. symmetry. apply uint64_small, load_u64_range.
  - cbn [run fst snd] in *. apply Forall_cons in Hall as [H1 Hall].
    symmetry in H1.
    destruct (WriteCandles_OK_cases _ _ _ _ _ H1) as [_ [H0|Hn]].
    + rewrite WriteCandles_untouched in * by auto.
      rewrite IH by assumption. unfold writing_calls. cbn [List.filter].
      rewrite H0. reflexivity.
    + destruct (WriteCandles_effect (call_clock c) (call_symbol c) (call_interval c)
                  (call_candles c) w Hc Hi Hn) as (_ & Hseq & Hi').
      rewrite IH; [| now apply consistent_WriteCandles | exact Hi' | exact Hall].
      rewrite Hseq, uint64_succ_succ. unfold writing_calls. cbn [List.filter].
      destruct (Z.of_nat (length (call_candles c)) =? 0) eqn:E;
        [apply Z.eqb_eq in E; lia|].
      cbn [negb length]. rewrite Nat2Z.inj_succ.
      unfold uint64. rewrite Zplus_mod_idemp_l. f_equal. lia.
Qed.

Lemma Create_OK os pid now name size w :
  fst (Create os pid now name size w) = OK ->
  exists w0,
    snd (Create os pid now name size w) = initialize_region pid now w0 /\
    size_ w0 = size /\ 4352 <= size <= 2 ^ 30 /\ base_ptr_ w0 = mapping_base /\
    written (shm w0) = [].
Proof.
  intros H.
  destruct (Create_cases os pid now name size w)
    as [(_ & E) | [(_ & _ & E) | [(_ & _ & err & w' & E & Herr & _)
       | (_ & Hs & content & w0 & _ & E & Hs0 & Hb & Hm)]]];
    rewrite E in *; cbn [fst snd] in *; try discriminate.
  - destruct Herr; congruence.
  - exists w0. rewrite Hm. auto.
Qed.

Lemma IsInitialized_initialize_region pid now w :
  base_ptr_ w = mapping_base -> IsInitialized (initialize_region pid now w) = true.
Proof. intros H. unfold IsInitialized. cbn. now rewrite H. Qed.

(** ** Concrete scenarios *)

Lemma reachable_created : reachable created.
Proof. apply reach_Create, reach_new. Qed.

Lemma candles_upto_length n : 0 <= n -> Z.of_nat (length (candles_upto n)) = n.
Proof.
  intros H. unfold candles_upto. rewrite length_map, length_seqZ. lia.
Qed.

(** C4 (as stated) fails: a call with an empty candle list returns [OK]
    and is one of the N calls, but increments nothing. After one such call
    on a new region the sequence is 0, not 2. *)
Lemma C4_counterexample :
  let calls := [ {| call_clock := tick; call_symbol := "BTCUSDT";
                    call_interval := "1h"; call_candles := [] |} ] in
  fst (Create os_fresh 4242 (tick 0) "test" (2 ^ 20) new_writer) = OK /\
  Forall (eq OK) (fst (run calls created)) /\
  header_sequence (snd (run calls created)) <> 2 * Z.of_nat (length calls).
Proof.
  cbv zeta. split; [reflexivity|]. split.
  - repeat constructor.
  - vm_compute. discriminate.
Qed.

(** C4 (amended). From a newly created region, after any calls of
    [WriteCandles] that all return [OK], the sequence counter is twice the
    number of those calls that carried at least one candle (as a 64-bit
    counter, so exactly that number below 2^63 such calls), and is even. *)
Theorem C4_sequence_counts_writing_calls os pid now name size w calls :
  fst (Create os pid now name size w) = OK ->
  Forall (eq OK) (fst (run calls (snd (Create os pid now name size w)))) ->
  let w' := snd (run calls (snd (Create os pid now name size w))) in
  header_sequence w' = uint64 (2 * writing_calls calls) /\
  Z.even (header_sequence w') = true /\
  (writing_calls calls < 2 ^ 63 -> header_sequence w' = 2 * writing_calls calls).
Proof.
  intros Hok Hall. cbv zeta.
  destruct (Create_OK _ _ _ _ _ _ Hok) as (w0 & E & Hs0 & Hs & Hb & _).
  rewrite E in *.
  assert (consistent (initialize_region pid now w0)) as Hc.
  { intros _. split.
    - apply index_ok_initialize_region. now rewrite Hs0.
    - unfold quiescent. now rewrite header_sequence_initialize_region. }
  pose proof (IsInitialized_initialize_region pid now w0 Hb) as Hi.
  rewrite (run_sequence calls _ Hc Hi Hall).
  rewrite header_sequence_initialize_region, Z.add_0_l.
  split; [reflexivity|]. split.
  - rewrite uint64_even, Z.even_mul. reflexivity.
  - intros Hlt. apply uint64_small. unfold writing_calls in *. lia.
Qed.

Lemma C4_witness :
  let calls := [ {| call_clock := tick; call_symbol := "BTCUSDT";
                    call_interval := "1h"; call_candles := candles_upto 5 |};
                 {| call_clock := tick; call_symbol := "BTCUSDT";
                    call_interval := "1h"; call_candles := [] |};
                 {| call_clock := tick; call_symbol := "ETHUSDT";
                    call_interval := "1h"; call_candles := candles_upto 3 |} ] in
  header_sequence (snd (run calls created)) = 4.
Proof.
  cbv zeta.
  refine (proj1 (C4_sequence_counts_writing_calls os_fresh 4242 (tick 0) "test"
                   (2 ^ 20) new_writer _ _ _)).
  - reflexivity.
  - vm_compute. repeat constructor.
Defined.

Lemma reachable_full_index : reachable full_index.
Proof. apply reachable_run, reachable_created. Qed.

Lemma reachable_cramped : reachable cramped.
Proof. apply reach_Create, reach_new. Qed.

Lemma C1_witness :
  (fst (WriteCandles tick "BTCUSDT" "1h" (candles_upto 5) created) = OK /\
   Z.even (header_sequence
             (snd (WriteCandles tick "BTCUSDT" "1h" (candles_upto 5) created))) = true) /\
  (fst (WriteCandles tick "ZZ" "1h" (candles_upto 5) full_index) = SYMBOL_LIMIT_EXCEEDED /\
   Z.even (header_sequence
             (snd (WriteCandles tick "ZZ" "1h" (candles_upto 5) full_index))) = true) /\
  (fst (WriteCandles tick "BTCUSDT" "1h" (candles_upto 50) cramped) = WRITE_FAILED /\
   Z.even (header_sequence
             (snd (WriteCandles tick "BTCUSDT" "1h" (candles_upto 50) cramped))) = true).
Proof.
  assert (forall n, 0 < n <= 100000 ->
            0 < Z.of_nat (length (candles_upto n)) <= MAX_CANDLES_PER_SYMBOL) as Hlen.
  { intros n Hn. rewrite candles_upto_length by lia. exact Hn. }
  split; [|split]; (split; [vm_compute; reflexivity|]).
  - refine (proj2 (proj2 (proj2 (proj2
      (C1_sequence_closed_on_every_path tick "BTCUSDT" "1h" (candles_upto 5) created
         reachable_created _ (Hlen 5 _)))))); [reflexivity | lia].
  - refine (proj2 (proj2 (proj2 (proj2
      (C1_sequence_closed_on_every_path tick "ZZ" "1h" (candles_upto 5) full_index
         reachable_full_index _ (Hlen 5 _)))))); [vm_compute; reflexivity | lia].
  - refine (proj2 (proj2 (proj2 (proj2
      (C1_sequence_closed_on_every_path tick "BTCUSDT" "1h" (candles_upto 50) cramped
         reachable_cramped _ (Hlen 50 _)))))); [reflexivity | lia].
Defined.

(** ** No-op calls *)

(** C8. On an initialized writer, [WriteCandles] with an empty list
    returns [OK] and with more than 100,000 candles returns
    [CANDLE_LIMIT_EXCEEDED]; in both cases the writer and the whole
    mapping (sequence counter, index, header, cursor, every byte, and the
    record of stores) are the ones before the call. *)
Theorem C8_empty_and_oversized_change_nothing clock symbol interval candles w :
  IsInitialized w = true ->
  (candles = [] ->
   WriteCandles clock symbol interval candles w = (OK, w)) /\
  (MAX_CANDLES_PER_SYMBOL < Z.of_nat (length candles) ->
   WriteCandles clock symbol interval candles w = (CANDLE_LIMIT_EXCEEDED, w)).
Proof.
  intros Hi. unfold WriteCandles. rewrite Hi. cbn [negb]. split.
  - intros ->. reflexivity.
  - intros H.
    destruct (Z.of_nat (length candles) =? 0) eqn:E0;
      [apply Z.eqb_eq in E0; unfold MAX_CANDLES_PER_SYMBOL in H; lia|].
    destruct (MAX_CANDLES_PER_SYMBOL <? Z.of_nat (length candles)) eqn:E1;
      [reflexivity | apply Z.ltb_ge in E1; lia].
Qed.

Lemma C8_witness :
  WriteCandles tick "BTCUSDT" "1h" [] created = (OK, created) /\
  WriteCandles tick "BTCUSDT" "1h" (candles_upto 100001) created
  = (CANDLE_LIMIT_EXCEEDED, created).
Proof.
  split.
  - refine (proj1 (C8_empty_and_oversized_change_nothing tick "BTCUSDT" "1h" []
                     created _) _); reflexivity.
  - refine (proj2 (C8_empty_and_oversized_change_nothing tick "BTCUSDT" "1h"
                     (candles_upto 100001) created _) _); [reflexivity|].
    rewrite candles_upto_length by lia. unfold MAX_CANDLES_PER_SYMBOL. lia.
Defined.

(** ** Validation in [Create] *)

(** C9 (as stated) fails: with an empty name and a size outside the range
    the call returns [INVALID_NAME]; the size is not looked at. *)
Lemma C9_counterexample :
  (100 < 4352 \/ 2 ^ 30 < 100) /\
  fst (Create os_fresh 4242 (tick 0) EmptyString 100 new_writer) <> INVALID_SIZE.
Proof. split; [left; lia | vm_compute; discriminate]. Qed.

(** C9 (amended). [Create] returns [INVALID_NAME] exactly when the name is
    empty, and [INVALID_SIZE] exactly when the name is not empty and the
    size lies outside [4352, 2^30]. On either failure the writer is left
    as it was: nothing is created or mapped, and a writer that was not
    initialized stays so. [Create(name, 100)] with a name returns
    [INVALID_SIZE]. *)
Theorem C9_Create_validation os pid now name size w :
  (fst (Create os pid now name size w) = INVALID_NAME <-> name = EmptyString) /\
  (fst (Create os pid now name size w) = INVALID_SIZE <->
     name <> EmptyString /\ (size < 4352 \/ 2 ^ 30 < size)) /\
  (fst (Create os pid now name size w) = INVALID_NAME \/
   fst (Create os pid now name size w) = INVALID_SIZE ->
     snd (Create os pid now name size w) = w /\
     (IsInitialized w = false ->
      IsInitialized (snd (Create os pid now name size w)) = false)) /\
  (name <> EmptyString -> Create os pid now name 100 w = (INVALID_SIZE, w)).
Proof.
  split; [|split; [|split]].
  - destruct (Create_cases os pid now name size w)
      as [(Hn & ->) | [(Hn & _ & ->) | [(Hn & _ & err & w' & -> & Herr & _)
         | (Hn & _ & content & w0 & _ & -> & _)]]]; cbn [fst];
      (split; [intros H; try discriminate; try (destruct Herr; congruence); auto
              | intros H; try contradiction; auto]).
  - destruct (Create_cases os pid now name size w)
      as [(Hn & ->) | [(Hn & Hs & ->) | [(Hn & Hs & err & w' & -> & Herr & _)
         | (Hn & Hs & content & w0 & _ & -> & _)]]]; cbn [fst];
      (split; [intros H; try discriminate; try (destruct Herr; congruence); auto
              | intros [H1 H2]; try contradiction; try lia; auto]).
  - destruct (Create_cases os pid now name size w)
      as [(Hn & ->) | [(Hn & Hs & ->) | [(Hn & Hs & err & w' & -> & Herr & _)
         | (Hn & Hs & content & w0 & _ & -> & _)]]]; cbn [fst snd];
      intros [H|H]; try discriminate; try (destruct Herr; congruence); auto.
  - intros Hn. unfold Create.
    apply String.eqb_neq in Hn. rewrite Hn. reflexivity.
Qed.

Lemma C9_witness :
  Create os_fresh 4242 (tick 0) "test" 100 new_writer = (INVALID_SIZE, new_writer) /\
  snd (Create os_fresh 4242 (tick 0) "test" 100 new_writer) = new_writer.
Proof.
  split.
  - refine (proj2 (proj2 (proj2
      (C9_Create_validation os_fresh 4242 (tick 0) "test" 100 new_writer))) _).
    discriminate.
  - refine (proj1 (proj1 (proj2 (proj2
      (C9_Create_validation os_fresh 4242 (tick 0) "test" 100 new_writer))) _)).
    right. reflexivity.
Defined.

(** ** Statistics *)

Lemma GetStats_initialize_region pid now w :
  base_ptr_ w = mapping_base ->
  let s := GetStats (initialize_region pid now w) in
  total_symbols s = 0 /\ total_candles s = 0 /\ write_count s = 0 /\
  memory_used s = DATA_SECTIONS_OFFSET.
Proof.
  intros Hb. cbv zeta. unfold GetStats.
  rewrite IsInitialized_initialize_region by exact Hb.
  cbn [negb total_symbols total_candles write_count memory_used].
  rewrite index_count_initialize_region, header_sequence_initialize_region.
  repeat split.
Qed.

(** C10. [GetStats] on a writer that is not initialized (newly
    constructed, after a failed [Create], or after [Close]) returns the
    all-zero record, whatever the mapping holds; right after a successful
    [Create] it returns 0 symbols, 0 candles, 0 writes and 16,640 bytes
    used. *)
Theorem C10_GetStats_uninitialized_and_fresh :
  (forall w, IsInitialized w = false ->
     GetStats w = no_stats /\ forall m, GetStats (set_shm w m) = no_stats) /\
  GetStats new_writer = no_stats /\
  (forall w, GetStats (Close w) = no_stats) /\
  (forall os pid now name size w,
     IsInitialized w = false ->
     fst (Create os pid now name size w) <> OK ->
     GetStats (snd (Create os pid now name size w)) = no_stats) /\
  (forall os pid now name size w,
     fst (Create os pid now name size w) = OK ->
     let s := GetStats (snd (Create os pid now name size w)) in
     total_symbols s = 0 /\ total_candles s = 0 /\ write_count s = 0 /\
     memory_used s = 16640) /\
  no_stats = {| total_symbols := 0; total_candles := 0; memory_used := 0;
                last_write_us := 0; write_count := 0 |}.
Proof.
  assert (forall w, IsInitialized w = false -> GetStats w = no_stats) as Hun.
  { intros w Hi. unfold GetStats. now rewrite Hi. }
  split; [|split; [|split; [|split; [|split]]]].
  - intros w Hi. split; [now apply Hun|]. intros m. apply Hun. exact Hi.
  - reflexivity.
  - intros w. reflexivity.
  - intros os pid now name size w Hi Hne. apply Hun.
    destruct (Create_cases os pid now name size w)
      as [(_ & E) | [(_ & _ & E) | [(_ & _ & err & w' & E & _ & Hr & _)
         | (_ & _ & content & w0 & _ & E & _)]]];
      rewrite E in *; cbn [fst snd] in *; try exact Hi; try contradiction.
    unfold IsInitialized. now rewrite Hr.
  - intros os pid now name size w Hok.
    destruct (Create_OK _ _ _ _ _ _ Hok) as (w0 & -> & _ & _ & Hb & _).
    exact (GetStats_initialize_region pid now w0 Hb).
  - reflexivity.
Qed.

Lemma C10_witness :
  GetStats (snd (Create os_fresh 4242 (tick 0) "test" 100 new_writer)) = no_stats /\
  memory_used (GetStats created) = 16640.
Proof.
  split.
  - refine (proj1 (proj2 (proj2 (proj2 C10_GetStats_uninitialized_and_fresh)))
              os_fresh 4242 (tick 0) "test"%string 100 new_writer _ _).
    + reflexivity.
    + vm_compute. discriminate.
  - refine (proj2 (proj2 (proj2
             (proj1 (proj2 (proj2 (proj2 (proj2 C10_GetStats_uninitialized_and_fresh))))
                os_fresh 4242 (tick 0) "test"%string (2 ^ 20) new_writer _)))).
    reflexivity.
Defined.

(** ** The directory is full *)

Lemma Find_begin_write w symbol : Find (begin_write w) symbol = Find w symbol.
Proof.
  apply Find_ext.
  - apply load_le_ext. intros i Hi. apply peek_begin_write_ne. addr.
  - intros i a Hi Ha. apply peek_begin_write_ne. addr.
Qed.

Lemma index_count_begin_write w : index_count (begin_write w) = index_count w.
Proof. apply load_le_ext. intros i Hi. apply peek_begin_write_ne. addr. Qed.

(** C7. When the directory holds 256 entries and the symbol of the call
    differs, after truncation to 15 bytes, from every stored name,
    [WriteCandles] with 1 to 100,000 candles returns
    [SYMBOL_LIMIT_EXCEEDED]; the index count and the header's symbol count
    are 256 before and after, and no byte of the symbol index changes: the
    call only closes its transaction. (The number of candles is checked
    before the directory is looked at.) *)
Theorem C7_257th_symbol_rejected clock symbol interval candles w :
  reachable w -> IsInitialized w = true ->
  0 < Z.of_nat (length candles) <= MAX_CANDLES_PER_SYMBOL ->
  index_count w = MAX_SYMBOLS ->
  (forall i, 0 <= i < MAX_SYMBOLS -> GetSymbol w (entry_at i) <> stored_name symbol) ->
  let w' := snd (WriteCandles clock symbol interval candles w) in
  fst (WriteCandles clock symbol interval candles w) = SYMBOL_LIMIT_EXCEEDED /\
  header_symbol_count w = 256 /\
  index_count w' = 256 /\ header_symbol_count w' = 256 /\
  w' = end_write (clock 0%nat) (begin_write w) /\
  (forall a, SYMBOL_INDEX_OFFSET <= a < DATA_SECTIONS_OFFSET -> peek w' a = peek w a) /\
  (forall i, 0 <= i < MAX_SYMBOLS -> GetSymbol w' (entry_at i) = GetSymbol w (entry_at i)).
Proof.
  intros Hreach Hi Hn Hfull Hnew. cbv zeta.
  destruct (reachable_consistent w Hreach Hi) as [Hok _].
  assert (Find w symbol = None) as HF.
  { apply Find_None. intros i Hi1 Hi2 Heq.
    apply (Hnew i); [lia|].
    rewrite <- Heq. symmetry. apply GetSymbol_stored.
    apply (ok_entries _ Hok i). lia. }
  assert (WriteCandles clock symbol interval candles w
          = (SYMBOL_LIMIT_EXCEEDED, end_write (clock 0%nat) (begin_write w))) as E.
  { unfold WriteCandles. rewrite Hi. cbn [negb].
    destruct (Z.of_nat (length candles) =? 0) eqn:E0; [apply Z.eqb_eq in E0; lia|].
    destruct (MAX_CANDLES_PER_SYMBOL <? Z.of_nat (length candles)) eqn:E1;
      [apply Z.ltb_lt in E1; lia|].
    cbv zeta. unfold find_or_add_symbol.
    rewrite Find_begin_write, HF, index_count_begin_write, Hfull. reflexivity. }
  rewrite E. cbn [fst snd].
  assert (forall a, SYMBOL_INDEX_OFFSET <= a < DATA_SECTIONS_OFFSET ->
            peek (end_write (clock 0%nat) (begin_write w)) a = peek w a) as Hframe.
  { intros a Ha. rewrite peek_end_write_ne, peek_begin_write_ne by addr. reflexivity. }
  assert (index_count (end_write (clock 0%nat) (begin_write w)) = index_count w) as Ec.
  { apply load_le_ext. intros a Ha. apply Hframe. addr. }
  assert (header_symbol_count (end_write (clock 0%nat) (begin_write w))
          = header_symbol_count w) as Es.
  { apply load_le_ext. intros a Ha.
    rewrite peek_end_write_ne, peek_begin_write_ne by addr. reflexivity. }
  pose proof (ok_symbol_count _ Hok) as Hsc.
  split; [reflexivity|]. split; [now rewrite Hsc, Hfull|].
  split; [now rewrite Ec, Hfull|]. split; [now rewrite Es, Hsc, Hfull|].
  split; [reflexivity|]. split; [exact Hframe|].
  intros i Hi1. apply GetSymbol_ext. intros a Ha. apply Hframe. addr.
Qed.

Lemma forall_below (f : Z -> bool) n :
  forallb f (seqZ 0 n) = true -> forall i, 0 <= i < n -> f i = true.
Proof.
  intros H i Hi. rewrite forallb_forall in H. apply H.
  apply list_elem_of_In, elem_of_seqZ. lia.
Qed.

Lemma C7_witness :
  fst (WriteCandles tick "ZZ" "1h" (candles_upto 5) full_index) = SYMBOL_LIMIT_EXCEEDED /\
  index_count (snd (WriteCandles tick "ZZ" "1h" (candles_upto 5) full_index)) = 256.
Proof.
  assert (forall i, 0 <= i < MAX_SYMBOLS ->
            GetSymbol full_index (entry_at i) <> stored_name "ZZ") as Hnew.
  { assert (forallb
              (fun i => negb (String.eqb (GetSymbol full_index (entry_at i))
                                         (stored_name "ZZ")))
              (seqZ 0 MAX_SYMBOLS) = true) as Hall by (vm_compute; reflexivity).
    intros i Hi Heq.
    pose proof (forall_below _ _ Hall i Hi) as Hne. cbv beta in Hne.
    rewrite Heq, String.eqb_refl in Hne. discriminate. }
  assert (0 < Z.of_nat (length (candles_upto 5)) <= MAX_CANDLES_PER_SYMBOL) as Hlen.
  { rewrite candles_upto_length by lia. unfold MAX_CANDLES_PER_SYMBOL. lia. }
  assert (IsInitialized full_index = true) as Hi by (vm_compute; reflexivity).
  assert (index_count full_index = MAX_SYMBOLS) as Hfull by (vm_compute; reflexivity).
  pose proof (C7_257th_symbol_rejected tick "ZZ" "1h" (candles_upto 5) full_index
                reachable_full_index Hi Hlen Hfull Hnew) as H.
  cbv zeta in H. destruct H as (H1 & _ & H3 & _). exact (conj H1 H3).
Defined.

(** C7 (as stated) fails for calls that carry no candle or too many: with
    256 symbols in the directory, a call for a 257th symbol with an empty
    list returns [OK], and one with 100,001 candles returns
    [CANDLE_LIMIT_EXCEEDED]; neither returns [SYMBOL_LIMIT_EXCEEDED]. *)
Lemma C7_counterexample :
  IsInitialized full_index = true /\
  index_count full_index = 256 /\ header_symbol_count full_index = 256 /\
  forallb (fun i => negb (String.eqb (GetSymbol full_index (entry_at i))
                                     (stored_name "ZZ")))
          (seqZ 0 MAX_SYMBOLS) = true /\
  Find full_index "ZZ" = None /\
  fst (WriteCandles tick "ZZ" "1h" [] full_index) = OK /\
  Z.of_nat (length (replicate (Z.to_nat 100001) no_candle)) = 100001 /\
  fst (WriteCandles tick "ZZ" "1h" (replicate (Z.to_nat 100001) no_candle) full_index)
  = CANDLE_LIMIT_EXCEEDED.
Proof.
  repeat match goal with |- _ /\ _ => split end; vm_compute; reflexivity.
Qed.

(** ** The allocator, and how its failure surfaces *)

Lemma find_or_add_symbol_resolved symbol w e w2 :
  find_or_add_symbol symbol w = (Some e, w2) -> resolved symbol w e w2.
Proof.
  intros E.
  destruct (find_or_add_symbol_cases symbol w)
    as [(i & Hi & Hi' & HF & E') | [(HF & Hc & E') | (HF & Hc & E')]];
    rewrite E' in E; try discriminate; injection E as <- <-.
  - now apply resolved_found.
  - now apply resolved_added.
Qed.

Lemma WriteCandles_guards clock symbol interval candles w :
  IsInitialized w = true ->
  0 < Z.of_nat (length candles) <= MAX_CANDLES_PER_SYMBOL ->
  WriteCandles clock symbol interval candles w =
    match find_or_add_symbol symbol (begin_write w) with
    | (None, w) => (SYMBOL_LIMIT_EXCEEDED, end_write (clock 0%nat) w)
    | (Some entry, w) =>
        match allocate_or_reuse entry (RequiredSize (Z.of_nat (length candles))) w with
        | (None, w) => (WRITE_FAILED, end_write (clock 0%nat) w)
        | (Some data_offset, w) =>
            (OK, committed clock symbol interval candles entry data_offset w)
        end
    end.
Proof.
  intros Hi Hn. unfold WriteCandles. rewrite Hi. cbn [negb].
  destruct (Z.of_nat (length candles) =? 0) eqn:E0; [apply Z.eqb_eq in E0; lia|].
  destruct (MAX_CANDLES_PER_SYMBOL <? Z.of_nat (length candles)) eqn:E1;
    [apply Z.ltb_lt in E1; lia|].
  reflexivity.
Qed.

(** C5. [allocate_data_block(size)] returns the failure value 0, leaving
    everything as it was, exactly when cursor + size exceeds the size of
    the region; otherwise it returns the cursor, advances it by [size], and
    leaves every byte of the block zero and every other byte as it was.
    In [WriteCandles] the failure, and nothing else, comes out as
    [WRITE_FAILED]; on success the block header and the candles are stored
    into the zeroed block. The cursor is never 0 and cursor + size never
    wraps at the calls [WriteCandles] makes. *)
Theorem C5_allocate_data_block :
  (forall size w,
     0 < next_data_offset_ w -> 0 <= size -> next_data_offset_ w + size < 2 ^ 64 ->
     let r := allocate_data_block size w in
     (fst r = 0 <-> size_ w < next_data_offset_ w + size) /\
     (size_ w < next_data_offset_ w + size -> snd r = w) /\
     (next_data_offset_ w + size <= size_ w ->
        fst r = next_data_offset_ w /\
        next_data_offset_ (snd r) = next_data_offset_ w + size /\
        (forall a, fst r <= a < fst r + size -> peek (snd r) a = 0) /\
        (forall a, a < fst r \/ fst r + size <= a -> peek (snd r) a = peek w a))) /\
  (forall clock symbol interval candles w,
     reachable w -> IsInitialized w = true ->
     0 < Z.of_nat (length candles) <= MAX_CANDLES_PER_SYMBOL ->
     let required := RequiredSize (Z.of_nat (length candles)) in
     (fst (WriteCandles clock symbol interval candles w) = WRITE_FAILED <->
        exists e w2,
          find_or_add_symbol symbol (begin_write w) = (Some e, w2) /\
          needs_block required e w2 /\
          fst (allocate_data_block required w2) = 0) /\
     (forall e w2,
        find_or_add_symbol symbol (begin_write w) = (Some e, w2) ->
        0 < next_data_offset_ w2 /\ 0 <= required /\
        next_data_offset_ w2 + required < 2 ^ 64 /\
        (needs_block required e w2 ->
         fst (allocate_data_block required w2) <> 0 ->
         let off := fst (allocate_data_block required w2) in
         let w3 := snd (allocate_data_block required w2) in
         (forall a, off <= a < off + required -> peek w3 a = 0) /\
         WriteCandles clock symbol interval candles w =
           (OK, committed clock symbol interval candles e off
                  (store_u32 (store_u64 w3 (e + SymbolIndexEntry.data_offset) off)
                             (e + SymbolIndexEntry.data_size) required))))).
Proof.
  split.
  - intros size w Hpos Hsz Hno. cbv zeta.
    destruct (Z.lt_ge_cases (size_ w) (next_data_offset_ w + size)) as [Hfull|Hfit].
    + rewrite allocate_data_block_full by lia. cbn [fst snd].
      split; [tauto|]. split; [reflexivity | lia].
    + rewrite allocate_data_block_fits by lia. cbn [fst snd].
      split; [lia|]. split; [lia|]. intros _.
      split; [reflexivity|]. split; [reflexivity|]. split.
      * intros a Ha. now rewrite peek_memset_in by lia.
      * intros a Ha. now rewrite peek_memset_ne by lia.
  - intros clock symbol interval candles w Hreach Hi Hn. cbv zeta.
    destruct (reachable_consistent w Hreach Hi) as [Hok _].
    pose proof (index_ok_begin_write w Hok) as Hok1.
    assert (0 < RequiredSize (Z.of_nat (length candles)) < 2 ^ 32) as Hreq.
    { rewrite RequiredSize_eq by lia. addr. }
    rewrite (WriteCandles_guards clock symbol interval candles w Hi Hn).
    set (required := RequiredSize (Z.of_nat (length candles))) in *.
    assert (forall e w2,
              find_or_add_symbol symbol (begin_write w) = (Some e, w2) ->
              index_ok w2 /\ 0 < next_data_offset_ w2 /\
              next_data_offset_ w2 + required < 2 ^ 64) as Hcall.
    { intros e w2 E. apply find_or_add_symbol_resolved in E.
      destruct (resolved_facts _ _ _ _ Hok1 E) as (Hok2 & _).
      split; [exact Hok2|]. destruct Hok2 as [H1 H2 _ _ _]. addr. }
    split.
    + destruct (find_or_add_symbol symbol (begin_write w)) as [[e|] w2] eqn:EF.
      * destruct (Hcall e w2 eq_refl) as (Hok2 & Hpos & Hno).
        destruct (allocate_or_reuse_cases e required w2 Hok2 Hreq)
          as [(Hneed & [(Hfull & ->) | (Hfit & ->)]) | (Hnz & Hle & ->)]; cbn [fst].
        -- split; [intros _|reflexivity]. exists e, w2.
           rewrite allocate_data_block_full by lia. auto.
        -- split; [discriminate|]. intros (e' & w2' & E & _ & Hz).
           injection E as <- <-.
           rewrite allocate_data_block_fits in Hz by lia. cbn [fst] in Hz. lia.
        -- split; [discriminate|]. intros (e' & w2' & E & Hneed & _).
           injection E as <- <-. destruct Hneed; [contradiction | lia].
      * cbn [fst]. split; [discriminate|]. intros (e' & w2' & E & _). discriminate.
    + intros e w2 EF. destruct (Hcall e w2 EF) as (Hok2 & Hpos & Hno).
      split; [exact Hpos|]. split; [lia|]. split; [exact Hno|].
      intros Hneed Hnz. rewrite EF.
      destruct (allocate_or_reuse_cases e required w2 Hok2 Hreq)
        as [(_ & [(Hfull & E) | (Hfit & E)]) | (Hnz' & Hle & E)].
      * rewrite allocate_data_block_full in Hnz by lia. contradiction.
      * rewrite E. rewrite allocate_data_block_fits by lia. cbn [fst snd].
        split; [|reflexivity].
        intros a Ha. now rewrite peek_memset_in by lia.
      * destruct Hneed; [contradiction | lia].
Qed.

Lemma C5_witness :
  (fst (allocate_data_block 296 created) = 16640 /\
   next_data_offset_ (snd (allocate_data_block 296 created)) = 16936) /\
  (fst (allocate_data_block 2456 cramped) = 0 <-> 17000 < 16640 + 2456) /\
  (fst (WriteCandles tick "BTCUSDT" "1h" (candles_upto 50) cramped) = WRITE_FAILED <->
   exists e w2,
     find_or_add_symbol "BTCUSDT" (begin_write cramped) = (Some e, w2) /\
     needs_block (RequiredSize (Z.of_nat (length (candles_upto 50)))) e w2 /\
     fst (allocate_data_block (RequiredSize (Z.of_nat (length (candles_upto 50)))) w2) = 0).
Proof.
  assert (0 < Z.of_nat (length (candles_upto 50)) <= MAX_CANDLES_PER_SYMBOL) as Hlen.
  { rewrite candles_upto_length by lia. unfold MAX_CANDLES_PER_SYMBOL. lia. }
  split; [|split].
  - pose proof (proj1 C5_allocate_data_block 296 created) as H.
    cbv zeta in H.
    destruct H as (_ & _ & H);
      [vm_compute; reflexivity | lia | vm_compute; reflexivity |].
    destruct H as (H1 & H2 & _); [vm_compute; discriminate|].
    exact (conj H1 H2).
  - pose proof (proj1 C5_allocate_data_block 2456 cramped) as H.
    cbv zeta in H.
    destruct H as (H & _);
      [vm_compute; reflexivity | lia | vm_compute; reflexivity |].
    exact H.
  - exact (proj1 (proj2 C5_allocate_data_block tick "BTCUSDT"%string "1h"%string
                    (candles_upto 50) cramped reachable_cramped eq_refl Hlen)).
Defined.

(** ** What a committed write leaves in the index and in the block *)

Lemma load_le_end_write_ne n now w b :
  b + Z.of_nat n <= 16 \/ 32 <= b -> load_le n (end_write now w) b = load_le n w b.
Proof. intros H. apply load_le_ext. intros i Hi. apply peek_end_write_ne. lia. Qed.

Lemma load_le_begin_write_ne n w b :
  b + Z.of_nat n <= 24 \/ 32 <= b -> load_le n (begin_write w) b = load_le n w b.
Proof. intros H. apply load_le_ext. intros i Hi. apply peek_begin_write_ne. lia. Qed.

Lemma load_le_copy_candles_ne n cs w block k b :
  b + Z.of_nat n <= block + 56 + 48 * k \/
  block + 56 + 48 * (k + Z.of_nat (length cs)) <= b ->
  load_le n (copy_candles w block k cs) b = load_le n w b.
Proof. intros H. apply load_le_ext. intros i Hi. apply peek_copy_candles_ne. lia. Qed.

Lemma load_le_SetSymbol_ne n w obj s b :
  b + Z.of_nat n <= obj \/ obj + 16 <= b ->
  load_le n (SetSymbol w obj s) b = load_le n w b.
Proof. intros H. apply load_le_ext. intros i Hi. apply peek_SetSymbol_ne. lia. Qed.

Lemma load_le_SetInterval_ne n w block s b :
  b + Z.of_nat n <= block + 16 \/ block + 24 <= b ->
  load_le n (SetInterval w block s) b = load_le n w b.
Proof. intros H. apply load_le_ext. intros i Hi. apply peek_SetInterval_ne. lia. Qed.

Lemma load_le_populate_block_ne n symbol interval candles off w b :
  b + Z.of_nat n <= off \/ off + 56 + 48 * Z.of_nat (length candles) <= b ->
  load_le n (populate_block symbol interval candles off w) b = load_le n w b.
Proof. intros H. apply load_le_ext. intros i Hi. apply peek_populate_block_ne. lia. Qed.

Lemma load_le_committed_ne n clock symbol interval candles e off w b :
  (b + Z.of_nat n <= off \/ off + 56 + 48 * Z.of_nat (length candles) <= b) ->
  (b + Z.of_nat n <= e + 28 \/ e + 40 <= b) ->
  (b + Z.of_nat n <= 16 \/ 32 <= b) ->
  load_le n (committed clock symbol interval candles e off w) b = load_le n w b.
Proof.
  intros H1 H2 H3. apply load_le_ext. intros i Hi. apply peek_committed_ne; lia.
Qed.

Lemma load_le_allocated_ne n e req w b :
  (b + Z.of_nat n <= next_data_offset_ w \/ next_data_offset_ w + req <= b) ->
  (b + Z.of_nat n <= e + 16 \/ e + 28 <= b) ->
  load_le n (allocated e req w) b = load_le n w b.
Proof.
  intros H1 H2. apply load_le_ext. intros i Hi. apply peek_allocated_ne; lia.
Qed.

Lemma block_count_populate_block symbol interval candles off w :
  Z.of_nat (length candles) < 2 ^ 32 ->
  block_count (populate_block symbol interval candles off w) off
    = Z.of_nat (length candles) /\
  block_capacity (populate_block symbol interval candles off w) off
    = Z.of_nat (length candles).
Proof.
  intros Hn. unfold block_count, block_capacity, populate_block.
  rewrite !load_le_copy_candles_ne by addr.
  split.
  - rewrite !load_le_store_le_ne by addr. rewrite load_u32_store_u32.
    rewrite (uint32_small (Z.of_nat _)) by lia. apply uint32_small. lia.
  - rewrite !load_le_store_le_ne by addr. rewrite load_u32_store_u32.
    rewrite (uint32_small (Z.of_nat _)) by lia. apply uint32_small. lia.
Qed.

Lemma GetSymbol_populate_block symbol interval candles off w :
  GetSymbol (populate_block symbol interval candles off w) off = stored_name symbol.
Proof.
  unfold populate_block.
  rewrite (GetSymbol_ext (SetSymbol w off symbol)).
  - apply GetSymbol_SetSymbol.
  - intros i Hi. rewrite peek_copy_candles_ne by lia.
    rewrite !peek_store_le_ne by addr.
    apply peek_SetInterval_ne. lia.
Qed.

(** The reads of the state [committed] leaves, for an entry of the
    directory and a block in the data section. *)
Lemma committed_reads clock symbol interval candles e off w :
  is_entry e -> DATA_SECTIONS_OFFSET <= off ->
  Z.of_nat (length candles) < 2 ^ 32 ->
  let w' := committed clock symbol interval candles e off w in
  index_count w' = index_count w /\
  header_symbol_count w' = header_symbol_count w /\
  next_data_offset_ w' = next_data_offset_ w /\
  (forall s, Find w' s = Find w s) /\
  (forall i, 0 <= i < MAX_SYMBOLS ->
     GetSymbol w' (entry_at i) = GetSymbol w (entry_at i) /\
     entry_data_offset w' (entry_at i) = entry_data_offset w (entry_at i) /\
     entry_data_size w' (entry_at i) = entry_data_size w (entry_at i)) /\
  entry_candle_count w' e = Z.of_nat (length candles) /\
  entry_last_update_us w' e = uint64 (clock 0%nat) /\
  block_count w' off = Z.of_nat (length candles) /\
  block_capacity w' off = Z.of_nat (length candles) /\
  GetSymbol w' off = stored_name symbol.
Proof.
  intros (k & Hk & ->) Hoff Hn. cbv zeta.
  assert (index_count (committed clock symbol interval candles (entry_at k) off w)
          = index_count w) as Ec.
  { apply load_le_committed_ne; addr. }
  split; [exact Ec|].
  split; [apply load_le_committed_ne; addr|].
  split; [apply (same_object_committed clock symbol interval candles (entry_at k) off w)|].
  split.
  { intros s. apply Find_ext; [exact Ec|].
    intros i a Hi Ha. apply peek_committed_ne; addr. }
  split.
  { intros i Hi. split; [|split].
    - apply GetSymbol_ext. intros a Ha. apply peek_committed_ne; addr.
    - apply load_le_committed_ne; addr.
    - apply load_le_committed_ne; addr. }
  unfold committed.
  split.
  { unfold entry_candle_count.
    rewrite load_le_end_write_ne by addr. rewrite load_le_store_le_ne by addr.
    rewrite load_u32_store_u32.
    rewrite (uint32_small (Z.of_nat _)) by lia. apply uint32_small. lia. }
  split.
  { unfold entry_last_update_us.
    rewrite load_le_end_write_ne by addr. apply load_u64_store_u64. }
  destruct (block_count_populate_block symbol interval candles off w Hn) as [Hb1 Hb2].
  split; [|split].
  - unfold block_count in *.
    rewrite load_le_end_write_ne by addr. rewrite !load_le_store_le_ne by addr.
    exact Hb1.
  - unfold block_capacity in *.
    rewrite load_le_end_write_ne by addr. rewrite !load_le_store_le_ne by addr.
    exact Hb2.
  - rewrite <- (GetSymbol_populate_block symbol interval candles off w).
    apply GetSymbol_ext. intros i Hi.
    rewrite peek_end_write_ne by addr. rewrite !peek_store_le_ne by addr.
    reflexivity.
Qed.

Lemma allocated_reads e req w :
  is_entry e -> DATA_SECTIONS_OFFSET <= next_data_offset_ w < 2 ^ 64 ->
  0 <= req < 2 ^ 32 ->
  let w' := allocated e req w in
  index_count w' = index_count w /\
  header_symbol_count w' = header_symbol_count w /\
  next_data_offset_ w' = next_data_offset_ w + req /\
  (forall s, Find w' s = Find w s) /\
  (forall i, 0 <= i < MAX_SYMBOLS ->
     GetSymbol w' (entry_at i) = GetSymbol w (entry_at i) /\
     entry_candle_count w' (entry_at i) = entry_candle_count w (entry_at i) /\
     (entry_at i <> e ->
      entry_data_offset w' (entry_at i) = entry_data_offset w (entry_at i) /\
      entry_data_size w' (entry_at i) = entry_data_size w (entry_at i))) /\
  entry_data_offset w' e = next_data_offset_ w /\
  entry_data_size w' e = req.
Proof.
  intros (k & Hk & ->) Hcur Hreq. cbv zeta.
  assert (index_count (allocated (entry_at k) req w) = index_count w) as Ec.
  { apply load_le_allocated_ne; addr. }
  split; [exact Ec|].
  split; [apply load_le_allocated_ne; addr|].
  split; [reflexivity|].
  split.
  { intros s. apply Find_ext; [exact Ec|].
    intros i a Hi Ha. apply peek_allocated_ne; addr. }
  split.
  { intros i Hi. split; [|split].
    - apply GetSymbol_ext. intros a Ha. apply peek_allocated_ne; addr.
    - apply load_le_allocated_ne; addr.
    - intros Hne. assert (i <> k) by congruence.
      split; apply load_le_allocated_ne; addr. }
  split.
  - apply entry_data_offset_allocated. addr.
  - apply entry_data_size_allocated. lia.
Qed.

Lemma end_write_reads now w :
  let w' := end_write now w in
  index_count w' = index_count w /\
  header_symbol_count w' = header_symbol_count w /\
  next_data_offset_ w' = next_data_offset_ w /\
  (forall s, Find w' s = Find w s) /\
  (forall a, 32 <= a -> peek w' a = peek w a).
Proof.
  cbv zeta.
  assert (index_count (end_write now w) = index_count w) as Ec.
  { apply load_le_end_write_ne; addr. }
  split; [exact Ec|].
  split; [apply load_le_end_write_ne; addr|].
  split; [reflexivity|].
  split.
  - intros s. apply Find_ext; [exact Ec|].
    intros i a Hi Ha. apply peek_end_write_ne; addr.
  - intros a Ha. apply peek_end_write_ne. lia.
Qed.

Lemma entry_at_inj i j : entry_at i = entry_at j -> i = j.
Proof. addr. Qed.

Lemma Find_first w s i :
  0 <= i < index_count w -> i < MAX_SYMBOLS ->
  GetSymbol w (entry_at i) = s ->
  (forall j, 0 <= j < i -> GetSymbol w (entry_at j) <> s) ->
  Find w s = Some (entry_at i).
Proof.
  intros Hi Hi' Hs Hfirst.
  destruct (Find w s) as [e|] eqn:E.
  - destruct (Find_Some _ _ _ E) as (k & Hk & Hk' & -> & Hks & Hkfirst).
    f_equal. f_equal.
    destruct (Z.lt_trichotomy k i) as [Hlt|[Heq|Hgt]]; [|exact Heq|].
    + exfalso. apply (Hfirst k); [lia | exact Hks].
    + exfalso. apply (Hkfirst i); [lia | exact Hs].
  - exfalso. rewrite Find_None in E. now apply (E i).
Qed.

(** A name that does not fit in 15 bytes without a NUL is never found:
    the stored names are truncated, the name looked up is not. *)
Theorem unfit_symbol_never_resolves w symbol :
  reachable w -> IsInitialized w = true ->
  plain_name 15 symbol = false -> Find w symbol = None.
Proof.
  intros Hreach Hi Hplain.
  destruct (reachable_consistent w Hreach Hi) as [Hok _].
  apply Find_None. intros i Hi1 Hi2 Heq.
  assert (stored_name symbol = symbol) as Hst.
  { rewrite <- Heq. apply GetSymbol_stored. apply (ok_entries _ Hok i). lia. }
  apply plain_truncate in Hst.
  change (Z.to_nat (SYMBOL_NAME_SIZE - 1)) with 15%nat in Hst. congruence.
Qed.

Lemma find_or_add_symbol_found symbol w e :
  Find w symbol = Some e -> find_or_add_symbol symbol w = (Some e, w).
Proof. intros H. unfold find_or_add_symbol. now rewrite H. Qed.

(** A write for a symbol the directory resolves: the directory does not
    grow, the symbol keeps its entry; the block is reused in place when
    the candles fit in it, and replaced by a new block at the cursor when
    they do not. *)
Theorem write_to_resolved_symbol clock symbol interval candles w e :
  reachable w -> IsInitialized w = true ->
  0 < Z.of_nat (length candles) <= MAX_CANDLES_PER_SYMBOL ->
  Find w symbol = Some e ->
  let required := RequiredSize (Z.of_nat (length candles)) in
  let r := fst (WriteCandles clock symbol interval candles w) in
  let w' := snd (WriteCandles clock symbol interval candles w) in
  (index_count w' = index_count w /\
   header_symbol_count w' = header_symbol_count w /\
   Find w' symbol = Some e) /\
  (entry_data_offset w e <> 0 -> required <= entry_data_size w e ->
     r = OK /\
     entry_data_offset w' e = entry_data_offset w e /\
     entry_data_size w' e = entry_data_size w e /\
     next_data_offset_ w' = next_data_offset_ w /\
     block_count w' (entry_data_offset w e) = Z.of_nat (length candles) /\
     entry_candle_count w' e = Z.of_nat (length candles)) /\
  (entry_data_offset w e = 0 \/ entry_data_size w e < required ->
   next_data_offset_ w + required <= size_ w ->
     r = OK /\
     entry_data_offset w' e = next_data_offset_ w /\
     entry_data_size w' e = required /\
     next_data_offset_ w' = next_data_offset_ w + required /\
     block_count w' (next_data_offset_ w) = Z.of_nat (length candles) /\
     entry_candle_count w' e = Z.of_nat (length candles) /\
     (entry_data_offset w e <> 0 ->
        entry_data_offset w e < entry_data_offset w' e /\
        entry_data_offset w e + entry_data_size w e <= entry_data_offset w' e /\
        forall a, entry_data_offset w e <= a
                    < entry_data_offset w e + entry_data_size w e ->
                  peek w' a = peek w a)) /\
  (entry_data_offset w e = 0 \/ entry_data_size w e < required ->
   size_ w < next_data_offset_ w + required ->
     r = WRITE_FAILED /\
     entry_data_offset w' e = entry_data_offset w e /\
     entry_data_size w' e = entry_data_size w e /\
     next_data_offset_ w' = next_data_offset_ w).
Proof.
  intros Hreach Hi Hn HF. cbv zeta.
  destruct (reachable_consistent w Hreach Hi) as [Hok _].
  pose proof (index_ok_begin_write w Hok) as Hok1.
  destruct (Find_Some _ _ _ HF) as (k & Hk & Hk' & -> & _).
  assert (is_entry (entry_at k)) as He by (exists k; split; [addr | reflexivity]).
  assert (0 < RequiredSize (Z.of_nat (length candles)) < 2 ^ 32) as Hreq.
  { rewrite RequiredSize_eq by lia. addr. }
  assert (Z.of_nat (length candles) < 2 ^ 32) as Hn32 by addr.
  rewrite (WriteCandles_guards clock symbol interval candles w Hi Hn).
  rewrite (find_or_add_symbol_found symbol (begin_write w) (entry_at k))
    by (now rewrite Find_begin_write).
  set (w1 := begin_write w) in *.
  set (required := RequiredSize (Z.of_nat (length candles))) in *.
  assert (entry_data_offset w1 (entry_at k) = entry_data_offset w (entry_at k)) as Eo.
  { apply load_le_begin_write_ne. addr. }
  assert (entry_data_size w1 (entry_at k) = entry_data_size w (entry_at k)) as Ez.
  { apply load_le_begin_write_ne. addr. }
  assert (index_count w1 = index_count w) as Ec by apply index_count_begin_write.
  assert (header_symbol_count w1 = header_symbol_count w) as Es.
  { apply load_le_begin_write_ne. addr. }
  assert (Find w1 symbol = Some (entry_at k)) as HF1
    by (unfold w1; now rewrite Find_begin_write).
  pose proof (ok_cursor _ Hok1) as Hcur. pose proof (ok_size _ Hok1) as Hsz.
  change (next_data_offset_ w1) with (next_data_offset_ w) in *.
  change (size_ w1) with (size_ w) in *.
  pose proof (ok_entries _ Hok1 k ltac:(addr)) as [_ Hblk]. rewrite Eo, Ez in Hblk.
  destruct (allocate_or_reuse_cases (entry_at k) required w1 Hok1 Hreq)
    as [(Hneed & [(Hfull & ->) | (Hfit & ->)]) | (Hnz & Hle & ->)];
    rewrite ?Eo, ?Ez in *; cbn [fst snd];
    change (next_data_offset_ w1) with (next_data_offset_ w) in *;
    change (size_ w1) with (size_ w) in *.
  - (* the region is full *)
    destruct (end_write_reads (clock 0%nat) w1) as (R1 & R2 & R3 & R4 & R5).
    split; [rewrite R1, R2, R4; auto|].
    split; [intros; lia|]. split; [intros; lia|].
    intros _ _. split; [reflexivity|].
    unfold entry_data_offset, entry_data_size in *.
    rewrite !load_le_end_write_ne by addr. auto.
  - (* a new block *)
    assert (DATA_SECTIONS_OFFSET <= next_data_offset_ w < 2 ^ 64) as Hcur64 by addr.
    destruct (allocated_reads (entry_at k) required w1 He Hcur64 ltac:(lia))
      as (A1 & A2 & A3 & A4 & A5 & A6 & A7).
    change (next_data_offset_ w1) with (next_data_offset_ w) in *.
    destruct (committed_reads clock symbol interval candles (entry_at k)
                (next_data_offset_ w) (allocated (entry_at k) required w1)
                He ltac:(addr) Hn32)
      as (C1 & C2 & C3 & C4 & C5 & C6 & C7 & C8 & C9 & C10).
    destruct (C5 k ltac:(addr)) as (_ & C5o & C5z).
    split; [rewrite C1, C2, C4, A1, A2, A4; auto|].
    split; [intros; lia|]. split; [|intros; lia].
    intros _ _. split; [reflexivity|].
    split; [now rewrite C5o, A6|]. split; [now rewrite C5z, A7|].
    split; [now rewrite C3, A3|]. split; [exact C8|]. split; [exact C6|].
    intros Hnz. destruct Hblk as [Hblk|Hblk]; [contradiction|].
    rewrite C5o, A6. split; [lia|]. split; [lia|].
    intros a Ha.
    rewrite peek_committed_ne by addr.
    rewrite peek_allocated_ne
      by (change (next_data_offset_ w1) with (next_data_offset_ w); addr).
    apply peek_begin_write_ne. addr.
  - (* the block is reused *)
    destruct Hblk as [Hblk|Hblk]; [contradiction|].
    destruct (committed_reads clock symbol interval candles (entry_at k)
                (entry_data_offset w (entry_at k)) w1 He ltac:(lia) Hn32)
      as (C1 & C2 & C3 & C4 & C5 & C6 & C7 & C8 & C9 & C10).
    destruct (C5 k ltac:(addr)) as (_ & C5o & C5z).
    split; [rewrite C1, C2, C4; auto|].
    split; [|split; intros; lia].
    intros _ _. split; [reflexivity|].
    split; [now rewrite C5o|]. split; [now rewrite C5z|].
    split; [exact C3|]. split; [exact C8 | exact C6].
Qed.

Lemma Find_appended symbol w :
  index_ok w -> index_count w < MAX_SYMBOLS -> Find w symbol = None ->
  plain_name 15 symbol = true ->
  Find (appended symbol w) symbol = Some (entry_at (index_count w)).
Proof.
  intros Hok Hc HF Hplain. pose proof (index_count_range w) as Hr.
  apply Find_first.
  - rewrite index_count_appended by exact Hc. lia.
  - exact Hc.
  - rewrite GetSymbol_appended. now apply truncate_plain.
  - intros j Hj.
    rewrite (GetSymbol_ext w).
    + rewrite Find_None in HF. apply HF; addr.
    + intros a Ha. apply peek_appended_ne; addr.
Qed.

(** X21. After a write that was not turned away for lack of an index
    entry, a symbol that fits in 15 bytes resolves: to the entry it had,
    or to the one the write appended. *)
Theorem plain_symbol_resolves_after_write clock symbol interval candles w :
  reachable w -> IsInitialized w = true ->
  0 < Z.of_nat (length candles) <= MAX_CANDLES_PER_SYMBOL ->
  plain_name 15 symbol = true ->
  fst (WriteCandles clock symbol interval candles w) <> SYMBOL_LIMIT_EXCEEDED ->
  let w' := snd (WriteCandles clock symbol interval candles w) in
  exists e,
    is_entry e /\ Find w' symbol = Some e /\
    (Find w symbol = Some e /\ index_count w' = index_count w \/
     Find w symbol = None /\ e = entry_at (index_count w) /\
     index_count w' = index_count w + 1).
Proof.
  intros Hreach Hi Hn Hplain Hres. cbv zeta.
  destruct (Find w symbol) as [e|] eqn:HF.
  - destruct (write_to_resolved_symbol clock symbol interval candles w e
                Hreach Hi Hn HF) as ((H1 & _ & H3) & _).
    destruct (Find_Some _ _ _ HF) as (k & Hk & Hk' & -> & _).
    exists (entry_at k). split; [exists k; split; [addr | reflexivity]|]. auto.
  - destruct (reachable_consistent w Hreach Hi) as [Hok _].
    pose proof (index_ok_begin_write w Hok) as Hok1.
    assert (0 < RequiredSize (Z.of_nat (length candles)) < 2 ^ 32) as Hreq.
    { rewrite RequiredSize_eq by lia. addr. }
    assert (Z.of_nat (length candles) < 2 ^ 32) as Hn32 by addr.
    rewrite (WriteCandles_guards clock symbol interval candles w Hi Hn) in *.
    pose proof (index_count_begin_write w) as Ec.
    pose proof (Find_begin_write w symbol) as EF. rewrite HF in EF.
    destruct (find_or_add_symbol_cases symbol (begin_write w))
      as [(i & _ & _ & HF1 & _) | [(_ & _ & E) | (_ & Hc & E)]].
    + congruence.
    + rewrite E in Hres. cbn [fst] in Hres. contradiction.
    + rewrite E in *. rewrite Ec in *.
      pose proof (Find_appended symbol (begin_write w) Hok1
                    ltac:(rewrite Ec; exact Hc) EF Hplain) as HF2.
      rewrite Ec in HF2.
      pose proof (index_count_appended symbol (begin_write w)
                    ltac:(rewrite Ec; exact Hc)) as Ec2.
      rewrite Ec in Ec2.
      pose proof (index_ok_appended symbol (begin_write w)
                    ltac:(rewrite Ec; exact Hc) Hok1) as Hok2.
      pose proof (index_count_range w) as Hr.
      assert (is_entry (entry_at (index_count w))) as He
        by (exists (index_count w); split; [addr | reflexivity]).
      exists (entry_at (index_count w)). split; [exact He|].
      set (w2 := appended symbol (begin_write w)) in *.
      pose proof (ok_cursor _ Hok2) as Hcur. pose proof (ok_size _ Hok2) as Hsz.
      destruct (allocate_or_reuse_cases (entry_at (index_count w)) _ w2 Hok2 Hreq)
        as [(Hneed & [(Hfull & ->) | (Hfit & ->)]) | (Hnz & Hle & ->)]; cbn [fst snd].
      * destruct (end_write_reads (clock 0%nat) w2) as (R1 & _ & _ & R4 & _).
        rewrite R1, R4. auto.
      * destruct (allocated_reads (entry_at (index_count w))
                    (RequiredSize (Z.of_nat (length candles))) w2 He
                    ltac:(addr) ltac:(lia)) as (A1 & _ & _ & A4 & _).
        destruct (committed_reads clock symbol interval candles
                    (entry_at (index_count w)) (next_data_offset_ w2)
                    (allocated (entry_at (index_count w))
                       (RequiredSize (Z.of_nat (length candles))) w2)
                    He ltac:(addr) Hn32) as (C1 & _ & _ & C4 & _).
        rewrite C1, C4, A1, A4. auto.
      * assert (DATA_SECTIONS_OFFSET <= entry_data_offset w2 (entry_at (index_count w)))
          as Hoff.
        { destruct (ok_entries _ Hok2 (index_count w) ltac:(addr))
            as [_ [H0|[H0 _]]]; [contradiction | exact H0]. }
        destruct (committed_reads clock symbol interval candles
                    (entry_at (index_count w))
                    (entry_data_offset w2 (entry_at (index_count w))) w2
                    He Hoff Hn32) as (C1 & _ & _ & C4 & _).
        rewrite C1, C4. auto.
Qed.

(** A write for a symbol the directory does not resolve appends an entry
    whenever there is room, whether or not the write then succeeds. *)
Theorem write_to_unresolved_symbol_appends clock symbol interval candles w :
  reachable w -> IsInitialized w = true ->
  0 < Z.of_nat (length candles) <= MAX_CANDLES_PER_SYMBOL ->
  Find w symbol = None -> index_count w < MAX_SYMBOLS ->
  let w' := snd (WriteCandles clock symbol interval candles w) in
  index_count w' = index_count w + 1 /\
  header_symbol_count w' = index_count w + 1 /\
  GetSymbol w' (entry_at (index_count w)) = stored_name symbol.
Proof.
  intros Hreach Hi Hn HF Hc. cbv zeta.
  destruct (reachable_consistent w Hreach Hi) as [Hok _].
  pose proof (index_ok_begin_write w Hok) as Hok1.
  assert (0 < RequiredSize (Z.of_nat (length candles)) < 2 ^ 32) as Hreq.
  { rewrite RequiredSize_eq by lia. addr. }
  assert (Z.of_nat (length candles) < 2 ^ 32) as Hn32 by addr.
  rewrite (WriteCandles_guards clock symbol interval candles w Hi Hn).
  pose proof (index_count_begin_write w) as Ec.
  pose proof (Find_begin_write w symbol) as EF. rewrite HF in EF.
  pose proof (index_count_range w) as Hr.
  destruct (find_or_add_symbol_cases symbol (begin_write w))
    as [(i & _ & _ & HF1 & _) | [(_ & Hfull & _) | (_ & Hc1 & E)]];
    [congruence | lia |].
  rewrite E, Ec.
  pose proof (index_count_appended symbol (begin_write w) Hc1) as Ec2.
  pose proof (header_symbol_count_appended symbol (begin_write w) Hc1) as Es2.
  pose proof (GetSymbol_appended symbol (begin_write w)) as Eg2.
  pose proof (index_ok_appended symbol (begin_write w) Hc1 Hok1) as Hok2.
  rewrite Ec in Ec2, Es2, Eg2.
  assert (is_entry (entry_at (index_count w))) as He
    by (exists (index_count w); split; [addr | reflexivity]).
  set (w2 := appended symbol (begin_write w)) in *.
  pose proof (ok_cursor _ Hok2) as Hcur. pose proof (ok_size _ Hok2) as Hsz.
  destruct (allocate_or_reuse_cases (entry_at (index_count w)) _ w2 Hok2 Hreq)
    as [(Hneed & [(Hfull & ->) | (Hfit & ->)]) | (Hnz & Hle & ->)]; cbn [fst snd].
  - destruct (end_write_reads (clock 0%nat) w2) as (R1 & R2 & _ & _ & R5).
    rewrite R1, R2. split; [exact Ec2|]. split; [exact Es2|].
    rewrite <- Eg2. apply GetSymbol_ext. intros a Ha. apply R5. addr.
  - destruct (allocated_reads (entry_at (index_count w))
                (RequiredSize (Z.of_nat (length candles))) w2 He
                ltac:(addr) ltac:(lia)) as (A1 & A2 & _ & _ & A5 & _).
    destruct (committed_reads clock symbol interval candles
                (entry_at (index_count w)) (next_data_offset_ w2)
                (allocated (entry_at (index_count w))
                   (RequiredSize (Z.of_nat (length candles))) w2)
                He ltac:(addr) Hn32) as (C1 & C2 & _ & _ & C5 & _).
    destruct (C5 (index_count w) ltac:(addr)) as (C5g & _).
    destruct (A5 (index_count w) ltac:(addr)) as (A5g & _).
    rewrite C1, C2, A1, A2, C5g, A5g. auto.
  - assert (DATA_SECTIONS_OFFSET <= entry_data_offset w2 (entry_at (index_count w)))
      as Hoff.
    { destruct (ok_entries _ Hok2 (index_count w) ltac:(addr))
        as [_ [H0|[H0 _]]]; [contradiction | exact H0]. }
    destruct (committed_reads clock symbol interval candles
                (entry_at (index_count w))
                (entry_data_offset w2 (entry_at (index_count w))) w2
                He Hoff Hn32) as (C1 & C2 & _ & _ & C5 & _).
    destruct (C5 (index_count w) ltac:(addr)) as (C5g & _).
    rewrite C1, C2, C5g. auto.
Qed.

(** X20. Every write for a name that does not fit in 15 bytes appends
    one more entry, until the directory is full. *)
Theorem unfit_symbol_appends_every_time clock symbol interval candles w :
  reachable w -> IsInitialized w = true ->
  0 < Z.of_nat (length candles) <= MAX_CANDLES_PER_SYMBOL ->
  plain_name 15 symbol = false -> index_count w < MAX_SYMBOLS ->
  let w' := snd (WriteCandles clock symbol interval candles w) in
  index_count w' = index_count w + 1 /\
  header_symbol_count w' = index_count w + 1.
Proof.
  intros Hreach Hi Hn Hplain Hc. cbv zeta.
  pose proof (unfit_symbol_never_resolves w symbol Hreach Hi Hplain) as HF.
  destruct (write_to_unresolved_symbol_appends clock symbol interval candles w
              Hreach Hi Hn HF Hc) as (H1 & H2 & _).
  auto.
Qed.

(** ** The footprint of the stores *)

Ltac size_simpl :=
  cbn [size_ store_le poke set_shm memset SetSymbol SetInterval
       set_next_data_offset set_region length].

Lemma in_bounds_poke w a bs :
  0 <= a -> a + Z.of_nat (length bs) <= size_ w ->
  in_bounds w -> in_bounds (poke w a bs).
Proof.
  intros H1 H2 H. unfold in_bounds, poke. cbn.
  constructor; [cbn; lia | exact H].
Qed.

Lemma in_bounds_store_le n w a v :
  0 <= a -> a + Z.of_nat n <= size_ w ->
  in_bounds w -> in_bounds (store_le n w a v).
Proof.
  intros H1 H2 H. unfold store_le. apply in_bounds_poke; [exact H1 | | exact H].
  now rewrite encode_le_length.
Qed.

Lemma in_bounds_memset w a c n :
  0 <= a -> 0 <= n -> a + n <= size_ w ->
  in_bounds w -> in_bounds (memset w a c n).
Proof.
  intros H1 H2 H3 H. unfold memset. apply in_bounds_poke; [exact H1 | | exact H].
  rewrite length_replicate. lia.
Qed.

Lemma in_bounds_SetSymbol w obj s :
  0 <= obj -> obj + 16 <= size_ w ->
  in_bounds w -> in_bounds (SetSymbol w obj s).
Proof.
  intros H1 H2 H. unfold SetSymbol.
  apply in_bounds_poke; [addr | size_simpl; addr |].
  apply in_bounds_poke; [exact H1 | | exact H].
  rewrite strncpy_bytes_length. addr.
Qed.

Lemma in_bounds_SetInterval w block s :
  0 <= block -> block + 24 <= size_ w ->
  in_bounds w -> in_bounds (SetInterval w block s).
Proof.
  intros H1 H2 H. unfold SetInterval.
  apply in_bounds_poke; [addr | size_simpl; addr |].
  apply in_bounds_poke; [addr | | exact H].
  rewrite strncpy_bytes_length. addr.
Qed.

Lemma in_bounds_copy_candles cs : forall w block k,
  0 <= block -> 0 <= k ->
  block + 56 + 48 * (k + Z.of_nat (length cs)) <= size_ w ->
  in_bounds w -> in_bounds (copy_candles w block k cs).
Proof.
  induction cs as [|c cs IH]; intros w block k Hb Hk Hs H; cbn [copy_candles];
    [exact H|].
  cbn [length] in Hs.
  apply IH; [exact Hb | lia | size_simpl; lia |].
  repeat (apply in_bounds_store_le; [addr | size_simpl; addr |]).
  exact H.
Qed.

Lemma in_bounds_populate_block symbol interval candles off w :
  0 <= off -> off + 56 + 48 * Z.of_nat (length candles) <= size_ w ->
  in_bounds w -> in_bounds (populate_block symbol interval candles off w).
Proof.
  intros H1 H2 H. unfold populate_block.
  apply in_bounds_copy_candles; [exact H1 | lia | size_simpl; lia |].
  repeat (apply in_bounds_store_le; [addr | size_simpl; addr |]).
  apply in_bounds_SetInterval; [exact H1 | size_simpl; lia |].
  apply in_bounds_SetSymbol; [exact H1 | lia | exact H].
Qed.

Lemma in_bounds_begin_write w :
  32 <= size_ w -> in_bounds w -> in_bounds (begin_write w).
Proof. intros Hs H. unfold begin_write. apply in_bounds_store_le; [addr | addr | exact H]. Qed.

Lemma in_bounds_end_write now w :
  32 <= size_ w -> in_bounds w -> in_bounds (end_write now w).
Proof.
  intros Hs H. unfold end_write.
  repeat (apply in_bounds_store_le; [addr | size_simpl; addr |]). exact H.
Qed.

Lemma in_bounds_appended symbol w :
  index_count w < MAX_SYMBOLS -> 10504 <= size_ w ->
  in_bounds w -> in_bounds (appended symbol w).
Proof.
  intros Hc Hs H. pose proof (index_count_range w) as Hr. unfold appended.
  apply in_bounds_store_le; [addr | size_simpl; addr |].
  apply in_bounds_SetSymbol; [addr | size_simpl; addr |].
  apply in_bounds_store_le; [addr | addr | exact H].
Qed.

Lemma in_bounds_allocated e req w :
  is_entry e -> 10504 <= size_ w ->
  0 <= next_data_offset_ w -> 0 <= req -> next_data_offset_ w + req <= size_ w ->
  in_bounds w -> in_bounds (allocated e req w).
Proof.
  intros (k & Hk & ->) Hs Hn Hreq Hfit H. unfold allocated.
  repeat (apply in_bounds_store_le; [addr | size_simpl; addr |]).
  apply in_bounds_memset; [exact Hn | exact Hreq | exact Hfit | exact H].
Qed.

Lemma in_bounds_committed clock symbol interval candles e off w :
  is_entry e -> 10504 <= size_ w ->
  0 <= off -> off + 56 + 48 * Z.of_nat (length candles) <= size_ w ->
  in_bounds w -> in_bounds (committed clock symbol interval candles e off w).
Proof.
  intros (k & Hk & ->) Hs Hoff Hfit H. unfold committed.
  destruct (same_object_populate_block symbol interval candles off w)
    as (_ & Hsz & _).
  apply in_bounds_end_write; [size_simpl; lia|].
  repeat (apply in_bounds_store_le; [addr | size_simpl; rewrite ?Hsz; addr |]).
  now apply in_bounds_populate_block.
Qed.

Lemma in_bounds_transaction clock symbol interval candles w1 r w' :
  index_ok w1 -> 10504 <= size_ w1 ->
  0 < Z.of_nat (length candles) <= MAX_CANDLES_PER_SYMBOL ->
  transaction clock symbol interval candles w1 r w' ->
  in_bounds w1 -> in_bounds w'.
Proof.
  intros Hok Hs Hn Ht Hin.
  assert (RequiredSize (Z.of_nat (length candles))
          = 56 + 48 * Z.of_nat (length candles)) as Ereq
    by (apply RequiredSize_eq; lia).
  destruct Ht as [HF Hc | e w2 Hres Hneed Hfull | e w2 Hres Hneed Hfit
                 | e w2 Hres Hnz Hle].
  - apply in_bounds_end_write; [lia | exact Hin].
  - destruct (resolved_facts _ _ _ _ Hok Hres) as (_ & _ & (_ & Hsz & _) & _).
    apply in_bounds_end_write; [lia|].
    destruct Hres; [exact Hin | now apply in_bounds_appended].
  - destruct (resolved_facts _ _ _ _ Hok Hres) as (Hok2 & He & (_ & Hsz & _) & _).
    pose proof (ok_cursor _ Hok2) as Hcur.
    change (size_ (allocated e (RequiredSize (Z.of_nat (length candles))) w2))
      with (size_ w2) in *.
    apply in_bounds_committed;
      [exact He
      | change (size_ (allocated e (RequiredSize (Z.of_nat (length candles))) w2))
          with (size_ w2); lia
      | addr
      | change (size_ (allocated e (RequiredSize (Z.of_nat (length candles))) w2))
          with (size_ w2); lia |].
    apply in_bounds_allocated; [exact He | lia | addr | lia | exact Hfit |].
    destruct Hres; [exact Hin | now apply in_bounds_appended].
  - destruct (resolved_facts _ _ _ _ Hok Hres) as (Hok2 & He & (_ & Hsz & _) & _).
    pose proof (ok_cursor _ Hok2) as Hcur.
    assert (DATA_SECTIONS_OFFSET <= entry_data_offset w2 e /\
            0 < entry_data_size w2 e /\
            entry_data_offset w2 e + entry_data_size w2 e <= next_data_offset_ w2)
      as (Ho1 & Ho2 & Ho3).
    { destruct He as (k & Hk & ->).
      destruct (ok_entries _ Hok2 k Hk) as [_ [H0|H0]]; [contradiction | exact H0]. }
    apply in_bounds_committed; [exact He | lia | addr | addr |].
    destruct Hres; [exact Hin | now apply in_bounds_appended].
Qed.

Lemma in_bounds_set_next_data_offset w o :
  in_bounds w -> in_bounds (set_next_data_offset w o).
Proof. intros H. exact H. Qed.

Lemma in_bounds_set_region w p :
  in_bounds w -> in_bounds (set_region w p).
Proof. intros H. exact H. Qed.

Lemma size_store_le n w a v : size_ (store_le n w a v) = size_ w.
Proof. reflexivity. Qed.

Lemma in_bounds_initialize_region pid now w :
  10504 <= size_ w -> written (shm w) = [] ->
  in_bounds (initialize_region pid now w).
Proof.
  intros Hs Hw. unfold initialize_region.
  apply in_bounds_set_next_data_offset.
  assert (in_bounds (set_region w (base_ptr_ w))) as H0.
  { apply in_bounds_set_region. unfold in_bounds. rewrite Hw. constructor. }
  assert (10504 <= size_ (set_region w (base_ptr_ w))) as Hs0 by exact Hs.
  revert H0 Hs0. generalize (set_region w (base_ptr_ w)). intros w0 H0 Hs0.
  apply in_bounds_memset; [addr | addr | rewrite !size_store_le; addr |].
  repeat (apply in_bounds_store_le; [addr | rewrite ?size_store_le; addr |]).
  exact H0.
Qed.

(** X19. In a region of at least 10,504 bytes (header plus the 256
    entries of the directory) no store of the writer falls outside the
    region. *)
Theorem stores_stay_in_region w :
  reachable w -> IsInitialized w = true -> 10504 <= size_ w -> in_bounds w.
Proof.
  induction 1 as [| os pid now name size w _ IH | w _ _
                 | clock symbol interval candles w Hreach IH].
  - discriminate.
  - destruct (Create_cases os pid now name size w)
      as [(_ & ->) | [(_ & _ & ->) | [(_ & _ & err & w' & -> & _ & Hr & _)
         | (_ & Hs & content & w0 & _ & -> & Hs0 & _ & Hm)]]]; cbn [snd];
      try exact IH.
    + unfold IsInitialized. rewrite Hr. discriminate.
    + intros _ Hsz. apply in_bounds_initialize_region.
      * exact Hsz.
      * now rewrite Hm.
  - discriminate.
  - destruct (IsInitialized w) eqn:Hi;
      [|rewrite WriteCandles_untouched by auto; rewrite Hi; discriminate].
    destruct (Z.eq_dec (Z.of_nat (length candles)) 0) as [H0|H0];
      [rewrite WriteCandles_untouched by auto; rewrite Hi; exact IH|].
    destruct (Z.lt_ge_cases MAX_CANDLES_PER_SYMBOL (Z.of_nat (length candles)))
      as [H1|H1];
      [rewrite WriteCandles_untouched by auto; rewrite Hi; exact IH|].
    destruct (reachable_consistent w Hreach Hi) as [Hok _].
    assert (0 < Z.of_nat (length candles) <= MAX_CANDLES_PER_SYMBOL) as Hn by lia.
    pose proof (WriteCandles_transaction clock symbol interval candles w Hi Hok Hn)
      as Ht.
    pose proof (index_ok_begin_write w Hok) as Hok1.
    destruct (transaction_effect _ _ _ _ _ _ _ Hok1 Hn Ht) as (_ & _ & Hsz & _).
    intros _ Hs. rewrite Hsz in Hs. change (size_ (begin_write w)) with (size_ w) in Hs.
    apply (in_bounds_transaction _ _ _ _ _ _ _ Hok1 Hs Hn Ht).
    apply in_bounds_begin_write; [lia|]. now apply IH.
Qed.

(** ** Where the code departs from the specification *)

(** C3. [Create] accepts 4,352 bytes, and [initialize_region] then clears
    the 256 directory entries at bytes 264 to 10,503: the stores of the
    initialization leave the region. (For regions of at least 10,504
    bytes they do not, see [stores_stay_in_region].) *)
Theorem C3_initialization_overruns_minimal_region :
  fst (Create os_fresh 4242 (tick 0) "test" 4352 new_writer) = OK /\
  size_ minimal = 4352 /\
  written (shm minimal) =
    [(264, 10240); (256, 4); (40, 4); (36, 4); (32, 4); (24, 8); (16, 8);
     (12, 4); (8, 4); (4, 4); (0, 4)] /\
  ~ in_bounds minimal.
Proof.
  assert (written (shm minimal) =
    [(264, 10240); (256, 4); (40, 4); (36, 4); (32, 4); (24, 8); (16, 8);
     (12, 4); (8, 4); (4, 4); (0, 4)]) as E by (vm_compute; reflexivity).
  assert (size_ minimal = 4352) as Es by (vm_compute; reflexivity).
  split; [vm_compute; reflexivity|]. split; [exact Es|]. split; [exact E|].
  unfold in_bounds. rewrite E, Es. intros H.
  apply Forall_cons in H as [H _]. cbn [fst snd] in H. lia.
Qed.

(** C2. Two successful writes for the same 16-byte symbol: the second
    does not resolve to the entry of the first (the stored name is
    truncated to 15 bytes, the name looked up is not) and appends a
    second entry with the same stored name; both counts go from 1 to 2. *)
Theorem C2_long_symbol_gets_two_entries :
  fst (WriteCandles tick long_symbol "1h" (candles_upto 5) created) = OK /\
  fst (WriteCandles tick long_symbol "1h" (candles_upto 5) long_once) = OK /\
  index_count long_once = 1 /\ header_symbol_count long_once = 1 /\
  Find long_once long_symbol = None /\
  index_count long_twice = 2 /\ header_symbol_count long_twice = 2 /\
  GetSymbol long_twice (entry_at 0) = "ABCDEFGHIJKLMNO"%string /\
  GetSymbol long_twice (entry_at 1) = "ABCDEFGHIJKLMNO"%string.
Proof.
  repeat match goal with |- _ /\ _ => split end; vm_compute; reflexivity.
Qed.

(** C6. 50 candles and then 10 for the same 16-byte symbol: the 10
    candles fit in the first block (536 of 2,456 bytes), but the second
    write does not find the entry, so the first block keeps its 50 candles
    and a second block is allocated behind it for a second entry. (For a
    symbol the directory resolves, the block is reused or replaced as the
    claim says, see [write_to_resolved_symbol].) *)
Theorem C6_long_symbol_block_not_reused :
  fst (WriteCandles tick long_symbol "1h" (candles_upto 50) created) = OK /\
  fst (WriteCandles tick long_symbol "1h" (candles_upto 10) long_fifty) = OK /\
  entry_data_offset long_fifty (entry_at 0) = 16640 /\
  entry_data_size long_fifty (entry_at 0) = 2456 /\
  RequiredSize 10 = 536 /\
  entry_data_offset long_fifty_ten (entry_at 0) = 16640 /\
  block_count long_fifty_ten 16640 = 50 /\
  entry_candle_count long_fifty_ten (entry_at 0) = 50 /\
  index_count long_fifty_ten = 2 /\
  entry_data_offset long_fifty_ten (entry_at 1) = 19096 /\
  block_count long_fifty_ten 19096 = 10 /\
  next_data_offset_ long_fifty_ten = 19632.
Proof.
  repeat match goal with |- _ /\ _ => split end; vm_compute; reflexivity.
Qed.

(** * Beyond the transaction protocol: what a write leaves for readers *)

(** ** Reading a block back *)

Lemma GetInterval_SetInterval w block s :
  GetInterval (SetInterval w block s) block = truncate_name 7 s.
Proof.
  unfold GetInterval, SetInterval.
  change (Z.to_nat INTERVAL_SIZE) with 8%nat.
  change (Z.to_nat (INTERVAL_SIZE - 1)) with 7%nat.
  change (INTERVAL_SIZE - 1) with 7.
  rewrite <- string_of_array_strncpy. f_equal.
  apply load_bytes_spec.
  - rewrite length_app, strncpy_bytes_length. reflexivity.
  - intros j Hj.
    pose proof (strncpy_bytes_length 7 s) as Hl.
    pose proof (strncpy_bytes_byte 7 s) as Hb.
    destruct (Z.eq_dec j 7) as [->|Hne].
    + rewrite peek_poke_in by (cbn [length]; lia).
      replace (block + OHLCVDataBlock.interval + 7
               - (block + OHLCVDataBlock.interval + 7)) with 0 by lia.
      rewrite app_nth2 by lia. rewrite Hl. reflexivity.
    + rewrite peek_poke_ne by (cbn [length]; lia).
      rewrite peek_poke_in by lia.
      replace (block + OHLCVDataBlock.interval + j
               - (block + OHLCVDataBlock.interval)) with j by lia.
      rewrite app_nth1 by lia.
      apply Z.mod_small.
      rewrite Forall_forall in Hb. apply Hb. apply list_elem_of_In, nth_In. lia.
Qed.

Lemma load_candle_ext w w' block i :
  (forall a, block + 56 + 48 * i <= a < block + 56 + 48 * (i + 1) ->
             peek w' a = peek w a) ->
  load_candle w' block i = load_candle w block i.
Proof.
  intros H. unfold load_candle. cbv zeta.
  f_equal; apply load_le_ext; intros a Ha; apply H; addr.
Qed.

Lemma load_candle_copy_candles cs : forall w block k i,
  (i < length cs)%nat ->
  load_candle (copy_candles w block k cs) block (k + Z.of_nat i)
  = wrap_candle (nth i cs no_candle).
Proof.
  induction cs as [|c cs IH]; intros w block k i Hi; [cbn in Hi; lia|].
  cbn [copy_candles length] in *.
  destruct i as [|i].
  - change (Z.of_nat 0) with 0. rewrite (Z.add_0_r k). cbn [nth].
    rewrite (load_candle_ext
      (store_u64 (store_u64 (store_u64 (store_u64 (store_u64 (store_u64 w
         (block + OHLCVDataBlock.candles + k * Candle.sizeof + Candle.timestamp)
         (timestamp c))
         (block + OHLCVDataBlock.candles + k * Candle.sizeof + Candle.open) (open c))
         (block + OHLCVDataBlock.candles + k * Candle.sizeof + Candle.high) (high c))
         (block + OHLCVDataBlock.candles + k * Candle.sizeof + Candle.low) (low c))
         (block + OHLCVDataBlock.candles + k * Candle.sizeof + Candle.close) (close c))
         (block + OHLCVDataBlock.candles + k * Candle.sizeof + Candle.volume)
         (volume c))).
    + unfold load_candle, wrap_candle. cbv zeta.
      f_equal; rewrite ?load_le_store_le_ne by addr; apply load_u64_store_u64.
    + intros a Ha. apply peek_copy_candles_ne. lia.
  - replace (k + Z.of_nat (S i)) with (k + 1 + Z.of_nat i) by lia.
    cbn [nth]. apply IH. lia.
Qed.

Lemma populate_block_reads symbol interval candles off w :
  GetInterval (populate_block symbol interval candles off w) off
    = truncate_name 7 interval /\
  block_start_timestamp (populate_block symbol interval candles off w) off
    = uint64 (timestamp (hd no_candle candles)) /\
  block_end_timestamp (populate_block symbol interval candles off w) off
    = uint64 (timestamp (List.last candles no_candle)) /\
  forall i, (i < length candles)%nat ->
    load_candle (populate_block symbol interval candles off w) off (Z.of_nat i)
    = wrap_candle (nth i candles no_candle).
Proof.
  unfold populate_block. split; [|split; [|split]].
  - rewrite <- (GetInterval_SetInterval (SetSymbol w off symbol) off interval).
    unfold GetInterval. f_equal. apply load_bytes_ext. intros a Ha.
    change (Z.of_nat (Z.to_nat INTERVAL_SIZE)) with 8 in Ha.
    rewrite peek_copy_candles_ne by addr.
    rewrite !peek_store_le_ne by addr. reflexivity.
  - unfold block_start_timestamp.
    rewrite load_le_copy_candles_ne by addr.
    rewrite load_le_store_le_ne by addr. apply load_u64_store_u64.
  - unfold block_end_timestamp.
    rewrite load_le_copy_candles_ne by addr. apply load_u64_store_u64.
  - intros i Hi.
    apply (load_candle_copy_candles candles _ off 0 i Hi).
Qed.

Lemma committed_block_written clock symbol interval candles e off w :
  is_entry e -> DATA_SECTIONS_OFFSET <= off ->
  Z.of_nat (length candles) < 2 ^ 32 ->
  block_written clock symbol interval candles
    (committed clock symbol interval candles e off w) e off.
Proof.
  intros He Hoff Hn.
  destruct (committed_reads clock symbol interval candles e off w He Hoff Hn)
    as (_ & _ & _ & _ & _ & C6 & C7 & C8 & C9 & C10).
  destruct (populate_block_reads symbol interval candles off w)
    as (P1 & P2 & P3 & P4).
  destruct He as (k & Hk & ->).
  assert (forall a, off <= a ->
            peek (committed clock symbol interval candles (entry_at k) off w) a
            = peek (populate_block symbol interval candles off w) a) as Hf.
  { intros a Ha. unfold committed.
    rewrite peek_end_write_ne by addr. rewrite !peek_store_le_ne by addr.
    reflexivity. }
  constructor; try assumption.
  - rewrite <- P1. unfold GetInterval. f_equal. apply load_bytes_ext.
    intros a Ha. apply Hf. addr.
  - rewrite <- P2. apply load_le_ext. intros a Ha. apply Hf. addr.
  - rewrite <- P3. apply load_le_ext. intros a Ha. apply Hf. addr.
  - intros i Hi. rewrite <- (P4 i Hi). apply load_candle_ext.
    intros a Ha. apply Hf. addr.
Qed.

(** ** The effect of a write, path by path *)

Lemma settle_effect clock symbol interval candles w w2 k :
  0 <= k < MAX_SYMBOLS ->
  0 < Z.of_nat (length candles) <= MAX_CANDLES_PER_SYMBOL ->
  index_ok w2 ->
  size_ w2 = size_ w -> next_data_offset_ w2 = next_data_offset_ w ->
  (forall a, (a < 16 \/ 36 <= a) -> (a < 256 \/ 260 <= a) ->
             (a < entry_at k \/ entry_at k + 16 <= a) -> peek w2 a = peek w a) ->
  (forall w', index_count w' = index_count w2 ->
              header_symbol_count w' = header_symbol_count w2 ->
              (forall a, entry_at k <= a < entry_at k + 16 -> peek w' a = peek w2 a) ->
              entry_effect symbol w w' k) ->
  let X := match allocate_or_reuse (entry_at k)
                   (RequiredSize (Z.of_nat (length candles))) w2 with
           | (None, w3) => (WRITE_FAILED, end_write (clock 0%nat) w3)
           | (Some off, w3) =>
               (OK, committed clock symbol interval candles (entry_at k) off w3)
           end in
  write_effect clock symbol interval candles w (snd X) (fst X).
Proof.
  intros Hk Hn Hok2 Hsz Hnx F2 P. cbv zeta.
  assert (RequiredSize (Z.of_nat (length candles))
          = 56 + 48 * Z.of_nat (length candles)) as Ereq
    by (apply RequiredSize_eq; lia).
  assert (0 < RequiredSize (Z.of_nat (length candles)) < 2 ^ 32) as Hreq
    by (rewrite Ereq; addr).
  assert (Z.of_nat (length candles) < 2 ^ 32) as Hn32 by addr.
  assert (is_entry (entry_at k)) as He by (exists k; auto).
  assert (entry_data_offset w2 (entry_at k) = entry_data_offset w (entry_at k)) as Eo.
  { apply load_le_ext. intros a Ha. apply F2; addr. }
  assert (entry_data_size w2 (entry_at k) = entry_data_size w (entry_at k)) as Ez.
  { apply load_le_ext. intros a Ha. apply F2; addr. }
  pose proof (ok_cursor _ Hok2) as Hcur. pose proof (ok_size _ Hok2) as Hsize.
  destruct (allocate_or_reuse_cases (entry_at k) _ w2 Hok2 Hreq)
    as [(Hneed & [(Hfull & ->) | (Hfit & ->)]) | (Hnz & Hle & ->)]; cbn [fst snd].
  - (* the region is full *)
    destruct (end_write_reads (clock 0%nat) w2) as (R1 & R2 & R3 & _ & R5).
    apply (eff_write_failed _ _ _ _ _ _ k Hk).
    + apply P; [exact R1 | exact R2 |]. intros a Ha. apply R5. addr.
    + unfold needs_block in *. now rewrite <- Eo, <- Ez.
    + lia.
    + now rewrite R3.
    + intros a Ha. rewrite R5 by addr. apply F2; addr.
    + intros a H1 H2 H3 _. rewrite peek_end_write_ne by addr. apply F2; addr.
  - (* a new block *)
    destruct (allocated_reads (entry_at k) (RequiredSize (Z.of_nat (length candles)))
                w2 He ltac:(addr) ltac:(lia))
      as (A1 & A2 & A3 & _ & _ & A6 & A7).
    destruct (committed_reads clock symbol interval candles (entry_at k)
                (next_data_offset_ w2)
                (allocated (entry_at k) (RequiredSize (Z.of_nat (length candles))) w2)
                He ltac:(addr) Hn32)
      as (C1 & C2 & C3 & _ & C5 & _).
    destruct (C5 k Hk) as (_ & C5o & C5z).
    pose proof (committed_block_written clock symbol interval candles (entry_at k)
                  (next_data_offset_ w2)
                  (allocated (entry_at k) (RequiredSize (Z.of_nat (length candles))) w2)
                  He ltac:(addr) Hn32) as Hbw.
    rewrite Hnx in *.
    apply (eff_allocated _ _ _ _ _ _ k Hk).
    + apply P; [now rewrite C1, A1 | now rewrite C2, A2 |].
      intros a Ha. rewrite peek_committed_ne by addr.
      apply peek_allocated_ne; rewrite ?Hnx; addr.
    + unfold needs_block in *. now rewrite <- Eo, <- Ez.
    + lia.
    + now rewrite C3, A3.
    + now rewrite C5o, A6.
    + now rewrite C5z, A7.
    + exact Hbw.
    + intros a H1 H2 H3 H4. rewrite peek_committed_ne by addr.
      rewrite peek_allocated_ne by (rewrite ?Hnx; addr). apply F2; addr.
  - (* the block is reused *)
    assert (DATA_SECTIONS_OFFSET <= entry_data_offset w2 (entry_at k)) as Hoff.
    { destruct (ok_entries _ Hok2 k Hk) as [_ [H0|[H0 _]]];
        [contradiction | exact H0]. }
    destruct (committed_reads clock symbol interval candles (entry_at k)
                (entry_data_offset w2 (entry_at k)) w2 He Hoff Hn32)
      as (C1 & C2 & C3 & _ & C5 & _).
    destruct (C5 k Hk) as (_ & C5o & C5z).
    pose proof (committed_block_written clock symbol interval candles (entry_at k)
                  (entry_data_offset w2 (entry_at k)) w2 He Hoff Hn32) as Hbw.
    rewrite Eo in *. rewrite Ez in *.
    apply (eff_reused _ _ _ _ _ _ k Hk).
    + apply P; [exact C1 | exact C2 |].
      intros a Ha. apply peek_committed_ne; addr.
    + exact Hnz.
    + exact Hle.
    + now rewrite C3.
    + exact C5o.
    + exact C5z.
    + exact Hbw.
    + intros a H1 H2 H3 H4. rewrite peek_committed_ne by addr. apply F2; addr.
Qed.

(** Every call of [WriteCandles] that opens a transaction has one of the
    four effects of [write_effect]. *)
Theorem WriteCandles_write_effect clock symbol interval candles w :
  reachable w -> IsInitialized w = true ->
  0 < Z.of_nat (length candles) <= MAX_CANDLES_PER_SYMBOL ->
  write_effect clock symbol interval candles w
    (snd (WriteCandles clock symbol interval candles w))
    (fst (WriteCandles clock symbol interval candles w)).
Proof.
  intros Hreach Hi Hn.
  destruct (reachable_consistent w Hreach Hi) as [Hok _].
  pose proof (index_ok_begin_write w Hok) as Hok1.
  pose proof (index_count_begin_write w) as Ec.
  pose proof (Find_begin_write w symbol) as EF.
  pose proof (index_count_range w) as Hr.
  assert (header_symbol_count (begin_write w) = header_symbol_count w) as Es.
  { apply load_le_begin_write_ne. addr. }
  rewrite (WriteCandles_guards clock symbol interval candles w Hi Hn).
  destruct (find_or_add_symbol_cases symbol (begin_write w))
    as [(i & Hi1 & Hi2 & HF1 & ->) | [(HF1 & Hc & ->) | (HF1 & Hc & ->)]].
  - (* the symbol has an entry *)
    rewrite Ec in Hi1. rewrite EF in HF1.
    apply (settle_effect clock symbol interval candles w (begin_write w) i);
      try assumption; try reflexivity; [addr | |].
    + intros a H1 H2 H3. apply peek_begin_write_ne. lia.
    + intros w' E1 E2 E3. left.
      split; [exact HF1|]. split; [lia|].
      split; [now rewrite E1|]. split; [now rewrite E2|].
      intros a Ha. rewrite E3 by exact Ha. apply peek_begin_write_ne. addr.
  - (* the directory is full *)
    cbn [fst snd]. rewrite Ec in Hc. rewrite EF in HF1.
    now apply eff_symbol_limit.
  - (* an entry is appended *)
    rewrite EF in HF1.
    pose proof (index_ok_appended symbol (begin_write w) Hc Hok1) as Hok2.
    pose proof (index_count_appended symbol (begin_write w) Hc) as Ec2.
    pose proof (header_symbol_count_appended symbol (begin_write w) Hc) as Es2.
    pose proof (GetSymbol_appended symbol (begin_write w)) as Eg2.
    pose proof (peek_appended_last symbol (begin_write w)) as El2.
    assert (forall a, (a < 16 \/ 36 <= a) -> (a < 256 \/ 260 <= a) ->
              (a < entry_at (index_count w) \/ entry_at (index_count w) + 16 <= a) ->
              peek (appended symbol (begin_write w)) a = peek w a) as F2.
    { intros a H1 H2 H3.
      rewrite peek_appended_ne by (rewrite ?Ec; addr).
      apply peek_begin_write_ne. lia. }
    rewrite Ec in *.
    apply (settle_effect clock symbol interval candles w
             (appended symbol (begin_write w)) (index_count w));
      try assumption; try reflexivity; [addr|].
    intros w' E1 E2 E3. right.
    split; [exact HF1|]. split; [reflexivity|].
    split; [now rewrite E1|]. split; [now rewrite E2|]. split.
    + rewrite <- Eg2. apply GetSymbol_ext. exact E3.
    + rewrite E3 by addr. exact El2.
Qed.

Lemma write_effect_OK clock symbol interval candles w w' :
  index_ok w ->
  0 < Z.of_nat (length candles) <= MAX_CANDLES_PER_SYMBOL ->
  write_effect clock symbol interval candles w w' OK ->
  exists k off,
    0 <= k < MAX_SYMBOLS /\ entry_effect symbol w w' k /\
    DATA_SECTIONS_OFFSET <= off /\
    entry_data_offset w' (entry_at k) = off /\
    RequiredSize (Z.of_nat (length candles)) <= entry_data_size w' (entry_at k) /\
    off + entry_data_size w' (entry_at k) <= next_data_offset_ w' /\
    next_data_offset_ w <= next_data_offset_ w' /\
    block_written clock symbol interval candles w' (entry_at k) off /\
    frame_except w w' k off (off + RequiredSize (Z.of_nat (length candles))) /\
    ((off = next_data_offset_ w /\
      entry_data_size w' (entry_at k) = RequiredSize (Z.of_nat (length candles)) /\
      next_data_offset_ w' = next_data_offset_ w + RequiredSize (Z.of_nat (length candles)) /\
      needs_block (RequiredSize (Z.of_nat (length candles))) (entry_at k) w)
     \/
     (off = entry_data_offset w (entry_at k) /\
      entry_data_size w' (entry_at k) = entry_data_size w (entry_at k) /\
      next_data_offset_ w' = next_data_offset_ w /\
      entry_data_offset w (entry_at k) <> 0)).
Proof.
  intros Hok Hn Heff.
  assert (0 < RequiredSize (Z.of_nat (length candles))) as Hreq
    by (rewrite RequiredSize_eq by lia; addr).
  pose proof (ok_cursor _ Hok) as Hcur.
  remember OK as r eqn:Er.
  destruct Heff as [ | k | k Hk He Hneed Hfit Hnx Ho Hz Hbw Hfr
                   | k Hk He Hnz Hle Hnx Ho Hz Hbw Hfr]; try discriminate.
  - exists k, (next_data_offset_ w).
    repeat (split; [first [assumption | lia]|]).
    left. auto.
  - destruct (ok_entries _ Hok k Hk) as [_ [H0|(H0 & H1 & H2)]]; [contradiction|].
    exists k, (entry_data_offset w (entry_at k)).
    repeat (split; [first [assumption | lia]|]).
    right. auto.
Qed.

Lemma entry_effect_other symbol w w' k i :
  entry_effect symbol w w' k -> 0 <= i < MAX_SYMBOLS ->
  Find w symbol <> Some (entry_at i) ->
  (Find w symbol = None -> i <> index_count w) ->
  i <> k.
Proof.
  intros [(HF & _) | (HF & -> & _)] Hi H1 H2 ->; [contradiction | now apply H2].
Qed.

(** ** A write leaves the other symbols alone *)

Lemma effect_entry_frame clock symbol interval candles w w' r i :
  index_ok w ->
  write_effect clock symbol interval candles w w' r ->
  0 <= i < MAX_SYMBOLS ->
  Find w symbol <> Some (entry_at i) ->
  (Find w symbol = None -> i <> index_count w) ->
  forall a, entry_at i <= a < entry_at i + 40 -> peek w' a = peek w a.
Proof.
  intros Hok Heff Hi H1 H2 a Ha.
  pose proof (ok_cursor _ Hok) as Hcur.
  destruct Heff as [HF Hc -> | k Hk He Hneed Hfull Hnx Hsame Hfr
                   | k Hk He Hneed Hfit Hnx Ho Hz Hbw Hfr
                   | k Hk He Hnz Hle Hnx Ho Hz Hbw Hfr].
  - rewrite peek_end_write_ne, peek_begin_write_ne by addr. reflexivity.
  - pose proof (entry_effect_other _ _ _ _ _ He Hi H1 H2). apply Hfr; addr.
  - pose proof (entry_effect_other _ _ _ _ _ He Hi H1 H2). apply Hfr; addr.
  - pose proof (entry_effect_other _ _ _ _ _ He Hi H1 H2).
    destruct (ok_entries _ Hok k Hk) as [_ [H0|(H0 & _)]]; [contradiction|].
    apply Hfr; addr.
Qed.

Lemma effect_block_frame clock symbol interval candles w w' r i :
  index_ok w -> blocks_disjoint w ->
  write_effect clock symbol interval candles w w' r ->
  0 <= i < MAX_SYMBOLS ->
  Find w symbol <> Some (entry_at i) ->
  (Find w symbol = None -> i <> index_count w) ->
  entry_data_offset w (entry_at i) <> 0 ->
  forall a, entry_data_offset w (entry_at i) <= a
              < entry_data_offset w (entry_at i) + entry_data_size w (entry_at i) ->
            peek w' a = peek w a.
Proof.
  intros Hok Hdis Heff Hi H1 H2 Hnzi a Ha.
  pose proof (ok_cursor _ Hok) as Hcur.
  destruct (ok_entries _ Hok i Hi) as [_ [H0|(Hi0 & Hi1 & Hi2)]]; [contradiction|].
  destruct Heff as [HF Hc -> | k Hk He Hneed Hfull Hnx Hsame Hfr
                   | k Hk He Hneed Hfit Hnx Ho Hz Hbw Hfr
                   | k Hk He Hnz Hle Hnx Ho Hz Hbw Hfr].
  - rewrite peek_end_write_ne, peek_begin_write_ne by addr. reflexivity.
  - apply Hfr; addr.
  - apply Hfr; addr.
  - pose proof (entry_effect_other _ _ _ _ _ He Hi H1 H2) as Hne.
    destruct (Hdis i k Hi Hk Hne Hnzi Hnz) as [Hd|Hd]; apply Hfr; addr.
Qed.

(** ** The soundness of the region is kept by every write *)

Lemma entry_fields_ext w w' e :
  (forall a, e <= a < e + 40 -> peek w' a = peek w a) ->
  entry_data_offset w' e = entry_data_offset w e /\
  entry_data_size w' e = entry_data_size w e /\
  entry_candle_count w' e = entry_candle_count w e /\
  GetSymbol w' e = GetSymbol w e.
Proof.
  intros H. repeat split;
    try (apply load_le_ext; intros a Ha; apply H; addr).
  apply GetSymbol_ext. intros a Ha. apply H. lia.
Qed.

Lemma block_header_ext w w' b :
  (forall a, b <= a < b + 56 -> peek w' a = peek w a) ->
  block_count w' b = block_count w b /\
  block_capacity w' b = block_capacity w b /\
  GetSymbol w' b = GetSymbol w b.
Proof.
  intros H. repeat split;
    try (apply load_le_ext; intros a Ha; apply H; addr).
  apply GetSymbol_ext. intros a Ha. apply H. lia.
Qed.

Lemma effect_header_frame clock symbol interval candles w w' r :
  index_ok w ->
  write_effect clock symbol interval candles w w' r ->
  forall a, a < 16 \/ 36 <= a < 256 -> peek w' a = peek w a.
Proof.
  intros Hok Heff a Ha.
  pose proof (ok_cursor _ Hok) as Hcur.
  destruct Heff as [HF Hc -> | k Hk He Hneed Hfull Hnx Hsame Hfr
                   | k Hk He Hneed Hfit Hnx Ho Hz Hbw Hfr
                   | k Hk He Hnz Hle Hnx Ho Hz Hbw Hfr].
  - rewrite peek_end_write_ne, peek_begin_write_ne by addr. reflexivity.
  - apply Hfr; addr.
  - apply Hfr; addr.
  - destruct (ok_entries _ Hok k Hk) as [_ [H0|(H0 & _)]]; [contradiction|].
    apply Hfr; addr.
Qed.

Lemma header_sound_ext w w' :
  (forall a, a < 16 \/ 36 <= a < 256 -> peek w' a = peek w a) ->
  header_sound w -> header_sound w'.
Proof.
  intros H (H1 & H2 & H3 & H4).
  unfold header_sound, Header_IsValid, header_magic, header_version,
    header_reader_pid, header_flags, header_crc32 in *.
  rewrite !(load_le_ext 4 w w') by (intros a Ha; apply H; addr).
  auto.
Qed.

Lemma effect_counts clock symbol interval candles w w' r :
  write_effect clock symbol interval candles w w' r ->
  (index_count w' = index_count w /\ Find w symbol <> None \/
   index_count w' = index_count w /\ r = SYMBOL_LIMIT_EXCEEDED \/
   index_count w' = index_count w + 1 /\ Find w symbol = None /\
   r <> SYMBOL_LIMIT_EXCEEDED).
Proof.
  intros Heff.
  assert (forall k, entry_effect symbol w w' k -> r <> SYMBOL_LIMIT_EXCEEDED ->
            index_count w' = index_count w /\ Find w symbol <> None \/
            index_count w' = index_count w /\ r = SYMBOL_LIMIT_EXCEEDED \/
            index_count w' = index_count w + 1 /\ Find w symbol = None /\
            r <> SYMBOL_LIMIT_EXCEEDED) as G.
  { intros k [(HF & _ & Hc & _) | (HF & _ & Hc & _)] Hr.
    - left. split; [exact Hc | congruence].
    - right; right. auto. }
  destruct Heff as [HF Hc -> | k Hk He | k Hk He | k Hk He];
    try (apply (G k He); discriminate).
  right; left. split; [|reflexivity].
  apply load_le_ext. intros a Ha.
  rewrite peek_end_write_ne, peek_begin_write_ne by addr. reflexivity.
Qed.

Lemma unused_clear_effect clock symbol interval candles w w' r :
  index_ok w -> unused_clear w ->
  write_effect clock symbol interval candles w w' r ->
  unused_clear w'.
Proof.
  intros Hok Hun Heff i a Hi Ha.
  pose proof (index_count_nonneg w) as Hc0.
  assert (index_count w <= index_count w') as Hmono.
  { destruct (effect_counts _ _ _ _ _ _ _ Heff) as [(E & _)|[(E & _)|(E & _)]]; lia. }
  rewrite <- (Hun i a); [|lia | exact Ha].
  apply (effect_entry_frame _ _ _ _ _ _ _ i Hok Heff); [lia | | | exact Ha].
  - intros HF. destruct (Find_Some _ _ _ HF) as (j & Hj & _ & Hej & _).
    apply entry_at_inj in Hej. lia.
  - intros HF ->.
    destruct (effect_counts _ _ _ _ _ _ _ Heff) as [(E & Hne)|[(E & Er)|(E & _)]];
      [contradiction | | lia].
    subst r. remember SYMBOL_LIMIT_EXCEEDED as r eqn:Er.
    destruct Heff; try discriminate. addr.
Qed.

Lemma header_sound_effect clock symbol interval candles w w' r :
  index_ok w -> header_sound w ->
  write_effect clock symbol interval candles w w' r ->
  header_sound w'.
Proof.
  intros Hok Hh Heff. apply (header_sound_ext w); [|exact Hh].
  apply (effect_header_frame _ _ _ _ _ _ _ Hok Heff).
Qed.

Lemma effect_blocks clock symbol interval candles w w' r :
  index_ok w ->
  write_effect clock symbol interval candles w w' r ->
  (forall i, 0 <= i < MAX_SYMBOLS ->
     entry_data_offset w' (entry_at i) = entry_data_offset w (entry_at i) /\
     entry_data_size w' (entry_at i) = entry_data_size w (entry_at i))
  \/
  (exists k, 0 <= k < MAX_SYMBOLS /\
     entry_data_offset w' (entry_at k) = next_data_offset_ w /\
     forall i, 0 <= i < MAX_SYMBOLS -> i <> k ->
       entry_data_offset w' (entry_at i) = entry_data_offset w (entry_at i) /\
       entry_data_size w' (entry_at i) = entry_data_size w (entry_at i)).
Proof.
  intros Hok Heff.
  pose proof (ok_cursor _ Hok) as Hcur.
  assert (forall k lo hi i, DATA_SECTIONS_OFFSET <= lo -> frame_except w w' k lo hi ->
            0 <= k < MAX_SYMBOLS -> 0 <= i < MAX_SYMBOLS -> i <> k ->
            entry_data_offset w' (entry_at i) = entry_data_offset w (entry_at i) /\
            entry_data_size w' (entry_at i) = entry_data_size w (entry_at i)) as G.
  { intros k lo hi i Hlo Hfr Hk Hi Hik.
    split; apply load_le_ext; intros a Ha; apply Hfr; addr. }
  destruct Heff as [HF Hc -> | k Hk He Hneed Hfull Hnx Hsame Hfr
                   | k Hk He Hneed Hfit Hnx Ho Hz Hbw Hfr
                   | k Hk He Hnz Hle Hnx Ho Hz Hbw Hfr].
  - left. intros i Hi. split; apply load_le_ext; intros a Ha;
      rewrite peek_end_write_ne, peek_begin_write_ne by addr; reflexivity.
  - left. intros i Hi. destruct (Z.eq_dec i k) as [->|Hik].
    + split; apply load_le_ext; intros a Ha; apply Hsame; addr.
    + split; apply load_le_ext; intros a Ha; apply Hfr; addr.
  - right. exists k. split; [exact Hk|]. split; [exact Ho|].
    intros i Hi Hik. apply (G k _ _ i (proj1 Hcur) Hfr Hk Hi Hik).
  - left. intros i Hi. destruct (Z.eq_dec i k) as [->|Hik]; [auto|].
    destruct (ok_entries _ Hok k Hk) as [_ [H0|(H0 & _)]]; [contradiction|].
    apply (G k _ _ i H0 Hfr Hk Hi Hik).
Qed.

Lemma blocks_disjoint_effect clock symbol interval candles w w' r :
  index_ok w -> blocks_disjoint w ->
  write_effect clock symbol interval candles w w' r ->
  blocks_disjoint w'.
Proof.
  intros Hok Hdis Heff i j Hi Hj Hij.
  destruct (effect_blocks _ _ _ _ _ _ _ Hok Heff) as [U | (k & Hk & Ho & U)].
  - destruct (U i Hi) as [-> ->]. destruct (U j Hj) as [-> ->].
    apply Hdis; assumption.
  - assert (forall i j, 0 <= j < MAX_SYMBOLS -> j <> k -> i = k ->
              entry_data_offset w' (entry_at j) <> 0 ->
              entry_data_offset w' (entry_at j) + entry_data_size w' (entry_at j)
                <= entry_data_offset w' (entry_at i)) as G.
    { intros i0 j0 Hj0 Hjk -> Hnz. rewrite Ho.
      destruct (U j0 Hj0 Hjk) as [Eo Ez]. rewrite Eo, Ez in *.
      destruct (ok_entries _ Hok j0 Hj0) as [_ [H0|(_ & _ & H0)]];
        [contradiction | exact H0]. }
    destruct (Z.eq_dec i k) as [Eik|Hik]; [|destruct (Z.eq_dec j k) as [Ejk|Hjk]].
    + intros _ Hnz. right. apply G; [exact Hj | lia | exact Eik | exact Hnz].
    + intros Hnz _. left. apply G; [exact Hi | lia | exact Ejk | exact Hnz].
    + destruct (U i Hi Hik) as [-> ->]. destruct (U j Hj Hjk) as [-> ->].
      apply Hdis; assumption.
Qed.

Lemma entry_agrees_ext w w' i :
  (forall a, entry_at i <= a < entry_at i + 40 -> peek w' a = peek w a) ->
  (entry_data_offset w (entry_at i) <> 0 ->
   forall a, entry_data_offset w (entry_at i) <= a
               < entry_data_offset w (entry_at i) + 56 -> peek w' a = peek w a) ->
  entry_agrees w i -> entry_agrees w' i.
Proof.
  intros E B [A0 A1].
  destruct (entry_fields_ext _ _ _ E) as (Eo & Ez & Ec & Eg).
  unfold entry_agrees; cbv zeta. rewrite Eo, Ez, Ec, Eg.
  split; [exact A0|]. intros Hnz.
  destruct (block_header_ext _ _ _ (B Hnz)) as (Bc & Bk & Bg).
  unfold TotalSize. rewrite Bc, Bk, Bg. apply A1, Hnz.
Qed.

Lemma entry_agrees_block_size w i :
  entry_agrees w i -> entry_data_offset w (entry_at i) <> 0 ->
  56 <= entry_data_size w (entry_at i).
Proof.
  intros [_ A1] Hnz. destruct (A1 Hnz) as (Ec & _ & Hn & Ht & _).
  unfold TotalSize in Ht. rewrite Ec in Ht.
  unfold uint64 in Ht. rewrite Z.mod_small in Ht; addr.
Qed.

Lemma entry_agrees_effect clock symbol interval candles w w' r :
  index_ok w -> unused_clear w -> blocks_disjoint w ->
  (forall i, 0 <= i < MAX_SYMBOLS -> entry_agrees w i) ->
  0 < Z.of_nat (length candles) <= MAX_CANDLES_PER_SYMBOL ->
  write_effect clock symbol interval candles w w' r ->
  forall i, 0 <= i < MAX_SYMBOLS -> entry_agrees w' i.
Proof.
  intros Hok Hun Hdis Hag Hn Heff i Hi.
  pose proof (ok_cursor _ Hok) as Hcur.
  pose proof (index_count_nonneg w) as Hc0.
  pose proof (Hag i Hi) as Hagi.
  pose proof (entry_agrees_block_size w i Hagi) as Hsz.
  assert (entry_data_offset w (entry_at i) <> 0 ->
          DATA_SECTIONS_OFFSET <= entry_data_offset w (entry_at i) /\
          entry_data_offset w (entry_at i) + entry_data_size w (entry_at i)
            <= next_data_offset_ w) as Hblk.
  { intros Hnz. destruct (ok_entries _ Hok i Hi) as [_ [H0|(H0 & _ & H1)]];
      [contradiction | auto]. }
  pose proof Heff as Heff0.
  destruct Heff as [HF Hc -> | k Hk He Hneed Hfull Hnx Hsame Hfr
                   | k Hk He Hneed Hfit Hnx Ho Hz Hbw Hfr
                   | k Hk He Hnz Hle Hnx Ho Hz Hbw Hfr].
  - (* the directory is full *)
    apply (entry_agrees_ext w); [| |exact Hagi].
    + intros a Ha. rewrite peek_end_write_ne, peek_begin_write_ne by addr. reflexivity.
    + intros Hnz a Ha. specialize (Hblk Hnz).
      rewrite peek_end_write_ne, peek_begin_write_ne by addr. reflexivity.
  - (* the region is full *)
    destruct (Z.eq_dec i k) as [->|Hik].
    + destruct He as [(HF & Hlt & _ & _ & Hname) | (HF & -> & _)].
      * apply (entry_agrees_ext w); [| |exact Hagi].
        -- intros a Ha. destruct (Z_lt_dec a (entry_at k + 16));
             [apply Hname | apply Hsame]; lia.
        -- intros Hnz a Ha. specialize (Hblk Hnz). apply Hfr; addr.
      * assert (entry_data_offset w' (entry_at (index_count w)) = 0) as E0.
        { apply load_le_zero. intros a Ha.
          rewrite Hsame by addr. apply (Hun (index_count w)); addr. }
        assert (entry_candle_count w' (entry_at (index_count w)) = 0) as E1.
        { apply load_le_zero. intros a Ha.
          rewrite Hsame by addr. apply (Hun (index_count w)); addr. }
        unfold entry_agrees; cbv zeta. split; [auto | contradiction].
    + apply (entry_agrees_ext w); [| |exact Hagi].
      * intros a Ha. apply Hfr; addr.
      * intros Hnz a Ha. specialize (Hblk Hnz). apply Hfr; addr.
  - (* a new block *)
    destruct (Z.eq_dec i k) as [->|Hik].
    + unfold entry_agrees; cbv zeta. rewrite Ho. split; [addr|]. intros _.
      destruct Hbw as [B1 _ B3 B4 B5 _ _ _ _].
      unfold TotalSize. rewrite B1, B3, B4, B5, Hz.
      repeat split; try lia.
      * rewrite RequiredSize_eq by lia. unfold uint64. rewrite Z.mod_small; addr.
      * destruct He as [(HF & Hlt & _ & _ & Hname) | (HF & -> & _ & _ & Hg & _)];
          [|now rewrite Hg].
        rewrite (GetSymbol_ext w w') by exact Hname.
        destruct (Find_Some _ _ _ HF) as (j & _ & _ & Ej & Hg & _).
        apply entry_at_inj in Ej. subst j.
        rewrite <- Hg at 1. apply GetSymbol_stored.
        apply (ok_entries _ Hok k Hk).
    + apply (entry_agrees_ext w); [| |exact Hagi].
      * intros a Ha. apply Hfr; addr.
      * intros Hnz a Ha. specialize (Hblk Hnz). specialize (Hsz Hnz). apply Hfr; addr.
  - (* the block is reused *)
    destruct (ok_entries _ Hok k Hk) as [_ [H0|(H0 & H1 & H2)]]; [contradiction|].
    destruct (Z.eq_dec i k) as [->|Hik].
    + unfold entry_agrees; cbv zeta. rewrite Ho. split; [contradiction|]. intros _.
      destruct Hbw as [B1 _ B3 B4 B5 _ _ _ _].
      unfold TotalSize. rewrite B1, B3, B4, B5, Hz.
      repeat split; try lia.
      * rewrite RequiredSize_eq in Hle by lia. unfold uint64. rewrite Z.mod_small; addr.
      * destruct He as [(HF & Hlt & _ & _ & Hname) | (HF & -> & _ & _ & Hg & _)];
          [|now rewrite Hg].
        rewrite (GetSymbol_ext w w') by exact Hname.
        destruct (Find_Some _ _ _ HF) as (j & _ & _ & Ej & Hg & _).
        apply entry_at_inj in Ej. subst j.
        rewrite <- Hg at 1. apply GetSymbol_stored.
        apply (ok_entries _ Hok k Hk).
    + apply (entry_agrees_ext w); [| |exact Hagi].
      * intros a Ha. apply Hfr; addr.
      * intros Hnzi a Ha. specialize (Hblk Hnzi). specialize (Hsz Hnzi).
        destruct (Hdis i k Hi Hk Hik Hnzi Hnz) as [D|D]; apply Hfr; addr.
Qed.

(** ** The region [initialize_region] leaves *)

Lemma load_le_initialize_tail n w x b :
  b + Z.of_nat n <= 264 ->
  load_le n (set_next_data_offset
               (memset w (SYMBOL_INDEX_OFFSET + SymbolIndex.entries) 0
                       (SymbolIndexEntry.sizeof * MAX_SYMBOLS)) x) b
  = load_le n w b.
Proof.
  intros H. apply load_le_ext. intros a Ha.
  rewrite peek_set_next_data_offset. apply peek_memset_index_ne. lia.
Qed.

Ltac header_field :=
  unfold initialize_region;
  rewrite load_le_initialize_tail by addr;
  rewrite ?load_le_store_le_ne by addr;
  rewrite load_le_store_le.

Lemma header_magic_initialize_region pid now w :
  header_magic (initialize_region pid now w) = MAGIC.
Proof. unfold header_magic. header_field. reflexivity. Qed.

Lemma header_version_initialize_region pid now w :
  header_version (initialize_region pid now w) = VERSION.
Proof. unfold header_version. header_field. reflexivity. Qed.

Lemma header_writer_pid_initialize_region pid now w :
  header_writer_pid (initialize_region pid now w) = uint32 pid.
Proof. unfold header_writer_pid. header_field. reflexivity. Qed.

Lemma header_reader_pid_initialize_region pid now w :
  header_reader_pid (initialize_region pid now w) = 0.
Proof. unfold header_reader_pid. header_field. reflexivity. Qed.

Lemma header_flags_initialize_region pid now w :
  header_flags (initialize_region pid now w) = 0.
Proof. unfold header_flags. header_field. reflexivity. Qed.

Lemma header_crc32_initialize_region pid now w :
  header_crc32 (initialize_region pid now w) = 0.
Proof. unfold header_crc32. header_field. reflexivity. Qed.

Lemma header_last_update_initialize_region pid now w :
  header_last_update_us (initialize_region pid now w) = uint64 now.
Proof. unfold header_last_update_us. header_field. reflexivity. Qed.

Lemma entry_data_offset_initialize_region pid now w i :
  0 <= i < MAX_SYMBOLS ->
  entry_data_offset (initialize_region pid now w) (entry_at i) = 0.
Proof.
  intros Hi. apply load_le_zero. intros a Ha.
  apply peek_initialize_region_entries. addr.
Qed.

Lemma region_sound_initialize_region pid now w :
  region_sound (initialize_region pid now w).
Proof.
  constructor.
  - unfold header_sound, Header_IsValid.
    rewrite header_magic_initialize_region, header_version_initialize_region,
      header_reader_pid_initialize_region, header_flags_initialize_region,
      header_crc32_initialize_region.
    auto.
  - intros i a Hi Ha. pose proof (index_count_nonneg (initialize_region pid now w)).
    apply peek_initialize_region_entries. addr.
  - intros i j Hi Hj _ Hnz. now rewrite entry_data_offset_initialize_region in Hnz.
  - intros i Hi. unfold entry_agrees; cbv zeta.
    rewrite entry_data_offset_initialize_region by exact Hi.
    split; [|contradiction]. intros _.
    apply load_le_zero. intros a Ha. apply peek_initialize_region_entries. addr.
Qed.

Lemma region_sound_effect clock symbol interval candles w w' r :
  index_ok w -> region_sound w ->
  0 < Z.of_nat (length candles) <= MAX_CANDLES_PER_SYMBOL ->
  write_effect clock symbol interval candles w w' r ->
  region_sound w'.
Proof.
  intros Hok [H1 H2 H3 H4] Hn Heff. constructor.
  - exact (header_sound_effect _ _ _ _ _ _ _ Hok H1 Heff).
  - exact (unused_clear_effect _ _ _ _ _ _ _ Hok H2 Heff).
  - exact (blocks_disjoint_effect _ _ _ _ _ _ _ Hok H3 Heff).
  - exact (entry_agrees_effect _ _ _ _ _ _ _ Hok H2 H3 H4 Hn Heff).
Qed.

Lemma reachable_region_sound w :
  reachable w -> IsInitialized w = true -> region_sound w.
Proof.
  induction 1 as [| os pid now name size w _ IH | w _ _
                 | clock symbol interval candles w Hreach IH].
  - discriminate.
  - destruct (Create_cases os pid now name size w)
      as [(_ & ->) | [(_ & _ & ->) | [(_ & _ & err & w' & -> & _ & Hr & _)
         | (_ & Hs & content & w0 & _ & -> & _)]]]; cbn [snd];
      try exact IH.
    + unfold IsInitialized. rewrite Hr. discriminate.
    + intros _. apply region_sound_initialize_region.
  - discriminate.
  - destruct (IsInitialized w) eqn:Hi;
      [|rewrite WriteCandles_untouched by auto; rewrite Hi; discriminate].
    destruct (Z.eq_dec (Z.of_nat (length candles)) 0) as [H0|H0];
      [rewrite WriteCandles_untouched by auto; rewrite Hi; exact IH|].
    destruct (Z.lt_ge_cases MAX_CANDLES_PER_SYMBOL (Z.of_nat (length candles)))
      as [H1|H1];
      [rewrite WriteCandles_untouched by auto; rewrite Hi; exact IH|].
    destruct (reachable_consistent w Hreach Hi) as [Hok _].
    assert (0 < Z.of_nat (length candles) <= MAX_CANDLES_PER_SYMBOL) as Hn by lia.
    intros _.
    eapply region_sound_effect;
      [exact Hok | exact (IH eq_refl) | exact Hn
      | apply WriteCandles_write_effect; assumption].
Qed.

(** ** Looking symbols up after a write *)

Lemma effect_names clock symbol interval candles w w' r :
  index_ok w ->
  write_effect clock symbol interval candles w w' r ->
  forall i, 0 <= i < index_count w -> i < MAX_SYMBOLS ->
    GetSymbol w' (entry_at i) = GetSymbol w (entry_at i).
Proof.
  intros Hok Heff i Hi Hi'. apply GetSymbol_ext. intros a Ha.
  pose proof (ok_cursor _ Hok) as Hcur.
  assert (forall k lo hi, entry_effect symbol w w' k -> DATA_SECTIONS_OFFSET <= lo ->
            frame_except w w' k lo hi -> peek w' a = peek w a) as G.
  { intros k lo hi He Hlo Hfr. destruct (Z.eq_dec i k) as [->|Hik].
    - destruct He as [(_ & _ & _ & _ & Hname) | (_ & -> & _)]; [now apply Hname | lia].
    - apply Hfr; addr. }
  destruct Heff as [HF Hc -> | k Hk He Hneed Hfull Hnx Hsame Hfr
                   | k Hk He Hneed Hfit Hnx Ho Hz Hbw Hfr
                   | k Hk He Hnz Hle Hnx Ho Hz Hbw Hfr].
  - rewrite peek_end_write_ne, peek_begin_write_ne by addr. reflexivity.
  - destruct (Z.eq_dec i k) as [->|Hik].
    + destruct He as [(_ & _ & _ & _ & Hname) | (_ & -> & _)]; [now apply Hname | lia].
    + apply Hfr; addr.
  - apply (G k _ _ He (proj1 Hcur) Hfr).
  - destruct (ok_entries _ Hok k Hk) as [_ [H0|(H0 & _)]]; [contradiction|].
    apply (G k _ _ He H0 Hfr).
Qed.

Lemma effect_count_mono clock symbol interval candles w w' r :
  write_effect clock symbol interval candles w w' r ->
  index_count w <= index_count w' <= index_count w + 1.
Proof.
  intros Heff.
  destruct (effect_counts _ _ _ _ _ _ _ Heff) as [(E & _)|[(E & _)|(E & _)]]; lia.
Qed.

Lemma effect_Find_kept clock symbol interval candles w w' r other e :
  index_ok w ->
  write_effect clock symbol interval candles w w' r ->
  Find w other = Some e -> Find w' other = Some e.
Proof.
  intros Hok Heff HF.
  destruct (Find_Some _ _ _ HF) as (i & Hi & Hi' & -> & Hg & Hfirst).
  pose proof (effect_count_mono _ _ _ _ _ _ _ Heff) as Hm.
  apply Find_first; [lia | exact Hi' | |].
  - rewrite (effect_names _ _ _ _ _ _ _ Hok Heff) by lia. exact Hg.
  - intros j Hj. rewrite (effect_names _ _ _ _ _ _ _ Hok Heff) by lia.
    now apply Hfirst.
Qed.

Lemma entry_effect_Find clock symbol interval candles w w' r k :
  index_ok w ->
  write_effect clock symbol interval candles w w' r ->
  0 <= k < MAX_SYMBOLS -> entry_effect symbol w w' k ->
  plain_name 15 symbol = true ->
  Find w' symbol = Some (entry_at k).
Proof.
  intros Hok Heff Hk He Hplain.
  pose proof (index_count_nonneg w) as Hc0.
  destruct He as [(HF & _) | (HF & -> & Hc & _ & Hg & _)].
  - exact (effect_Find_kept _ _ _ _ _ _ _ _ _ Hok Heff HF).
  - apply Find_first; [lia | lia | |].
    + rewrite Hg. now apply truncate_plain.
    + intros j Hj. rewrite (effect_names _ _ _ _ _ _ _ Hok Heff) by lia.
      rewrite Find_None in HF. apply HF; lia.
Qed.

Lemma entry_effect_unique symbol w w' k k' :
  entry_effect symbol w w' k -> entry_effect symbol w w' k' -> k = k'.
Proof.
  intros [(HF & _) | (HF & -> & _)] [(HF' & _) | (HF' & -> & _)]; try congruence.
  rewrite HF in HF'. injection HF' as E. now apply entry_at_inj.
Qed.

(** X3. What a successful write stores is what a reader gets back: the
    block [GetDataBlock] returns for the symbol lies inside the region,
    carries the symbol and the interval (cut to 7 bytes), counts the
    candles written (its capacity field is set to the same number), spans
    the first and last timestamps, and holds every candle, field by
    field. *)
Theorem write_reads_back clock symbol interval candles w :
  reachable w -> plain_name 15 symbol = true -> candles <> [] ->
  fst (WriteCandles clock symbol interval candles w) = OK ->
  let w' := snd (WriteCandles clock symbol interval candles w) in
  let n := Z.of_nat (length candles) in
  exists block,
    GetDataBlock w' symbol = Some block /\
    DATA_SECTIONS_OFFSET <= block /\ block + RequiredSize n <= size_ w' /\
    GetSymbol w' block = symbol /\
    GetInterval w' block = truncate_name 7 interval /\
    block_count w' block = n /\ block_capacity w' block = n /\
    TotalSize w' block = RequiredSize n /\
    block_start_timestamp w' block = uint64 (timestamp (hd no_candle candles)) /\
    block_end_timestamp w' block = uint64 (timestamp (List.last candles no_candle)) /\
    forall i, (i < length candles)%nat ->
      load_candle w' block (Z.of_nat i) = wrap_candle (nth i candles no_candle).
Proof.
  intros Hreach Hplain Hne HOK. cbv zeta.
  destruct (WriteCandles_OK_cases _ _ _ _ _ HOK) as [Hi [H0|Hn]].
  { destruct candles; [contradiction | discriminate]. }
  destruct (reachable_consistent w Hreach Hi) as [Hok _].
  pose proof (WriteCandles_write_effect clock symbol interval candles w Hreach Hi Hn)
    as Heff.
  pose proof (reach_WriteCandles clock symbol interval candles w Hreach) as Hreach'.
  destruct (WriteCandles_effect clock symbol interval candles w
              (reachable_consistent w Hreach) Hi Hn) as (_ & _ & Hi').
  cbv zeta in Hi'.
  destruct (reachable_consistent _ Hreach' Hi') as [Hok' _].
  pose proof (ok_cursor _ Hok') as Hcur'.
  revert Heff Hok' Hcur'. rewrite HOK.
  generalize (snd (WriteCandles clock symbol interval candles w)).
  intros w' Heff Hok' Hcur'.
  destruct (write_effect_OK _ _ _ _ _ _ Hok Hn Heff)
    as (k & off & Hk & He & Hoff & Ho & Hz & Hend & _ & Hbw & _).
  pose proof (entry_effect_Find _ _ _ _ _ _ _ _ Hok Heff Hk He Hplain) as HF.
  assert (RequiredSize (Z.of_nat (length candles))
          = 56 + 48 * Z.of_nat (length candles)) as Ereq
    by (apply RequiredSize_eq; lia).
  exists off. destruct Hbw as [_ _ B3 B4 B5 B6 B7 B8 B9].
  split.
  { unfold GetDataBlock. rewrite HF, Ho.
    destruct (off =? 0) eqn:E; [apply Z.eqb_eq in E; addr | reflexivity]. }
  split; [exact Hoff|]. split; [addr|].
  split. { rewrite B5. apply truncate_plain. exact Hplain. }
  split; [exact B6|]. split; [exact B3|]. split; [exact B4|].
  split.
  { unfold TotalSize. rewrite B3, Ereq.
    replace (OHLCVDataBlock.sizeof + Z.of_nat (length candles) * Candle.sizeof)
      with (56 + 48 * Z.of_nat (length candles)) by addr.
    apply uint64_small. addr. }
  auto.
Qed.

Lemma GetDataBlock_Some w symbol block :
  GetDataBlock w symbol = Some block ->
  exists e, Find w symbol = Some e /\ entry_data_offset w e = block /\ block <> 0.
Proof.
  unfold GetDataBlock. destruct (Find w symbol) as [e|]; [|discriminate].
  destruct (entry_data_offset w e =? 0) eqn:E; [discriminate|].
  apply Z.eqb_neq in E. intros [= <-]. eauto.
Qed.

Lemma GetDataBlock_entry w symbol e :
  Find w symbol = Some e -> entry_data_offset w e <> 0 ->
  GetDataBlock w symbol = Some (entry_data_offset w e).
Proof.
  intros HF Hnz. unfold GetDataBlock. rewrite HF.
  apply Z.eqb_neq in Hnz. now rewrite Hnz.
Qed.

(** X4. A write for one symbol leaves every other symbol alone: a symbol
    that resolved before the call resolves to the same entry after it,
    [GetDataBlock] returns for it what it returned, and neither the 40
    bytes of its entry nor any byte of its block has changed, whatever
    the outcome of the call. *)
Theorem write_leaves_other_symbols_alone clock symbol interval candles w other e :
  reachable w -> IsInitialized w = true ->
  other <> symbol -> Find w other = Some e ->
  let w' := snd (WriteCandles clock symbol interval candles w) in
  Find w' other = Some e /\
  GetDataBlock w' other = GetDataBlock w other /\
  (forall a, e <= a < e + SymbolIndexEntry.sizeof -> peek w' a = peek w a) /\
  (forall a, entry_data_offset w e <> 0 ->
             entry_data_offset w e <= a < entry_data_offset w e + entry_data_size w e ->
             peek w' a = peek w a).
Proof.
  intros Hreach Hi Hdiff HF. cbv zeta.
  destruct (Z.eq_dec (Z.of_nat (length candles)) 0) as [H0|H0];
    [rewrite WriteCandles_untouched by auto; auto|].
  destruct (Z.lt_ge_cases MAX_CANDLES_PER_SYMBOL (Z.of_nat (length candles)))
    as [H1|H1]; [rewrite WriteCandles_untouched by auto; auto|].
  assert (0 < Z.of_nat (length candles) <= MAX_CANDLES_PER_SYMBOL) as Hn by lia.
  destruct (reachable_consistent w Hreach Hi) as [Hok _].
  pose proof (sound_disjoint _ (reachable_region_sound w Hreach Hi)) as Hdis.
  pose proof (WriteCandles_write_effect clock symbol interval candles w Hreach Hi Hn)
    as Heff.
  revert Heff.
  generalize (fst (WriteCandles clock symbol interval candles w)),
             (snd (WriteCandles clock symbol interval candles w)).
  intros r w' Heff.
  pose proof (effect_Find_kept _ _ _ _ _ _ _ _ _ Hok Heff HF) as HF'.
  destruct (Find_Some _ _ _ HF) as (i & Hi1 & Hi2 & -> & Hg & _).
  assert (Find w symbol <> Some (entry_at i)) as Hother.
  { intros HFs. destruct (Find_Some _ _ _ HFs) as (j & _ & _ & Ej & Hgj & _).
    apply entry_at_inj in Ej. subst j. congruence. }
  assert (Find w symbol = None -> i <> index_count w) as Hused by lia.
  assert (0 <= i < MAX_SYMBOLS) as Hi3 by lia.
  pose proof (effect_entry_frame _ _ _ _ _ _ _ i Hok Heff Hi3 Hother Hused) as Hentry.
  destruct (entry_fields_ext _ _ _ Hentry) as (Eo & _).
  split; [exact HF'|]. split.
  { unfold GetDataBlock. now rewrite HF, HF', Eo. }
  split; [exact Hentry|].
  intros a Hnz Ha.
  exact (effect_block_frame _ _ _ _ _ _ _ i Hok Hdis Heff Hi3 Hother Hused Hnz a Ha).
Qed.


(** X6. Writing again, with 1 to 100,000 candles, for a symbol that has
    a block: the symbol keeps its entry; the block is overwritten in
    place when the new candles fit in the size the entry records;
    otherwise a new block is taken at the cursor and the old one stays
    where it was, allocated and unchanged, with no entry pointing to it;
    and when the region has no room for the new block the call fails and
    the old block is still served. *)
Theorem rewrite_reuses_or_replaces clock symbol interval candles w block :
  reachable w -> IsInitialized w = true ->
  0 < Z.of_nat (length candles) <= MAX_CANDLES_PER_SYMBOL ->
  GetDataBlock w symbol = Some block ->
  let required := RequiredSize (Z.of_nat (length candles)) in
  let r := fst (WriteCandles clock symbol interval candles w) in
  let w' := snd (WriteCandles clock symbol interval candles w) in
  exists e,
    Find w symbol = Some e /\ Find w' symbol = Some e /\
    entry_data_offset w e = block /\
    (required <= entry_data_size w e ->
       r = OK /\ GetDataBlock w' symbol = Some block /\
       entry_data_size w' e = entry_data_size w e /\
       next_data_offset_ w' = next_data_offset_ w) /\
    (entry_data_size w e < required -> next_data_offset_ w + required <= size_ w ->
       r = OK /\ GetDataBlock w' symbol = Some (next_data_offset_ w) /\
       entry_data_size w' e = required /\
       next_data_offset_ w' = next_data_offset_ w + required /\
       block + entry_data_size w e <= next_data_offset_ w /\
       forall a, block <= a < block + entry_data_size w e -> peek w' a = peek w a) /\
    (entry_data_size w e < required -> size_ w < next_data_offset_ w + required ->
       r = WRITE_FAILED /\ GetDataBlock w' symbol = Some block /\
       next_data_offset_ w' = next_data_offset_ w /\
       entry_candle_count w' e = entry_candle_count w e /\
       forall a, block <= a < block + entry_data_size w e -> peek w' a = peek w a).
Proof.
  intros Hreach Hi Hn HG. cbv zeta.
  destruct (GetDataBlock_Some _ _ _ HG) as (e & HF & Ho & Hnz).
  destruct (reachable_consistent w Hreach Hi) as [Hok _].
  pose proof (ok_cursor _ Hok) as Hcur.
  destruct (write_to_resolved_symbol clock symbol interval candles w e Hreach Hi Hn HF)
    as ((_ & _ & HF') & Hreuse & Hnew & Hfail).
  pose proof (WriteCandles_write_effect clock symbol interval candles w Hreach Hi Hn)
    as Heff.
  cbv zeta in Hreuse, Hnew, Hfail. revert HF' Hreuse Hnew Hfail Heff.
  generalize (fst (WriteCandles clock symbol interval candles w)),
             (snd (WriteCandles clock symbol interval candles w)).
  intros r w' HF' Hreuse Hnew Hfail Heff.
  rewrite <- Ho in Hnz.
  exists e. split; [exact HF|]. split; [exact HF'|]. split; [exact Ho|].
  split; [|split].
  - intros Hle. destruct (Hreuse Hnz Hle) as (-> & Eo & Ez & Ex & _).
    split; [reflexivity|]. split; [|auto].
    rewrite <- Ho, <- Eo. apply GetDataBlock_entry; [exact HF' | now rewrite Eo].
  - intros Hlt Hfit.
    destruct (Hnew (or_intror Hlt) Hfit) as (-> & Eo & Ez & Ex & _ & _ & Hold).
    destruct (Hold Hnz) as (_ & Hbelow & Hbytes).
    split; [reflexivity|]. split.
    { rewrite <- Eo. apply GetDataBlock_entry; [exact HF' | rewrite Eo; addr]. }
    rewrite <- Ho. rewrite Eo in Hbelow. auto.
  - intros Hlt Hfull.
    destruct (Hfail (or_intror Hlt) Hfull) as (-> & Eo & Ez & Ex).
    split; [reflexivity|]. split.
    { rewrite <- Ho, <- Eo. apply GetDataBlock_entry; [exact HF' | now rewrite Eo]. }
    split; [exact Ex|].
    destruct (Find_Some _ _ _ HF) as (i & Hi1 & Hi2 & -> & _).
    assert (0 <= i < MAX_SYMBOLS) as Hi3 by lia.
    destruct (ok_entries _ Hok i Hi3) as [_ [H0|(H0 & _)]]; [contradiction|].
    remember WRITE_FAILED as r eqn:Er.
    destruct Heff as [ | k Hk He Hneed Hfull' Hnx Hsame Hfr | k | k ];
      try discriminate.
    assert (k = i) as ->.
    { destruct He as [(HFk & _) | (HFk & _)]; [|congruence].
      rewrite HF in HFk. injection HFk as E. symmetry. now apply entry_at_inj. }
    split.
    + apply load_le_ext. intros a Ha. apply Hsame. addr.
    + intros a Ha. rewrite <- Ho in Ha. apply Hfr; addr.
Qed.

(** ** The writer object: handle, mapping and region pointer *)

Lemma same_object_mapping w w' : same_object w w' -> same_mapping w w'.
Proof. unfold same_object, same_mapping. intuition. Qed.

Lemma same_mapping_trans w1 w2 w3 :
  same_mapping w1 w2 -> same_mapping w2 w3 -> same_mapping w1 w3.
Proof. unfold same_mapping. intuition congruence. Qed.

Lemma same_mapping_allocated e req w : same_mapping w (allocated e req w).
Proof. repeat split. Qed.

Lemma same_mapping_resolved symbol w e w2 :
  resolved symbol w e w2 -> same_mapping w w2.
Proof.
  intros [i _ _ _ | _ _]; apply same_object_mapping;
    [apply same_object_refl | apply same_object_appended].
Qed.

Lemma same_mapping_transaction clock symbol interval candles w1 r w' :
  transaction clock symbol interval candles w1 r w' -> same_mapping w1 w'.
Proof.
  intros [HF Hc | e w2 Hres Hneed Hfull | e w2 Hres Hneed Hfit | e w2 Hres Hnz Hle].
  - apply same_object_mapping, same_object_end_write.
  - eapply same_mapping_trans; [exact (same_mapping_resolved _ _ _ _ Hres)|].
    apply same_object_mapping, same_object_end_write.
  - eapply same_mapping_trans; [exact (same_mapping_resolved _ _ _ _ Hres)|].
    eapply same_mapping_trans; [apply same_mapping_allocated|].
    apply same_object_mapping, same_object_committed.
  - eapply same_mapping_trans; [exact (same_mapping_resolved _ _ _ _ Hres)|].
    apply same_object_mapping, same_object_committed.
Qed.

Lemma WriteCandles_uninitialized clock symbol interval candles w :
  IsInitialized w = false ->
  WriteCandles clock symbol interval candles w = (NOT_INITIALIZED, w).
Proof. intros H. unfold WriteCandles. now rewrite H. Qed.

Lemma same_mapping_WriteCandles clock symbol interval candles w :
  reachable w ->
  same_mapping w (snd (WriteCandles clock symbol interval candles w)).
Proof.
  intros Hreach.
  assert (same_mapping w w) as Hrefl by (repeat split).
  destruct (IsInitialized w) eqn:Hi;
    [|now rewrite WriteCandles_untouched by auto].
  destruct (Z.eq_dec (Z.of_nat (length candles)) 0) as [H0|H0];
    [now rewrite WriteCandles_untouched by auto|].
  destruct (Z.lt_ge_cases MAX_CANDLES_PER_SYMBOL (Z.of_nat (length candles)))
    as [H1|H1]; [now rewrite WriteCandles_untouched by auto|].
  destruct (reachable_consistent w Hreach Hi) as [Hok _].
  assert (0 < Z.of_nat (length candles) <= MAX_CANDLES_PER_SYMBOL) as Hn by lia.
  pose proof (WriteCandles_transaction clock symbol interval candles w Hi Hok Hn) as Ht.
  eapply same_mapping_trans;
    [|exact (same_mapping_transaction _ _ _ _ _ _ _ Ht)].
  apply same_object_mapping, same_object_begin_write.
Qed.

Lemma paired_Close w : paired (Close w).
Proof.
  unfold paired, Close, platform_close, IsInitialized.
  destruct (base_ptr_ w); cbn [handle_ set_base_ptr];
    destruct (handle_ w =? -1) eqn:E; cbn;
    try apply Z.eqb_eq in E; repeat split; try discriminate; auto.
Qed.

Lemma paired_prepared name size w :
  paired w ->
  handle_ (prepared name size w) = -1 /\ base_ptr_ (prepared name size w) = nullptr /\
  region_ (prepared name size w) = nullptr /\
  next_data_offset_ (prepared name size w) = DATA_SECTIONS_OFFSET.
Proof.
  intros (H1 & H2 & H3). unfold prepared.
  destruct (IsInitialized w) eqn:Hi.
  - destruct (paired_Close w) as (_ & _ & C3).
    destruct (C3 (IsInitialized_Close w)) as (C4 & C5 & C6).
    cbn [handle_ base_ptr_ region_ next_data_offset_ set_size set_name].
    rewrite (region_Close w). auto.
  - destruct (H3 eq_refl) as (H4 & H5 & H6).
    cbn [handle_ base_ptr_ region_ next_data_offset_ set_size set_name].
    rewrite H1. auto.
Qed.

(** What [Create] does once the arguments are accepted. *)
Lemma Create_accepted os pid now name size w :
  name <> EmptyString -> 4352 <= size <= 2 ^ 30 ->
  Create os pid now name size w =
    match platform_create os name size (prepared name size w) with
    | (OK, w) => (OK, initialize_region pid now w)
    | (err, w) => (err, w)
    end.
Proof.
  intros Hname Hsize. unfold Create.
  apply String.eqb_neq in Hname. rewrite Hname.
  change (1024 * 1024 * 1024) with (2 ^ 30).
  destruct ((size <? 4352) || (2 ^ 30 <? size)) eqn:Es; [|reflexivity].
  apply orb_true_iff in Es. rewrite Z.ltb_lt, Z.ltb_lt in Es. lia.
Qed.

Lemma paired_Create os pid now name size w :
  paired w -> paired (snd (Create os pid now name size w)).
Proof.
  intros Hp.
  destruct (Create_cases os pid now name size w)
    as [(_ & ->) | [(_ & _ & ->) | [(Hname & Hsize & _) | (Hname & Hsize & _)]]];
    try exact Hp;
    rewrite (Create_accepted os pid now name size w Hname Hsize);
    destruct (paired_prepared name size w Hp) as (P1 & P2 & P3 & P4);
    assert (name_ (prepared name size w) = name) as P5 by reflexivity;
    revert P1 P2 P3 P4 P5; generalize (prepared name size w);
    intros w0 P1 P2 P3 P4 P5;
    unfold platform_create; cbn [handle_ set_handle];
    (destruct (Z.eqb_spec (shm_open_result os) (-1)) as [E1|E1];
     [|destruct (ftruncate_result os =? -1) eqn:E2;
       [|destruct (mmap_result os) as [content|] eqn:E3]]);
    cbn [snd]; unfold paired, IsInitialized; cbn;
    rewrite ?P2, ?P3, ?P5; repeat split; try discriminate; auto.
Qed.

Lemma reachable_paired w : reachable w -> paired w.
Proof.
  induction 1 as [| os pid now name size w _ IH | w _ _
                 | clock symbol interval candles w Hreach IH].
  - unfold paired, IsInitialized. cbn. repeat split; try discriminate; auto.
  - now apply paired_Create.
  - apply paired_Close.
  - pose proof (same_mapping_WriteCandles clock symbol interval candles w Hreach)
      as Hm.
    destruct Hm as (Hn & _ & Hh & Hb & Hr).
    destruct IH as (H1 & H2 & H3).
    unfold paired, IsInitialized in *. rewrite Hn, Hh, Hb, Hr.
    split; [exact H1|]. split; [exact H2|].
    intros Hi. destruct (H3 Hi) as (H4 & H5 & H6).
    split; [exact H4|]. split; [exact H5|].
    rewrite WriteCandles_untouched; [exact H6 | left; exact Hi].
Qed.

(** X7. The handle, the mapping and the region pointer of a writer go
    together in every state the public methods reach: an initialized
    writer holds an open handle, a name and a size [Create] accepted; an
    uninitialized one holds no handle and no mapping, and its allocation
    cursor is back at the start of the data section. *)
Theorem resources_go_together w :
  reachable w ->
  region_ w = base_ptr_ w /\
  (IsInitialized w = true ->
     handle_ w <> -1 /\ GetName w <> EmptyString /\ 4352 <= GetSize w <= 2 ^ 30) /\
  (IsInitialized w = false ->
     handle_ w = -1 /\ base_ptr_ w = nullptr /\
     next_data_offset_ w = DATA_SECTIONS_OFFSET).
Proof.
  intros Hreach. destruct (reachable_paired w Hreach) as (H1 & H2 & H3).
  split; [exact H1|]. split; [|exact H3].
  intros Hi. destruct (H2 Hi) as [H4 H5].
  destruct (reachable_consistent w Hreach Hi) as [Hok _].
  split; [exact H4|]. split; [exact H5|]. exact (ok_size _ Hok).
Qed.

Lemma GetStats_uninitialized w : IsInitialized w = false -> GetStats w = no_stats.
Proof. intros H. unfold GetStats. now rewrite H. Qed.

(** X8. When the operating system refuses one of the three calls of
    [platform_create], [Create] reports [CREATE_FAILED] (for [shm_open]
    and [ftruncate]) or [MAPPING_FAILED] (for [mmap]) and the writer is
    left without a region, also when it had one before the call: the
    handle is closed, nothing is mapped, [WriteCandles] answers
    [NOT_INITIALIZED] and [GetStats] all zeros. The name and the size of
    the attempt stay in the object. *)
Theorem failed_Create_leaves_no_region os pid now name size w :
  reachable w -> name <> EmptyString -> 4352 <= size <= 2 ^ 30 ->
  shm_open_result os = -1 \/ ftruncate_result os = -1 \/ mmap_result os = None ->
  let r := fst (Create os pid now name size w) in
  let w' := snd (Create os pid now name size w) in
  r = (if (shm_open_result os =? -1) || (ftruncate_result os =? -1)
       then CREATE_FAILED else MAPPING_FAILED) /\
  IsInitialized w' = false /\ handle_ w' = -1 /\ base_ptr_ w' = nullptr /\
  GetName w' = name /\ GetSize w' = size /\
  GetStats w' = no_stats /\
  forall clock symbol interval candles,
    WriteCandles clock symbol interval candles w' = (NOT_INITIALIZED, w').
Proof.
  intros Hreach Hname Hsize Hos. cbv zeta.
  rewrite (Create_accepted os pid now name size w Hname Hsize).
  destruct (paired_prepared name size w (reachable_paired w Hreach))
    as (P1 & P2 & P3 & P4).
  assert (name_ (prepared name size w) = name) as P5 by reflexivity.
  assert (size_ (prepared name size w) = size) as P6 by reflexivity.
  revert P1 P2 P3 P4 P5 P6. generalize (prepared name size w).
  intros w0 P1 P2 P3 P4 P5 P6.
  assert (forall w1, region_ w1 = nullptr ->
            IsInitialized w1 = false /\ GetStats w1 = no_stats /\
            forall clock symbol interval candles,
              WriteCandles clock symbol interval candles w1 = (NOT_INITIALIZED, w1)) as G.
  { intros w1 Hr. assert (IsInitialized w1 = false) as Hi
      by (unfold IsInitialized; now rewrite Hr).
    split; [exact Hi|]. split; [now apply GetStats_uninitialized|].
    intros. now apply WriteCandles_uninitialized. }
  unfold platform_create. cbn [handle_ set_handle].
  destruct (Z.eqb_spec (shm_open_result os) (-1)) as [E1|E1].
  { cbn [fst snd orb]. destruct (G (set_handle w0 (shm_open_result os)) P3)
      as (G1 & G2 & G3).
    unfold GetName, GetSize. cbn [handle_ base_ptr_ name_ size_ set_handle].
    auto 10. }
  destruct (Z.eqb_spec (ftruncate_result os) (-1)) as [E2|E2].
  { cbn [fst snd orb].
    destruct (G (set_handle (set_handle w0 (shm_open_result os)) (-1)) P3)
      as (G1 & G2 & G3).
    unfold GetName, GetSize. cbn [handle_ base_ptr_ name_ size_ set_handle].
    auto 10. }
  destruct (mmap_result os) as [content|] eqn:E3.
  { destruct Hos as [H|[H|H]]; [contradiction | contradiction | discriminate]. }
  cbn [fst snd orb].
  destruct (G (set_base_ptr (set_handle (set_handle w0 (shm_open_result os)) (-1))
                            nullptr) P3) as (G1 & G2 & G3).
  unfold GetName, GetSize.
  cbn [handle_ base_ptr_ name_ size_ set_handle set_base_ptr].
  auto 10.
Qed.

Lemma peek_initialize_region_ne pid now w a :
  44 <= a < 256 \/ 260 <= a < 264 \/ 10504 <= a ->
  peek (initialize_region pid now w) a = peek w a.
Proof.
  intros H. unfold initialize_region.
  rewrite peek_set_next_data_offset, peek_memset_index_ne by addr.
  rewrite !peek_store_le_ne by addr. reflexivity.
Qed.

Lemma same_mapping_initialize_region pid now w :
  name_ (initialize_region pid now w) = name_ w /\
  size_ (initialize_region pid now w) = size_ w /\
  handle_ (initialize_region pid now w) = handle_ w /\
  next_data_offset_ (initialize_region pid now w) = DATA_SECTIONS_OFFSET.
Proof. repeat split. Qed.

Lemma Create_OK_state os pid now name size w :
  fst (Create os pid now name size w) = OK ->
  exists content,
    mmap_result os = Some content /\ shm_open_result os <> -1 /\
    name <> EmptyString /\ 4352 <= size <= 2 ^ 30 /\
    snd (Create os pid now name size w) =
      initialize_region pid now
        (set_shm (set_base_ptr (set_handle (prepared name size w) (shm_open_result os))
                               mapping_base)
                 {| bytes := content; written := [] |}).
Proof.
  destruct (Create_cases os pid now name size w)
    as [(_ & ->) | [(_ & _ & ->) | [(_ & _ & err & w' & -> & [->| ->] & _)
       | (Hname & Hsize & _)]]]; try discriminate.
  rewrite (Create_accepted os pid now name size w Hname Hsize).
  unfold platform_create. cbn [handle_ set_handle].
  destruct (Z.eqb_spec (shm_open_result os) (-1)) as [E1|E1]; [discriminate|].
  destruct (ftruncate_result os =? -1); [discriminate|].
  destruct (mmap_result os) as [content|]; [|discriminate].
  intros _. exists content. auto.
Qed.

(** X9. A successful [Create] hands out an empty, valid region whatever
    the object held and whatever the writer was before: the header is
    valid and carries the process id and the time of creation, the
    sequence is 0, the directory is empty, so that no symbol resolves and
    no block is found; the cursor is at the start of the data section.
    Only the first 44 bytes of the header, the index count and the 256
    entries are written: every other byte is what the mapping held. *)
Theorem Create_hands_out_empty_region os pid now name size w :
  fst (Create os pid now name size w) = OK ->
  let w' := snd (Create os pid now name size w) in
  IsInitialized w' = true /\ GetName w' = name /\ GetSize w' = size /\
  handle_ w' = shm_open_result os /\
  next_data_offset_ w' = DATA_SECTIONS_OFFSET /\
  Header_IsValid w' = true /\ Header_IsWriting w' = false /\
  header_writer_pid w' = uint32 pid /\ header_last_update_us w' = uint64 now /\
  header_sequence w' = 0 /\ header_symbol_count w' = 0 /\ index_count w' = 0 /\
  (forall symbol, Find w' symbol = None /\ GetDataBlock w' symbol = None) /\
  exists content,
    mmap_result os = Some content /\
    forall a, 44 <= a < 256 \/ 260 <= a < 264 \/ 10504 <= a ->
              peek w' a = default 0 (content !! a) mod 256.
Proof.
  intros HOK. cbv zeta.
  destruct (Create_OK_state os pid now name size w HOK)
    as (content & Hm & Hh & Hname & Hsize & ->).
  set (w0 := set_shm _ _).
  destruct (same_mapping_initialize_region pid now w0) as (E1 & E2 & E3 & E4).
  assert (forall symbol, Find (initialize_region pid now w0) symbol = None) as HF.
  { intros symbol. apply Find_None. intros i Hi.
    rewrite index_count_initialize_region in Hi. lia. }
  split; [now apply IsInitialized_initialize_region|].
  split; [exact E1|]. split; [exact E2|]. split; [exact E3|]. split; [exact E4|].
  split.
  { unfold Header_IsValid.
    now rewrite header_magic_initialize_region, header_version_initialize_region. }
  split.
  { unfold Header_IsWriting. now rewrite header_sequence_initialize_region. }
  split; [apply header_writer_pid_initialize_region|].
  split; [apply header_last_update_initialize_region|].
  split; [apply header_sequence_initialize_region|].
  split; [apply header_symbol_count_initialize_region|].
  split; [apply index_count_initialize_region|].
  split.
  { intros symbol. split; [apply HF|]. unfold GetDataBlock. now rewrite HF. }
  exists content. split; [exact Hm|].
  intros a Ha. now rewrite peek_initialize_region_ne by exact Ha.
Qed.

(** X10. [Close] returns the writer to the state the constructor leaves,
    whatever state it was in (the bytes of the shared object are not
    touched: the object is not unlinked). Closing twice is closing once;
    after [Close], [WriteCandles] answers [NOT_INITIALIZED] without
    touching anything, [GetStats] answers all zeros, and [Create] behaves
    as on a new writer. *)
Theorem Close_returns_to_constructed_state w :
  Close w = set_shm new_writer (shm w) /\
  Close (Close w) = Close w /\
  IsInitialized (Close w) = false /\
  GetName (Close w) = EmptyString /\ GetSize (Close w) = 0 /\
  GetStats (Close w) = no_stats /\
  (forall clock symbol interval candles,
     WriteCandles clock symbol interval candles (Close w) = (NOT_INITIALIZED, Close w)) /\
  (forall os pid now name size,
     fst (Create os pid now name size (Close w))
       = fst (Create os pid now name size new_writer) /\
     (fst (Create os pid now name size new_writer) = OK ->
      snd (Create os pid now name size (Close w))
        = snd (Create os pid now name size new_writer))).
Proof.
  assert (forall w, Close w = set_shm new_writer (shm w)) as HC.
  { intros [n0 s0 h0 b0 r0 c0 m0]. unfold Close, platform_close.
    destruct b0; cbn [base_ptr_ handle_ set_base_ptr];
      destruct (Z.eqb_spec h0 (-1)) as [->|E]; reflexivity. }
  split; [apply HC|]. split; [rewrite !HC; reflexivity|].
  split; [reflexivity|]. split; [reflexivity|]. split; [reflexivity|].
  split; [reflexivity|]. split; [reflexivity|].
  intros os pid now name size. rewrite HC.
  unfold Create, platform_create.
  destruct (String.eqb name EmptyString); [split; [reflexivity|discriminate]|].
  destruct ((size <? 4352) || (1024 * 1024 * 1024 <? size));
    [split; [reflexivity|discriminate]|].
  cbn [IsInitialized region_ set_shm new_writer handle_ set_handle set_size set_name].
  destruct (shm_open_result os =? -1); [split; [reflexivity|discriminate]|].
  destruct (ftruncate_result os =? -1); [split; [reflexivity|discriminate]|].
  destruct (mmap_result os); [|split; [reflexivity|discriminate]].
  split; reflexivity.
Qed.

(** ** Statistics *)

Lemma candle_sum_bound f m :
  (forall i, 0 <= i < Z.of_nat m -> 0 <= f i < 2 ^ 32) ->
  0 <= candle_sum f m <= Z.of_nat m * 2 ^ 32.
Proof.
  induction m as [|m IH]; intros H; [cbn; lia|].
  cbn [candle_sum]. specialize (IH ltac:(intros i Hi; apply H; lia)).
  pose proof (H (Z.of_nat m) ltac:(lia)). lia.
Qed.

Lemma fold_candle_sum f m :
  (forall i, 0 <= i < Z.of_nat m -> 0 <= f i < 2 ^ 32) ->
  Z.of_nat m <= 2 ^ 31 ->
  fold_left (fun acc i => uint64 (acc + f i)) (seqZ 0 (Z.of_nat m)) 0 = candle_sum f m.
Proof.
  induction m as [|m IH]; intros H Hm; [reflexivity|].
  rewrite seqZ_S, fold_left_app. cbn [fold_left candle_sum].
  rewrite IH by (intros; try apply H; lia). rewrite Z.add_0_l.
  pose proof (candle_sum_bound f m ltac:(intros i Hi; apply H; lia)).
  pose proof (H (Z.of_nat m) ltac:(lia)).
  apply uint64_small. nia.
Qed.

Lemma candle_sum_ext f g m :
  (forall i, 0 <= i < Z.of_nat m -> g i = f i) -> candle_sum g m = candle_sum f m.
Proof.
  induction m as [|m IH]; intros H; [reflexivity|].
  cbn [candle_sum]. rewrite IH by (intros; apply H; lia).
  rewrite H by lia. reflexivity.
Qed.

Lemma candle_sum_update f g m k :
  0 <= k < Z.of_nat m ->
  (forall i, 0 <= i < Z.of_nat m -> i <> k -> g i = f i) ->
  candle_sum g m = candle_sum f m - f k + g k.
Proof.
  induction m as [|m IH]; intros Hk H; [lia|].
  cbn [candle_sum]. destruct (Z.eq_dec k (Z.of_nat m)) as [->|Hne].
  - rewrite (candle_sum_ext f g) by (intros; apply H; lia). lia.
  - rewrite IH by (try lia; intros; apply H; lia).
    rewrite (H (Z.of_nat m)) by lia. lia.
Qed.

Lemma total_candles_sum w :
  IsInitialized w = true -> index_count w <= MAX_SYMBOLS ->
  total_candles (GetStats w)
  = candle_sum (fun i => entry_candle_count w (entry_at i)) (Z.to_nat (index_count w)).
Proof.
  intros Hi Hc. pose proof (index_count_nonneg w) as Hc0.
  unfold GetStats. rewrite Hi. cbn [negb total_candles].
  rewrite <- (Z2Nat.id (index_count w)) at 1 by lia.
  apply fold_candle_sum; [|rewrite Z2Nat.id by lia; addr].
  intros i _. apply load_u32_range.
Qed.

Lemma header_last_update_end_write now w :
  header_last_update_us (end_write now w) = uint64 now.
Proof. unfold end_write, header_last_update_us. apply load_u64_store_u64. Qed.

Lemma transaction_last_update clock symbol interval candles w1 r w' :
  transaction clock symbol interval candles w1 r w' ->
  header_last_update_us w'
  = uint64 (clock (match r with OK => 1%nat | _ => 0%nat end)).
Proof.
  intros [HF Hc | e w2 Hres Hneed Hfull | e w2 Hres Hneed Hfit | e w2 Hres Hnz Hle];
    unfold committed; apply header_last_update_end_write.
Qed.

Lemma effect_candle_counts clock symbol interval candles w w' r :
  index_ok w ->
  write_effect clock symbol interval candles w w' r ->
  (r <> OK /\
   forall i, 0 <= i < MAX_SYMBOLS ->
     entry_candle_count w' (entry_at i) = entry_candle_count w (entry_at i))
  \/
  (r = OK /\ exists k, 0 <= k < MAX_SYMBOLS /\ entry_effect symbol w w' k /\
     entry_candle_count w' (entry_at k) = Z.of_nat (length candles) /\
     forall i, 0 <= i < MAX_SYMBOLS -> i <> k ->
       entry_candle_count w' (entry_at i) = entry_candle_count w (entry_at i)).
Proof.
  intros Hok Heff.
  pose proof (ok_cursor _ Hok) as Hcur.
  assert (forall k lo hi i, DATA_SECTIONS_OFFSET <= lo -> frame_except w w' k lo hi ->
            0 <= k < MAX_SYMBOLS -> 0 <= i < MAX_SYMBOLS -> i <> k ->
            entry_candle_count w' (entry_at i) = entry_candle_count w (entry_at i)) as G.
  { intros k lo hi i Hlo Hfr Hk Hi Hik.
    apply load_le_ext; intros a Ha; apply Hfr; addr. }
  destruct Heff as [HF Hc -> | k Hk He Hneed Hfull Hnx Hsame Hfr
                   | k Hk He Hneed Hfit Hnx Ho Hz Hbw Hfr
                   | k Hk He Hnz Hle Hnx Ho Hz Hbw Hfr].
  - left. split; [discriminate|]. intros i Hi. apply load_le_ext; intros a Ha.
    rewrite peek_end_write_ne, peek_begin_write_ne by addr. reflexivity.
  - left. split; [discriminate|]. intros i Hi. destruct (Z.eq_dec i k) as [->|Hik].
    + apply load_le_ext; intros a Ha; apply Hsame; addr.
    + apply load_le_ext; intros a Ha; apply Hfr; addr.
  - right. split; [reflexivity|]. exists k.
    split; [exact Hk|]. split; [exact He|]. split; [exact (bw_candle_count _ _ _ _ _ _ _ Hbw)|].
    intros i Hi Hik. apply (G k _ _ i (proj1 Hcur) Hfr Hk Hi Hik).
  - right. split; [reflexivity|]. exists k.
    split; [exact Hk|]. split; [exact He|]. split; [exact (bw_candle_count _ _ _ _ _ _ _ Hbw)|].
    destruct (ok_entries _ Hok k Hk) as [_ [H0|(H0 & _)]]; [contradiction|].
    intros i Hi Hik. apply (G k _ _ i H0 Hfr Hk Hi Hik).
Qed.

Lemma effect_cursor clock symbol interval candles w w' r :
  0 < Z.of_nat (length candles) <= MAX_CANDLES_PER_SYMBOL ->
  write_effect clock symbol interval candles w w' r ->
  (r <> OK -> next_data_offset_ w' = next_data_offset_ w) /\
  next_data_offset_ w <= next_data_offset_ w'
    <= next_data_offset_ w + RequiredSize (Z.of_nat (length candles)).
Proof.
  intros Hn Heff.
  assert (0 < RequiredSize (Z.of_nat (length candles))) as Hreq
    by (rewrite RequiredSize_eq by lia; addr).
  destruct Heff as [HF Hc -> | k Hk He Hneed Hfull Hnx Hsame Hfr
                   | k Hk He Hneed Hfit Hnx Ho Hz Hbw Hfr
                   | k Hk He Hnz Hle Hnx Ho Hz Hbw Hfr].
  - change (next_data_offset_ (end_write (clock 0%nat) (begin_write w)))
      with (next_data_offset_ w). split; [reflexivity | lia].
  - split; [auto | lia].
  - split; [intros H; now contradiction H | lia].
  - split; [auto | lia].
Qed.

(** X11. What one transaction of [WriteCandles] does to the statistics:
    the write count goes up by one whatever the outcome, the time of the
    last write is the time the transaction ended, the memory in use never
    shrinks and grows by at most the size of one block, the directory
    grows by at most one entry; a failed write changes neither the candle
    total nor the memory in use, a successful one replaces the candles the
    symbol counted before by those written. *)
Theorem GetStats_after_write clock symbol interval candles w :
  reachable w -> IsInitialized w = true ->
  0 < Z.of_nat (length candles) <= MAX_CANDLES_PER_SYMBOL ->
  let r := fst (WriteCandles clock symbol interval candles w) in
  let s := GetStats w in
  let s' := GetStats (snd (WriteCandles clock symbol interval candles w)) in
  write_count s' = (write_count s + 1) mod 2 ^ 63 /\
  last_write_us s' = uint64 (clock (match r with OK => 1%nat | _ => 0%nat end)) /\
  memory_used s <= memory_used s'
    <= memory_used s + RequiredSize (Z.of_nat (length candles)) /\
  total_symbols s <= total_symbols s' <= total_symbols s + 1 /\
  (r <> OK -> total_candles s' = total_candles s /\ memory_used s' = memory_used s) /\
  (r = OK ->
   total_candles s'
   = total_candles s - candles_of w symbol + Z.of_nat (length candles)).
Proof.
  intros Hreach Hi Hn. cbv zeta.
  pose proof (reachable_consistent w Hreach) as Hcons.
  destruct (Hcons Hi) as [Hok Hq].
  pose proof (sound_unused _ (reachable_region_sound w Hreach Hi)) as Hun.
  pose proof (reach_WriteCandles clock symbol interval candles w Hreach) as Hreach'.
  destruct (WriteCandles_effect clock symbol interval candles w Hcons Hi Hn)
    as (_ & Hseq & Hi'). cbv zeta in Hseq, Hi'.
  destruct (reachable_consistent _ Hreach' Hi') as [Hok' _].
  pose proof (ok_count _ Hok') as Hc'. pose proof (ok_count _ Hok) as Hc.
  pose proof (total_candles_sum _ Hi' Hc') as Ht'.
  pose proof (total_candles_sum _ Hi Hc) as Ht.
  pose proof (transaction_last_update _ _ _ _ _ _ _
                (WriteCandles_transaction clock symbol interval candles w Hi Hok Hn))
    as Hlast.
  pose proof (WriteCandles_write_effect clock symbol interval candles w Hreach Hi Hn)
    as Heff.
  pose proof (index_count_nonneg w) as Hc0.
  assert (forall w0, IsInitialized w0 = true ->
            write_count (GetStats w0) = header_sequence w0 / 2 /\
            last_write_us (GetStats w0) = header_last_update_us w0 /\
            memory_used (GetStats w0) = next_data_offset_ w0 /\
            total_symbols (GetStats w0) = index_count w0) as Hfields.
  { intros w0 H0. unfold GetStats. rewrite H0. auto. }
  destruct (Hfields _ Hi) as (F1 & F2 & F3 & F4).
  destruct (Hfields _ Hi') as (F1' & F2' & F3' & F4').
  rewrite F1, F1', F2', F3, F3', F4, F4', Ht, Ht'.
  clear Hfields F1 F2 F3 F4 F1' F2' F3' F4' Ht Ht'.
  revert Hseq Hlast Heff Hc'.
  generalize (fst (WriteCandles clock symbol interval candles w)),
             (snd (WriteCandles clock symbol interval candles w)).
  intros r w' Hseq Hlast Heff Hc'.
  destruct (effect_cursor _ _ _ _ _ _ _ Hn Heff) as [Hcur1 Hcur2].
  pose proof (effect_count_mono _ _ _ _ _ _ _ Heff) as Hmono.
  split.
  { rewrite Hseq, uint64_succ_succ. unfold quiescent in Hq.
    pose proof (load_u64_range w sequence_addr) as Hr.
    change (load_u64 w sequence_addr) with (header_sequence w) in Hr.
    apply Z.even_spec in Hq. destruct Hq as [q Hq]. rewrite Hq.
    unfold uint64. replace (2 * q + 2) with (2 * (q + 1)) by lia.
    change (2 ^ 64) with (2 * 2 ^ 63).
    rewrite Zmult_mod_distr_l. rewrite !(Z.mul_comm 2), !Z.div_mul by lia.
    reflexivity. }
  split; [exact Hlast|]. split; [exact Hcur2|]. split; [exact Hmono|].
  assert (forall i, index_count w <= i < MAX_SYMBOLS ->
            entry_candle_count w (entry_at i) = 0) as Hzero.
  { intros i Hi0. apply load_le_zero. intros a Ha. apply (Hun i); addr. }
  destruct (effect_candle_counts _ _ _ _ _ _ _ Hok Heff)
    as [(Hr & Hsame) | (-> & k & Hk & He & Hcc & Hsame)].
  - split; [|intros; contradiction]. intros _. split; [|now apply Hcur1].
    destruct (Z.eq_dec (index_count w') (index_count w)) as [->|Hgrow].
    + apply candle_sum_ext. intros i Hi0. apply Hsame. lia.
    + replace (index_count w') with (index_count w + 1) by lia.
      rewrite Z2Nat.inj_add by lia. change (Z.to_nat 1) with 1%nat.
      rewrite Nat.add_1_r. cbn [candle_sum]. rewrite Z2Nat.id by lia.
      rewrite Hsame by lia. rewrite Hzero by lia. rewrite Z.add_0_r.
      apply candle_sum_ext. intros i Hi0. apply Hsame. lia.
  - split; [intros H; now contradiction H|]. intros _.
    unfold candles_of.
    destruct He as [(HF & Hlt & Ec & _) | (HF & -> & Ec & _)]; rewrite HF, Ec.
    + rewrite (candle_sum_update (fun i => entry_candle_count w (entry_at i)) _ _ k)
        by (try lia; intros; apply Hsame; lia).
      rewrite Hcc. reflexivity.
    + rewrite Z2Nat.inj_add by lia. change (Z.to_nat 1) with 1%nat.
      rewrite Nat.add_1_r. cbn [candle_sum]. rewrite Z2Nat.id by lia.
      rewrite Hcc, Z.sub_0_r. f_equal.
      apply candle_sum_ext. intros i Hi0. apply Hsame; lia.
Qed.

(** ** What holds of every initialized writer *)

Lemma IsWriting_even w : Header_IsWriting w = negb (Z.even (header_sequence w)).
Proof.
  unfold Header_IsWriting. change 1 with (Z.ones 1).
  rewrite Z.land_ones by lia. change (2 ^ 1) with 2.
  rewrite Zmod_even. now destruct (Z.even (header_sequence w)).
Qed.

(** X1. In every state the public methods reach, an initialized writer
    keeps its directory in order: no write is in flight, the directory
    holds at most 256 entries and the header counts the same number, the
    allocation cursor lies between the start of the data section and the
    end of the region, every entry's name is NUL-terminated, and every
    entry's block, if it has one, is not empty and lies in the data
    section below the cursor. *)
Theorem writer_invariant w :
  reachable w -> IsInitialized w = true ->
  Header_IsWriting w = false /\
  index_count w <= MAX_SYMBOLS /\ header_symbol_count w = index_count w /\
  DATA_SECTIONS_OFFSET <= next_data_offset_ w
    <= Z.max (GetSize w) DATA_SECTIONS_OFFSET /\
  forall i, 0 <= i < MAX_SYMBOLS ->
    peek w (entry_at i + (SYMBOL_NAME_SIZE - 1)) = 0 /\
    (entry_data_offset w (entry_at i) = 0 \/
     DATA_SECTIONS_OFFSET <= entry_data_offset w (entry_at i) /\
     0 < entry_data_size w (entry_at i) /\
     entry_data_offset w (entry_at i) + entry_data_size w (entry_at i)
       <= next_data_offset_ w).
Proof.
  intros Hreach Hi. destruct (reachable_consistent w Hreach Hi) as [Hok Hq].
  split. { rewrite IsWriting_even. unfold quiescent in Hq. now rewrite Hq. }
  split; [exact (ok_count _ Hok)|]. split; [exact (ok_symbol_count _ Hok)|].
  split; [exact (ok_cursor _ Hok)|].
  intros i Hi0. exact (ok_entries _ Hok i Hi0).
Qed.

(** X2. The region of an initialized writer stays sound: the header is
    valid and its reader id, flags and checksum are still the zeros of
    the initialization (the writer never computes the checksum); the
    entries behind the index count are all zeros; the blocks of two
    entries never overlap; and every entry agrees with its block on the
    number of candles, the capacity, the name and the size. *)
Theorem region_stays_sound w :
  reachable w -> IsInitialized w = true ->
  header_sound w /\ unused_clear w /\ blocks_disjoint w /\
  forall i, 0 <= i < MAX_SYMBOLS -> entry_agrees w i.
Proof.
  intros Hreach Hi. destruct (reachable_region_sound w Hreach Hi) as [H1 H2 H3 H4].
  auto.
Qed.

(** X12. Whatever block [GetDataBlock] returns is well formed: it lies in
    the data section and ends, candles included, below the allocation
    cursor and inside the region; it holds between 1 and 100,000 candles;
    and it carries the name that was looked up. *)
Theorem GetDataBlock_sound w symbol block :
  reachable w -> IsInitialized w = true ->
  GetDataBlock w symbol = Some block ->
  DATA_SECTIONS_OFFSET <= block /\
  block + TotalSize w block <= next_data_offset_ w <= GetSize w /\
  0 < block_count w block <= MAX_CANDLES_PER_SYMBOL /\
  block_capacity w block = block_count w block /\
  TotalSize w block = RequiredSize (block_count w block) /\
  GetSymbol w block = symbol.
Proof.
  intros Hreach Hi HG.
  destruct (GetDataBlock_Some _ _ _ HG) as (e & HF & Ho & Hnz).
  destruct (Find_Some _ _ _ HF) as (i & Hi1 & Hi2 & -> & Hg & _).
  assert (0 <= i < MAX_SYMBOLS) as Hi3 by lia.
  destruct (reachable_consistent w Hreach Hi) as [Hok _].
  pose proof (ok_cursor _ Hok) as Hcur.
  pose proof (sound_agree _ (reachable_region_sound w Hreach Hi) i Hi3) as [_ Hag].
  cbv zeta in Hag. rewrite Ho in Hag.
  destruct (Hag Hnz) as (A1 & A2 & A3 & A4 & A5).
  destruct (ok_entries _ Hok i Hi3) as [_ [H0|(H0 & H1 & H2)]]; [congruence|].
  rewrite Ho in H0, H2.
  assert (TotalSize w block = 56 + 48 * block_count w block) as Et.
  { unfold TotalSize. rewrite A1.
    replace (OHLCVDataBlock.sizeof + entry_candle_count w (entry_at i) * Candle.sizeof)
      with (56 + 48 * entry_candle_count w (entry_at i)) by addr.
    apply uint64_small. addr. }
  split; [exact H0|]. split; [unfold GetSize; addr|].
  split; [now rewrite A1|]. split; [congruence|].
  split; [rewrite RequiredSize_eq by (rewrite A1; addr); exact Et|].
  now rewrite A5.
Qed.

(** X13. The blocks of two different symbols never overlap. *)
Theorem blocks_of_distinct_symbols_disjoint w s1 s2 b1 b2 :
  reachable w -> IsInitialized w = true -> s1 <> s2 ->
  GetDataBlock w s1 = Some b1 -> GetDataBlock w s2 = Some b2 ->
  b1 + TotalSize w b1 <= b2 \/ b2 + TotalSize w b2 <= b1.
Proof.
  intros Hreach Hi Hne HG1 HG2.
  destruct (GetDataBlock_Some _ _ _ HG1) as (e1 & HF1 & Ho1 & Hnz1).
  destruct (GetDataBlock_Some _ _ _ HG2) as (e2 & HF2 & Ho2 & Hnz2).
  destruct (Find_Some _ _ _ HF1) as (i & Hi1 & Hi2 & -> & Hg1 & _).
  destruct (Find_Some _ _ _ HF2) as (j & Hj1 & Hj2 & -> & Hg2 & _).
  assert (0 <= i < MAX_SYMBOLS) as Hi3 by lia.
  assert (0 <= j < MAX_SYMBOLS) as Hj3 by lia.
  assert (i <> j) as Hij by (intros ->; congruence).
  destruct (reachable_region_sound w Hreach Hi) as [_ _ Hdis Hag].
  destruct (Hag i Hi3) as [_ Hagi]. destruct (Hag j Hj3) as [_ Hagj].
  cbv zeta in Hagi, Hagj. rewrite Ho1 in Hagi. rewrite Ho2 in Hagj.
  destruct (Hagi Hnz1) as (_ & _ & _ & A1 & _).
  destruct (Hagj Hnz2) as (_ & _ & _ & A2 & _).
  specialize (Hdis i j Hi3 Hj3 Hij). rewrite Ho1, Ho2 in Hdis.
  destruct (Hdis Hnz1 Hnz2); lia.
Qed.

(** X14. A symbol name of more than 15 bytes, or with a NUL in it, never
    resolves, in any reachable state: the directory stores names cut to
    15 bytes and [Find] compares them with the name as given. So no block
    is ever found under such a name, whatever was written under it. *)
Theorem unfit_symbol_has_no_block w symbol :
  reachable w -> IsInitialized w = true -> plain_name 15 symbol = false ->
  Find w symbol = None /\ GetDataBlock w symbol = None.
Proof.
  intros Hreach Hi Hplain.
  pose proof (unfit_symbol_never_resolves w symbol Hreach Hi Hplain) as HF.
  split; [exact HF|]. unfold GetDataBlock. now rewrite HF.
Qed.

(** X15. Names through [SetSymbol] and [GetSymbol], intervals through
    [SetInterval] and [GetInterval]: what is read back is the name cut at
    its first NUL and at 15 bytes (7 for an interval), so it is the name
    itself exactly when the name fits; the last byte of the field is NUL;
    and no byte outside the field changes. *)
Theorem names_round_trip w obj s :
  GetSymbol (SetSymbol w obj s) obj = truncate_name 15 s /\
  (GetSymbol (SetSymbol w obj s) obj = s <-> plain_name 15 s = true) /\
  peek (SetSymbol w obj s) (obj + 15) = 0 /\
  (forall a, a < obj \/ obj + SYMBOL_NAME_SIZE <= a ->
             peek (SetSymbol w obj s) a = peek w a) /\
  GetInterval (SetInterval w obj s) obj = truncate_name 7 s /\
  (GetInterval (SetInterval w obj s) obj = s <-> plain_name 7 s = true) /\
  (forall a, a < obj + OHLCVDataBlock.interval \/
             obj + OHLCVDataBlock.interval + INTERVAL_SIZE <= a ->
             peek (SetInterval w obj s) a = peek w a).
Proof.
  pose proof (GetSymbol_SetSymbol w obj s) as E1.
  change (stored_name s) with (truncate_name 15 s) in E1.
  pose proof (GetInterval_SetInterval w obj s) as E2.
  split; [exact E1|]. split.
  { rewrite E1. split; [apply plain_truncate | apply truncate_plain]. }
  split; [apply peek_SetSymbol_last|].
  split; [intros a Ha; apply peek_SetSymbol_ne; addr|].
  split; [exact E2|]. split.
  { rewrite E2. split; [apply plain_truncate | apply truncate_plain]. }
  intros a Ha. apply peek_SetInterval_ne. addr.
Qed.

(** ** The stores of a transaction and the sequence number *)

Lemma payload_refl w : payload_stores w w.
Proof. exists []. split; [reflexivity | constructor]. Qed.

Lemma payload_trans w1 w2 w3 :
  payload_stores w1 w2 -> payload_stores w2 w3 -> payload_stores w1 w3.
Proof.
  intros (l1 & E1 & F1) (l2 & E2 & F2). exists (l2 ++ l1). split.
  - rewrite E2, E1. apply app_assoc.
  - apply Forall_app. auto.
Qed.

Lemma payload_poke w a bs : 32 <= a -> payload_stores w (poke w a bs).
Proof.
  intros H. exists [(a, Z.of_nat (length bs))]. split; [reflexivity|].
  constructor; [exact H | constructor].
Qed.

Lemma payload_store_le n w a v : 32 <= a -> payload_stores w (store_le n w a v).
Proof. intros H. now apply payload_poke. Qed.

Lemma payload_memset w a c n : 32 <= a -> payload_stores w (memset w a c n).
Proof. intros H. now apply payload_poke. Qed.

Lemma payload_SetSymbol w obj s : 32 <= obj -> payload_stores w (SetSymbol w obj s).
Proof.
  intros H. unfold SetSymbol.
  eapply payload_trans; apply payload_poke; addr.
Qed.

Lemma payload_SetInterval w block s :
  32 <= block -> payload_stores w (SetInterval w block s).
Proof.
  intros H. unfold SetInterval.
  eapply payload_trans; apply payload_poke; addr.
Qed.

Lemma payload_copy_candles cs : forall w block k,
  32 <= block -> 0 <= k -> payload_stores w (copy_candles w block k cs).
Proof.
  induction cs as [|c cs IH]; intros w block k Hb Hk; cbn [copy_candles];
    [apply payload_refl|].
  eapply payload_trans; [|apply IH; lia].
  repeat (eapply payload_trans; [|apply payload_store_le; addr]).
  apply payload_refl.
Qed.

Lemma payload_populate_block symbol interval candles off w :
  32 <= off -> payload_stores w (populate_block symbol interval candles off w).
Proof.
  intros H. unfold populate_block.
  eapply payload_trans; [|apply payload_copy_candles; lia].
  repeat (eapply payload_trans; [|apply payload_store_le; addr]).
  eapply payload_trans; [|apply payload_SetInterval; lia].
  now apply payload_SetSymbol.
Qed.

Lemma payload_appended symbol w : payload_stores w (appended symbol w).
Proof.
  pose proof (index_count_nonneg w) as Hc. unfold appended.
  eapply payload_trans; [|apply payload_store_le; addr].
  eapply payload_trans; [|apply payload_SetSymbol; addr].
  apply payload_store_le. addr.
Qed.

Lemma payload_allocated e req w :
  is_entry e -> 32 <= next_data_offset_ w -> payload_stores w (allocated e req w).
Proof.
  intros (k & Hk & ->) Hn. unfold allocated.
  repeat (eapply payload_trans; [|apply payload_store_le; addr]).
  exists [(next_data_offset_ w, Z.of_nat (length (replicate (Z.to_nat req) 0)))].
  split; [reflexivity|]. constructor; [exact Hn | constructor].
Qed.

Lemma payload_resolved symbol w e w2 : resolved symbol w e w2 -> payload_stores w w2.
Proof. intros [i _ _ _ | _ _]; [apply payload_refl | apply payload_appended]. Qed.

Lemma written_store_le n w a v :
  written (shm (store_le n w a v)) = (a, Z.of_nat n) :: written (shm w).
Proof. unfold store_le, poke. cbn. now rewrite encode_le_length. Qed.

Lemma written_end_write now w :
  written (shm (end_write now w))
  = (last_update_addr, 8) :: (sequence_addr, 8) :: written (shm w).
Proof. unfold end_write. now rewrite !written_store_le. Qed.

Lemma written_begin_write w :
  written (shm (begin_write w)) = (sequence_addr, 8) :: written (shm w).
Proof. unfold begin_write. now rewrite written_store_le. Qed.

Lemma payload_settled clock symbol interval candles w1 r w' :
  index_ok w1 ->
  transaction clock symbol interval candles w1 r w' ->
  exists now w3, w' = end_write now w3 /\ payload_stores w1 w3.
Proof.
  intros Hok [HF Hc | e w2 Hres Hneed Hfull | e w2 Hres Hneed Hfit | e w2 Hres Hnz Hle].
  - eexists _, _. split; [reflexivity | apply payload_refl].
  - eexists _, _. split; [reflexivity | exact (payload_resolved _ _ _ _ Hres)].
  - destruct (resolved_facts _ _ _ _ Hok Hres) as (Hok2 & He & _).
    pose proof (ok_cursor _ Hok2) as Hcur.
    destruct He as (k & Hk & ->).
    eexists _, _. split; [reflexivity|].
    eapply payload_trans; [exact (payload_resolved _ _ _ _ Hres)|].
    eapply payload_trans; [apply payload_allocated; [now exists k | addr]|].
    repeat (eapply payload_trans; [|apply payload_store_le; addr]).
    apply payload_populate_block.
    change (next_data_offset_ w2) with (next_data_offset_ w2). addr.
  - destruct (resolved_facts _ _ _ _ Hok Hres) as (Hok2 & He & _).
    destruct He as (k & Hk & ->).
    destruct (ok_entries _ Hok2 k Hk) as [_ [H0|(H0 & _)]]; [contradiction|].
    eexists _, _. split; [reflexivity|].
    eapply payload_trans; [exact (payload_resolved _ _ _ _ Hres)|].
    repeat (eapply payload_trans; [|apply payload_store_le; addr]).
    apply payload_populate_block. addr.
Qed.

(** X16. The stores of a transaction are bracketed by the two increments
    of the sequence number: the first store of the call makes the
    sequence odd ([IsWriting]), every store to the directory and to the
    data section comes after it and before the store that makes the
    sequence even again; only the timestamp of the header is stored after
    that second increment. *)
Theorem stores_bracketed_by_sequence clock symbol interval candles w :
  reachable w -> IsInitialized w = true ->
  0 < Z.of_nat (length candles) <= MAX_CANDLES_PER_SYMBOL ->
  let w' := snd (WriteCandles clock symbol interval candles w) in
  Header_IsWriting (begin_write w) = true /\ Header_IsWriting w' = false /\
  exists payload,
    written (shm w')
    = (last_update_addr, 8) :: (sequence_addr, 8) :: payload
        ++ (sequence_addr, 8) :: written (shm w) /\
    Forall (fun r => Header.symbol_count <= fst r) payload.
Proof.
  intros Hreach Hi Hn. cbv zeta.
  pose proof (reachable_consistent w Hreach) as Hcons.
  destruct (Hcons Hi) as [Hok Hq].
  destruct (WriteCandles_effect clock symbol interval candles w Hcons Hi Hn)
    as (_ & _ & Hi'). cbv zeta in Hi'.
  destruct (reachable_consistent _
              (reach_WriteCandles clock symbol interval candles w Hreach) Hi')
    as [_ Hq'].
  pose proof (WriteCandles_transaction clock symbol interval candles w Hi Hok Hn) as Ht.
  destruct (payload_settled _ _ _ _ _ _ _ (index_ok_begin_write w Hok) Ht)
    as (now & w3 & E & (l & El & Fl)).
  split.
  { rewrite IsWriting_even, header_sequence_begin_write, uint64_even.
    unfold quiescent in Hq. now rewrite Z.even_add, Hq. }
  split. { rewrite IsWriting_even. unfold quiescent in Hq'. now rewrite Hq'. }
  exists l. split; [|exact Fl].
  rewrite E, written_end_write, El, written_begin_write. reflexivity.
Qed.

(** ** The checksum *)

Lemma lxor_range n a b :
  0 <= n -> 0 <= a < 2 ^ n -> 0 <= b < 2 ^ n -> 0 <= Z.lxor a b < 2 ^ n.
Proof.
  intros Hn Ha Hb.
  assert (0 <= Z.lxor a b) as H0 by (apply Z.lxor_nonneg; lia).
  split; [exact H0|].
  apply Z.bounded_iff_bits_nonneg; [exact Hn | exact H0 |].
  intros l Hl. rewrite Z.lxor_spec.
  rewrite (proj1 (Z.bounded_iff_bits_nonneg n a Hn (proj1 Ha)) (proj2 Ha) l Hl).
  rewrite (proj1 (Z.bounded_iff_bits_nonneg n b Hn (proj1 Hb)) (proj2 Hb) l Hl).
  reflexivity.
Qed.

Lemma crc_bit_textbook_eq crc :
  0 <= crc < 2 ^ 32 -> crc_bit crc = crc_bit_textbook crc.
Proof.
  intros H. unfold crc_bit, crc_bit_textbook.
  rewrite Z.shiftr_div_pow2 by lia. change (2 ^ 1) with 2.
  change 1 with (Z.ones 1) at 1. rewrite Z.land_ones by lia. change (2 ^ 1) with 2.
  rewrite Zmod_odd. destruct (Z.odd crc).
  - reflexivity.
  - cbn. apply Z.lxor_0_r.
Qed.

Lemma crc_bit_range crc : 0 <= crc < 2 ^ 32 -> 0 <= crc_bit crc < 2 ^ 32.
Proof.
  intros H. rewrite crc_bit_textbook_eq by exact H. unfold crc_bit_textbook.
  assert (0 <= crc / 2 < 2 ^ 32).
  { split; [apply Z.div_pos; lia | apply Z.div_lt_upper_bound; lia]. }
  destruct (Z.odd crc); [|assumption].
  apply lxor_range; [lia | assumption | unfold CRC32_POLYNOMIAL; lia].
Qed.

Lemma crc_bit_top crc :
  0 <= crc < 2 ^ 32 -> Z.testbit (crc_bit crc) 31 = Z.odd crc.
Proof.
  intros H. rewrite crc_bit_textbook_eq by exact H. unfold crc_bit_textbook.
  assert (Z.testbit (crc / 2) 31 = false) as Hhigh.
  { apply (proj1 (Z.bounded_iff_bits_nonneg 31 (crc / 2) ltac:(lia)
                    ltac:(apply Z.div_pos; lia))); [|lia].
    apply Z.div_lt_upper_bound; lia. }
  destruct (Z.odd crc); [|exact Hhigh].
  rewrite Z.lxor_spec, Hhigh. reflexivity.
Qed.

Lemma lxor_cancel_r a b c : Z.lxor a c = Z.lxor b c -> a = b.
Proof.
  intros H. apply Z.bits_inj'. intros n _.
  apply (f_equal (fun z => Z.testbit z n)) in H. rewrite !Z.lxor_spec in H.
  destruct (Z.testbit a n), (Z.testbit b n), (Z.testbit c n); cbn in H; congruence.
Qed.

Lemma crc_bit_inj x y :
  0 <= x < 2 ^ 32 -> 0 <= y < 2 ^ 32 -> crc_bit x = crc_bit y -> x = y.
Proof.
  intros Hx Hy E.
  assert (Z.odd x = Z.odd y) as Hodd.
  { rewrite <- (crc_bit_top x Hx), <- (crc_bit_top y Hy). now rewrite E. }
  rewrite !crc_bit_textbook_eq in E by assumption. unfold crc_bit_textbook in E.
  rewrite <- Hodd in E.
  assert (x / 2 = y / 2) as Hdiv.
  { destruct (Z.odd x); [now apply lxor_cancel_r in E | exact E]. }
  rewrite (Z.div_mod x 2), (Z.div_mod y 2) by lia.
  rewrite !Zmod_odd, Hodd, Hdiv. reflexivity.
Qed.

Lemma iter_crc_bit_range n : forall x,
  0 <= x < 2 ^ 32 -> 0 <= Nat.iter n crc_bit x < 2 ^ 32.
Proof.
  induction n as [|n IH]; intros x Hx; [exact Hx|].
  cbn [Nat.iter]. apply crc_bit_range, IH, Hx.
Qed.

Lemma iter_crc_bit_inj n : forall x y,
  0 <= x < 2 ^ 32 -> 0 <= y < 2 ^ 32 ->
  Nat.iter n crc_bit x = Nat.iter n crc_bit y -> x = y.
Proof.
  induction n as [|n IH]; intros x y Hx Hy E; [exact E|].
  cbn [Nat.iter] in E. apply IH; [exact Hx | exact Hy |].
  apply crc_bit_inj; [now apply iter_crc_bit_range | now apply iter_crc_bit_range | exact E].
Qed.

Lemma crc_byte_eq c b : crc_byte c b = Nat.iter 8 crc_bit (Z.lxor c b).
Proof. reflexivity. Qed.

Lemma lxor_byte_range c b :
  0 <= c < 2 ^ 32 -> is_byte b -> 0 <= Z.lxor c b < 2 ^ 32.
Proof. intros Hc Hb. apply lxor_range; [lia | exact Hc | unfold is_byte in Hb; lia]. Qed.

Lemma crc_byte_range c b :
  0 <= c < 2 ^ 32 -> is_byte b -> 0 <= crc_byte c b < 2 ^ 32.
Proof.
  intros Hc Hb. rewrite crc_byte_eq. apply iter_crc_bit_range. now apply lxor_byte_range.
Qed.

Lemma crc_byte_inj c c' b b' :
  0 <= c < 2 ^ 32 -> 0 <= c' < 2 ^ 32 -> is_byte b -> is_byte b' ->
  crc_byte c b = crc_byte c' b' -> Z.lxor c b = Z.lxor c' b'.
Proof.
  intros Hc Hc' Hb Hb' E. rewrite !crc_byte_eq in E.
  apply (iter_crc_bit_inj 8) in E; [exact E | |]; now apply lxor_byte_range.
Qed.

Lemma fold_left_step {A B} (f : A -> B -> A) b l a :
  fold_left f (b :: l) a = fold_left f l (f a b).
Proof. reflexivity. Qed.

Lemma fold_crc_range data : forall c,
  Forall is_byte data -> 0 <= c < 2 ^ 32 -> 0 <= fold_left crc_byte data c < 2 ^ 32.
Proof.
  induction data as [|b data IH]; intros c Hd Hc; [exact Hc|].
  inversion Hd as [|b0 d0 Hb Hd0]; subst b0 d0; clear Hd; rename Hd0 into Hd. rewrite fold_left_step.
  apply IH; [exact Hd | now apply crc_byte_range].
Qed.

Lemma fold_crc_inj data : forall c c',
  Forall is_byte data -> 0 <= c < 2 ^ 32 -> 0 <= c' < 2 ^ 32 ->
  fold_left crc_byte data c = fold_left crc_byte data c' -> c = c'.
Proof.
  induction data as [|b data IH]; intros c c' Hd Hc Hc' E; [exact E|].
  inversion Hd as [|b0 d0 Hb Hd0]; subst b0 d0; clear Hd; rename Hd0 into Hd. rewrite !fold_left_step in E.
  apply IH in E; [|exact Hd | now apply crc_byte_range | now apply crc_byte_range].
  apply crc_byte_inj in E; try assumption. now apply lxor_cancel_r in E.
Qed.

Lemma uint32_lnot c : 0 <= c < 2 ^ 32 -> uint32 (Z.lnot c) = 2 ^ 32 - 1 - c.
Proof.
  intros H. unfold uint32, Z.lnot.
  replace (Z.pred (- c)) with (2 ^ 32 - 1 - c + (-1) * 2 ^ 32) by lia.
  rewrite Z.mod_add by lia. apply Z.mod_small. lia.
Qed.

(** X17. [CalculateCRC32] computes the standard reflected CRC-32: its
    branch-free step, which masks the polynomial with [-(crc & 1)], is the
    conditional step of the definition, and the result is a 32-bit
    value. *)
Theorem CalculateCRC32_textbook data :
  Forall is_byte data ->
  0 <= CalculateCRC32 data < 2 ^ 32 /\
  CalculateCRC32 data
  = 2 ^ 32 - 1
    - fold_left (fun c b => Nat.iter 8 crc_bit_textbook (Z.lxor c b)) data (2 ^ 32 - 1).
Proof.
  intros Hd. unfold CalculateCRC32. change 4294967295 with (2 ^ 32 - 1).
  assert (0 <= 2 ^ 32 - 1 < 2 ^ 32) as H0 by lia.
  pose proof (fold_crc_range data _ Hd H0) as Hr.
  rewrite uint32_lnot by exact Hr. split; [lia|]. f_equal. clear Hr.
  revert Hd H0. generalize (2 ^ 32 - 1). induction data as [|b data IH]; intros c Hd Hc;
    [reflexivity|].
  inversion Hd as [|b0 d0 Hb Hd0]; subst b0 d0; clear Hd; rename Hd0 into Hd. rewrite !fold_left_step. cbv beta.
  assert (forall n x, 0 <= x < 2 ^ 32 ->
            Nat.iter n crc_bit_textbook x = Nat.iter n crc_bit x) as Hiter.
  { induction n as [|n IHn]; intros x Hx; [reflexivity|]. rewrite !Nat.iter_succ.
    rewrite IHn by exact Hx. symmetry. apply crc_bit_textbook_eq.
    now apply iter_crc_bit_range. }
  rewrite Hiter by now apply lxor_byte_range.
  rewrite <- crc_byte_eq. apply IH; [exact Hd | now apply crc_byte_range].
Qed.

(** X18. [CalculateCRC32] detects every change confined to one byte:
    two buffers that differ in exactly one byte have different
    checksums. *)
Theorem CalculateCRC32_detects_one_byte pre post b b' :
  Forall is_byte pre -> Forall is_byte post -> is_byte b -> is_byte b' ->
  b <> b' ->
  CalculateCRC32 (pre ++ b :: post) <> CalculateCRC32 (pre ++ b' :: post).
Proof.
  intros Hpre Hpost Hb Hb' Hne E. unfold CalculateCRC32 in E.
  assert (0 <= 4294967295 < 2 ^ 32) as H0 by lia.
  pose proof (fold_crc_range pre _ Hpre H0) as Hc.
  rewrite !fold_left_app, !fold_left_step in E.
  revert E Hc. generalize (fold_left crc_byte pre 4294967295). intros c E Hc.
  pose proof (crc_byte_range c b Hc Hb) as H1.
  pose proof (crc_byte_range c b' Hc Hb') as H2.
  rewrite !uint32_lnot in E by (apply fold_crc_range; assumption).
  assert (fold_left crc_byte post (crc_byte c b) = fold_left crc_byte post (crc_byte c b'))
    as E' by lia.
  apply fold_crc_inj in E'; try assumption.
  apply crc_byte_inj in E'; try assumption.
  rewrite !(Z.lxor_comm c) in E'. apply lxor_cancel_r in E'. contradiction.
Qed.

(** ** The statements above, on the concrete regions *)

Lemma reachable_btc_written : reachable btc_written.
Proof. apply reach_WriteCandles, reachable_created. Qed.

Lemma reachable_eth_written : reachable eth_written.
Proof. apply reach_WriteCandles, reachable_btc_written. Qed.

Lemma reachable_long_once : reachable long_once.
Proof. apply reach_WriteCandles, reachable_created. Qed.

Lemma candles_upto_in_range n :
  0 < n <= MAX_CANDLES_PER_SYMBOL ->
  0 < Z.of_nat (length (candles_upto n)) <= MAX_CANDLES_PER_SYMBOL.
Proof. intros H. rewrite candles_upto_length by lia. exact H. Qed.

Lemma writer_invariant_witness :
  reachable btc_written /\ IsInitialized btc_written = true /\
  Header_IsWriting btc_written = false /\
  index_count btc_written <= MAX_SYMBOLS /\
  header_symbol_count btc_written = index_count btc_written.
Proof.
  assert (IsInitialized btc_written = true) as Hi by (vm_compute; reflexivity).
  destruct (writer_invariant btc_written reachable_btc_written Hi) as (H1 & H2 & H3 & _).
  exact (conj reachable_btc_written (conj Hi (conj H1 (conj H2 H3)))).
Defined.

Lemma region_stays_sound_witness :
  reachable eth_written /\ IsInitialized eth_written = true /\
  header_sound eth_written /\ unused_clear eth_written /\ blocks_disjoint eth_written.
Proof.
  assert (IsInitialized eth_written = true) as Hi by (vm_compute; reflexivity).
  destruct (region_stays_sound eth_written reachable_eth_written Hi)
    as (H1 & H2 & H3 & _).
  exact (conj reachable_eth_written (conj Hi (conj H1 (conj H2 H3)))).
Defined.

Lemma write_reads_back_witness :
  reachable created /\ plain_name 15 "BTCUSDT" = true /\ candles_upto 5 <> [] /\
  fst (WriteCandles tick "BTCUSDT" "1h" (candles_upto 5) created) = OK /\
  exists block,
    GetDataBlock (snd (WriteCandles tick "BTCUSDT" "1h" (candles_upto 5) created))
                 "BTCUSDT" = Some block /\
    block_count (snd (WriteCandles tick "BTCUSDT" "1h" (candles_upto 5) created)) block
    = Z.of_nat (length (candles_upto 5)) /\
    forall i, (i < length (candles_upto 5))%nat ->
      load_candle (snd (WriteCandles tick "BTCUSDT" "1h" (candles_upto 5) created))
                  block (Z.of_nat i)
      = wrap_candle (nth i (candles_upto 5) no_candle).
Proof.
  assert (plain_name 15 "BTCUSDT" = true) as Hp by reflexivity.
  assert (candles_upto 5 <> []) as Hne by (vm_compute; discriminate).
  assert (fst (WriteCandles tick "BTCUSDT" "1h" (candles_upto 5) created) = OK) as HOK
    by (vm_compute; reflexivity).
  pose proof (write_reads_back tick "BTCUSDT" "1h" (candles_upto 5) created
                reachable_created Hp Hne HOK) as H.
  cbv zeta in H.
  destruct H as (block & G & _ & _ & _ & _ & C & _ & _ & _ & _ & L).
  exact (conj reachable_created (conj Hp (conj Hne (conj HOK
           (ex_intro _ block (conj G (conj C L))))))).
Defined.

Lemma write_leaves_other_symbols_alone_witness :
  reachable btc_written /\ IsInitialized btc_written = true /\
  "BTCUSDT" <> "ETHUSDT" /\ Find btc_written "BTCUSDT" = Some (entry_at 0) /\
  Find (snd (WriteCandles tick "ETHUSDT" "1h" (candles_upto 3) btc_written)) "BTCUSDT"
  = Some (entry_at 0) /\
  GetDataBlock (snd (WriteCandles tick "ETHUSDT" "1h" (candles_upto 3) btc_written))
               "BTCUSDT"
  = GetDataBlock btc_written "BTCUSDT".
Proof.
  assert (IsInitialized btc_written = true) as Hi by (vm_compute; reflexivity).
  assert ("BTCUSDT" <> "ETHUSDT") as Hne by discriminate.
  assert (Find btc_written "BTCUSDT" = Some (entry_at 0)) as HF
    by (vm_compute; reflexivity).
  pose proof (write_leaves_other_symbols_alone tick "ETHUSDT" "1h" (candles_upto 3)
                btc_written "BTCUSDT" (entry_at 0) reachable_btc_written Hi Hne HF) as H.
  cbv zeta in H. destruct H as (H1 & H2 & _).
  exact (conj reachable_btc_written (conj Hi (conj Hne (conj HF (conj H1 H2))))).
Defined.


Lemma rewrite_reuses_or_replaces_witness :
  reachable btc_written /\ IsInitialized btc_written = true /\
  GetDataBlock btc_written "BTCUSDT" = Some 16640 /\
  exists e, Find btc_written "BTCUSDT" = Some e /\
            entry_data_offset btc_written e = 16640.
Proof.
  assert (IsInitialized btc_written = true) as Hi by (vm_compute; reflexivity).
  assert (GetDataBlock btc_written "BTCUSDT" = Some 16640) as HG
    by (vm_compute; reflexivity).
  pose proof (rewrite_reuses_or_replaces tick "BTCUSDT" "1h" (candles_upto 3)
                btc_written 16640 reachable_btc_written Hi
                (candles_upto_in_range 3 ltac:(vm_compute; split; [reflexivity | discriminate]))
                HG) as H.
  cbv zeta in H. destruct H as (e & H1 & _ & H3 & _).
  exact (conj reachable_btc_written (conj Hi (conj HG
           (ex_intro _ e (conj H1 H3))))).
Defined.

Lemma resources_go_together_witness :
  reachable created /\ region_ created = base_ptr_ created.
Proof.
  destruct (resources_go_together created reachable_created) as (H1 & _).
  exact (conj reachable_created H1).
Defined.

Lemma failed_Create_leaves_no_region_witness :
  reachable created /\ IsInitialized created = true /\
  "again" <> EmptyString /\ 4352 <= 2 ^ 20 <= 2 ^ 30 /\
  mmap_result os_refusing = None /\
  IsInitialized (snd (Create os_refusing 4242 (tick 0) "again" (2 ^ 20) created)) = false /\
  GetName (snd (Create os_refusing 4242 (tick 0) "again" (2 ^ 20) created)) = "again".
Proof.
  assert (IsInitialized created = true) as Hi by (vm_compute; reflexivity).
  assert ("again" <> EmptyString) as Hname by discriminate.
  assert (4352 <= 2 ^ 20 <= 2 ^ 30) as Hsize by (vm_compute; split; discriminate).
  assert (mmap_result os_refusing = None) as Hm by reflexivity.
  pose proof (failed_Create_leaves_no_region os_refusing 4242 (tick 0) "again" (2 ^ 20)
                created reachable_created Hname Hsize (or_intror (or_intror Hm))) as H.
  cbv zeta in H. destruct H as (_ & H2 & _ & _ & H5 & _).
  exact (conj reachable_created (conj Hi (conj Hname (conj Hsize (conj Hm
           (conj H2 H5)))))).
Defined.

Lemma Create_hands_out_empty_region_witness :
  fst (Create os_fresh 4242 (tick 0) "test" (2 ^ 20) new_writer) = OK /\
  IsInitialized (snd (Create os_fresh 4242 (tick 0) "test" (2 ^ 20) new_writer)) = true /\
  GetName (snd (Create os_fresh 4242 (tick 0) "test" (2 ^ 20) new_writer)) = "test" /\
  GetSize (snd (Create os_fresh 4242 (tick 0) "test" (2 ^ 20) new_writer)) = 2 ^ 20.
Proof.
  assert (fst (Create os_fresh 4242 (tick 0) "test" (2 ^ 20) new_writer) = OK) as HOK
    by (vm_compute; reflexivity).
  pose proof (Create_hands_out_empty_region os_fresh 4242 (tick 0) "test" (2 ^ 20)
                new_writer HOK) as H.
  cbv zeta in H. destruct H as (H1 & H2 & H3 & _).
  exact (conj HOK (conj H1 (conj H2 H3))).
Defined.

Lemma GetStats_after_write_witness :
  reachable created /\ IsInitialized created = true /\
  write_count (GetStats (snd (WriteCandles tick "BTCUSDT" "1h" (candles_upto 5) created)))
  = (write_count (GetStats created) + 1) mod 2 ^ 63 /\
  total_symbols (GetStats created)
  <= total_symbols
       (GetStats (snd (WriteCandles tick "BTCUSDT" "1h" (candles_upto 5) created)))
  <= total_symbols (GetStats created) + 1.
Proof.
  assert (IsInitialized created = true) as Hi by (vm_compute; reflexivity).
  pose proof (GetStats_after_write tick "BTCUSDT" "1h" (candles_upto 5) created
                reachable_created Hi
                (candles_upto_in_range 5 ltac:(vm_compute; split; [reflexivity | discriminate]))) as H.
  cbv zeta in H. destruct H as (H1 & _ & _ & H4 & _).
  exact (conj reachable_created (conj Hi (conj H1 H4))).
Defined.

Lemma GetDataBlock_sound_witness :
  reachable btc_written /\ IsInitialized btc_written = true /\
  GetDataBlock btc_written "BTCUSDT" = Some 16640 /\
  DATA_SECTIONS_OFFSET <= 16640 /\ GetSymbol btc_written 16640 = "BTCUSDT".
Proof.
  assert (IsInitialized btc_written = true) as Hi by (vm_compute; reflexivity).
  assert (GetDataBlock btc_written "BTCUSDT" = Some 16640) as HG
    by (vm_compute; reflexivity).
  destruct (GetDataBlock_sound btc_written "BTCUSDT" 16640 reachable_btc_written Hi HG)
    as (H1 & _ & _ & _ & _ & H6).
  exact (conj reachable_btc_written (conj Hi (conj HG (conj H1 H6)))).
Defined.

Lemma blocks_of_distinct_symbols_disjoint_witness :
  reachable eth_written /\ IsInitialized eth_written = true /\
  "BTCUSDT" <> "ETHUSDT" /\
  GetDataBlock eth_written "BTCUSDT" = Some 16640 /\
  GetDataBlock eth_written "ETHUSDT" = Some 16936 /\
  (16640 + TotalSize eth_written 16640 <= 16936 \/
   16936 + TotalSize eth_written 16936 <= 16640).
Proof.
  assert (IsInitialized eth_written = true) as Hi by (vm_compute; reflexivity).
  assert ("BTCUSDT" <> "ETHUSDT") as Hne by discriminate.
  assert (GetDataBlock eth_written "BTCUSDT" = Some 16640) as H1
    by (vm_compute; reflexivity).
  assert (GetDataBlock eth_written "ETHUSDT" = Some 16936) as H2
    by (vm_compute; reflexivity).
  exact (conj reachable_eth_written (conj Hi (conj Hne (conj H1 (conj H2
           (blocks_of_distinct_symbols_disjoint eth_written "BTCUSDT" "ETHUSDT"
              16640 16936 reachable_eth_written Hi Hne H1 H2)))))).
Defined.

Lemma unfit_symbol_has_no_block_witness :
  reachable long_once /\ IsInitialized long_once = true /\
  plain_name 15 long_symbol = false /\
  Find long_once long_symbol = None /\ GetDataBlock long_once long_symbol = None.
Proof.
  assert (IsInitialized long_once = true) as Hi by (vm_compute; reflexivity).
  assert (plain_name 15 long_symbol = false) as Hp by reflexivity.
  exact (conj reachable_long_once (conj Hi (conj Hp
           (unfit_symbol_has_no_block long_once long_symbol reachable_long_once Hi Hp)))).
Defined.

Lemma stores_bracketed_by_sequence_witness :
  reachable created /\ IsInitialized created = true /\
  Header_IsWriting (begin_write created) = true /\
  Header_IsWriting (snd (WriteCandles tick "BTCUSDT" "1h" (candles_upto 5) created))
  = false.
Proof.
  assert (IsInitialized created = true) as Hi by (vm_compute; reflexivity).
  pose proof (stores_bracketed_by_sequence tick "BTCUSDT" "1h" (candles_upto 5) created
                reachable_created Hi
                (candles_upto_in_range 5 ltac:(vm_compute; split; [reflexivity | discriminate]))) as H.
  cbv zeta in H. destruct H as (H1 & H2 & _).
  exact (conj reachable_created (conj Hi (conj H1 H2))).
Defined.

Lemma CalculateCRC32_textbook_witness :
  Forall is_byte [49; 50; 51; 52; 53; 54; 55; 56; 57] /\
  CalculateCRC32 [49; 50; 51; 52; 53; 54; 55; 56; 57] = 3421780262 /\
  0 <= CalculateCRC32 [49; 50; 51; 52; 53; 54; 55; 56; 57] < 2 ^ 32.
Proof.
  assert (Forall is_byte [49; 50; 51; 52; 53; 54; 55; 56; 57]) as Hd
    by (repeat constructor; discriminate).
  assert (CalculateCRC32 [49; 50; 51; 52; 53; 54; 55; 56; 57] = 3421780262) as Hv
    by (vm_compute; reflexivity).
  exact (conj Hd (conj Hv
           (proj1 (CalculateCRC32_textbook [49; 50; 51; 52; 53; 54; 55; 56; 57] Hd)))).
Defined.

Lemma CalculateCRC32_detects_one_byte_witness :
  Forall is_byte [1; 2] /\ Forall is_byte [5] /\ is_byte 3 /\ is_byte 4 /\ 3 <> 4 /\
  CalculateCRC32 ([1; 2] ++ 3 :: [5]) <> CalculateCRC32 ([1; 2] ++ 4 :: [5]).
Proof.
  assert (Forall is_byte [1; 2]) as H1 by (repeat constructor; discriminate).
  assert (Forall is_byte [5]) as H2 by (repeat constructor; discriminate).
  assert (is_byte 3) as H3 by (split; [discriminate | reflexivity]).
  assert (is_byte 4) as H4 by (split; [discriminate | reflexivity]).
  assert (3 <> 4) as H5 by discriminate.
  exact (conj H1 (conj H2 (conj H3 (conj H4 (conj H5
           (CalculateCRC32_detects_one_byte [1; 2] [5] 3 4 H1 H2 H3 H4 H5)))))).
Defined.

Lemma stores_stay_in_region_witness :
  reachable created /\ IsInitialized created = true /\ 10504 <= size_ created /\
  in_bounds created.
Proof.
  assert (IsInitialized created = true) as Hi by (vm_compute; reflexivity).
  assert (10504 <= size_ created) as Hs by (vm_compute; discriminate).
  exact (conj reachable_created (conj Hi (conj Hs
           (stores_stay_in_region created reachable_created Hi Hs)))).
Defined.

Lemma unfit_symbol_appends_every_time_witness :
  reachable long_once /\ IsInitialized long_once = true /\
  plain_name 15 long_symbol = false /\ index_count long_once < MAX_SYMBOLS /\
  index_count (snd (WriteCandles tick long_symbol "1h" (candles_upto 5) long_once))
  = index_count long_once + 1.
Proof.
  assert (IsInitialized long_once = true) as Hi by (vm_compute; reflexivity).
  assert (plain_name 15 long_symbol = false) as Hp by reflexivity.
  assert (index_count long_once < MAX_SYMBOLS) as Hc by (vm_compute; reflexivity).
  pose proof (unfit_symbol_appends_every_time tick long_symbol "1h" (candles_upto 5)
                long_once reachable_long_once Hi
                (candles_upto_in_range 5 ltac:(vm_compute; split; [reflexivity | discriminate]))
                Hp Hc) as H.
  cbv zeta in H. destruct H as (H1 & _).
  exact (conj reachable_long_once (conj Hi (conj Hp (conj Hc H1)))).
Defined.

Lemma plain_symbol_resolves_after_write_witness :
  reachable created /\ IsInitialized created = true /\
  plain_name 15 "BTCUSDT" = true /\
  fst (WriteCandles tick "BTCUSDT" "1h" (candles_upto 5) created)
    <> SYMBOL_LIMIT_EXCEEDED /\
  exists e,
    Find (snd (WriteCandles tick "BTCUSDT" "1h" (candles_upto 5) created)) "BTCUSDT"
    = Some e.
Proof.
  assert (IsInitialized created = true) as Hi by (vm_compute; reflexivity).
  assert (plain_name 15 "BTCUSDT" = true) as Hp by reflexivity.
  assert (fst (WriteCandles tick "BTCUSDT" "1h" (candles_upto 5) created)
          <> SYMBOL_LIMIT_EXCEEDED) as Hr by (vm_compute; discriminate).
  pose proof (plain_symbol_resolves_after_write tick "BTCUSDT" "1h" (candles_upto 5)
                created reachable_created Hi
                (candles_upto_in_range 5 ltac:(vm_compute; split; [reflexivity | discriminate]))
                Hp Hr) as H.
  cbv zeta in H. destruct H as (e & _ & HF & _).
  exact (conj reachable_created (conj Hi (conj Hp (conj Hr (ex_intro _ e HF))))).
Defined.
